(** * Shallow embedding of [lib-python/models.py]

    The development embeds the two numerical components of the model file
    (the SO(3) reparameterisation [SO3reparameterize] and the central-slice
    decoder [FTSliceDecoder]), the glue of [HetVAE] that wires them into
    one forward evaluation and the dense networks of the model (the
    residual decoder and the encoders), and proves properties of them. *)

From stdpp Require Import base numbers list option.

Local Open Scope Z_scope.

(** ** Exceptions

    Python code either returns a value or raises.  Only the exception
    classes that the embedded code can raise are listed. *)

Inductive exn : Set :=
  | ZeroDivisionError
  | IndexError
  | AssertionError
  | RuntimeError.

Inductive result (A : Type) : Type :=
  | Ok (a : A)
  | Raise (e : exn).

Arguments Ok {A} a.
Arguments Raise {A} e.

#[global] Instance result_ret : MRet result := @Ok.
#[global] Instance result_bind : MBind result :=
  λ A B f m, match m with Ok a => f a | Raise e => Raise e end.
#[global] Instance result_fmap : FMap result :=
  λ A B f m, match m with Ok a => Ok (f a) | Raise e => Raise e end.

Definition is_Ok {A} (m : result A) : Prop := ∃ a, m = Ok a.

(** ** The fragment of numpy used for the pixel bookkeeping

    Arrays of indices are lists of unbounded integers; a two-dimensional
    array is the list of its rows. *)

Module np.

(** [np.arange(start, stop)]: the integers of [start, stop). *)
Definition arange2 (start stop : Z) : list Z := seqZ start (stop - start).

(** [np.arange(stop)]. *)
Definition arange1 (stop : Z) : list Z := arange2 0 stop.

(** Number of elements of [np.arange(start, stop, step)] for a non-zero
    step: ceil((stop - start) / step), or none when that is negative. *)
Definition arange_len (start stop step : Z) : Z :=
  if 0 <? step then Z.max 0 ((stop - start + step - 1) `div` step)
  else Z.max 0 ((start - stop + (- step) - 1) `div` (- step)).

(** [np.arange(start, stop, step)]; a zero step raises. *)
Definition arange3 (start stop step : Z) : result (list Z) :=
  if step =? 0 then Raise ZeroDivisionError
  else Ok ((λ k, start + k * step) <$> seqZ 0 (arange_len start stop step)).

(** [np.meshgrid(x, y)] with the default ['xy'] indexing: two arrays of
    shape (len y, len x), the first repeating [x] along the rows and the
    second constant on every row. *)
Definition meshgrid (x y : list Z) : list (list Z) * list (list Z) :=
  ((λ _, x) <$> y, (λ v, (λ _, v) <$> x) <$> y).

(** [a * k] for a two-dimensional array and a scalar. *)
Definition mul_scalar (a : list (list Z)) (k : Z) : list (list Z) :=
  fmap (M := list) (fmap (M := list) (λ v, v * k)) a.

(** [a + b] for two arrays of the same shape. *)
Definition add (a b : list (list Z)) : list (list Z) :=
  zip_with (zip_with Z.add) a b.

(** [a.ravel()]: row-major flattening. *)
Definition ravel (a : list (list Z)) : list Z := concat a.

(** Python's resolution of one bound of a slice over [len] elements: a
    negative bound counts from the end, and both are clipped. *)
Definition slice_index (len : nat) (i : Z) : nat :=
  Z.to_nat (if i <? 0 then Z.max 0 (Z.of_nat len + i)
            else Z.min (Z.of_nat len) i).

(** [a[:stop]]. *)
Definition slice_to {A} (a : list A) (stop : Z) : list A :=
  take (slice_index (length a) stop) a.

(** [a[start:]]. *)
Definition slice_from {A} (a : list A) (start : Z) : list A :=
  drop (slice_index (length a) start) a.

(** [a[::-1]]. *)
Definition flip {A} (a : list A) : list A := reverse a.

(** [np.concatenate((a, b))]. *)
Definition concatenate {A} (a b : list A) : list A := a ++ b.

End np.

(** ** Scalars

    The arrays of the model hold floating-point numbers.  The embedding is
    parametric in the scalar type: it uses the operations below and only
    the laws listed with them, each of which IEEE arithmetic satisfies
    exactly (negation flips the sign bit, [a - (-b)] is computed as
    [a + b], multiplying by [-1] is negation, and [-x > 0] excludes
    [x > 0]).  The integers are an instance, used to evaluate the code on
    concrete arrays. *)

Class Scalar (T : Type) : Type := {
  szero : T;
  sone : T;
  sadd : T → T → T;
  ssub : T → T → T;
  smul : T → T → T;
  sneg : T → T;
  (** [x > 0.0] *)
  sgt0 : T → bool;
  sneg_involutive : ∀ x, sneg (sneg x) = x;
  sgt0_sneg : ∀ x, sgt0 x = true → sgt0 (sneg x) = false;
  ssub_sneg : ∀ a b, ssub a (sneg b) = sadd a b;
  smul_neg_one : ∀ x, smul x (sneg sone) = sneg x;
}.

#[global, refine] Instance Z_scalar : Scalar Z := {|
  szero := 0; sone := 1;
  sadd := Z.add; ssub := Z.sub; smul := Z.mul; sneg := Z.opp;
  sgt0 := λ x, 0 <? x;
|}.
Proof.
  - intros x. lia.
  - intros x Hx. apply Z.ltb_lt in Hx. apply Z.ltb_ge. lia.
  - intros a b. lia.
  - intros x. lia.
Defined.

(** ** The fragment of torch used by the model

    A tensor is its shape together with its elements in row-major order
    (tensors are contiguous values here; strides and devices are not
    modelled).  It is well formed when it has as many elements as its
    shape announces. *)

Module torch.

Record Tensor (A : Type) : Type := mk { shape : list nat; data : list A }.
Arguments mk {A} shape data.
Arguments shape {A} t.
Arguments data {A} t.

Definition numel (s : list nat) : nat := foldr Nat.mul 1%nat s.

Definition wf {A} (t : Tensor A) : Prop := length (data t) = numel (shape t).

(** The first [n] consecutive blocks of [k] elements of [d]. *)
Fixpoint chunks {A} (k n : nat) (d : list A) : list (list A) :=
  match n with
  | O => []
  | S n' => take k d :: chunks k n' (drop k d)
  end.

(** Position addressed by the integer [i] in a dimension of size [len]:
    a negative index counts from the end, anything else out of range
    raises. *)
Definition position (len : nat) (i : Z) : result nat :=
  let j := if i <? 0 then i + Z.of_nat len else i in
  if (0 <=? j) && (j <? Z.of_nat len) then Ok (Z.to_nat j)
  else Raise IndexError.

(** [l[i]] *)
Definition index {A} (l : list A) (i : Z) : result A :=
  j ← position (length l) i;
  from_option Ok (Raise IndexError) (l !! j).

(** [l[idx]] for an array of indices: a fresh array (advanced indexing
    copies). *)
Definition index_select {A} (l : list A) (idx : list Z) : result (list A) :=
  mapM (index l) idx.

(** The writes [l[idx[0]] = vals[0]], [l[idx[1]] = vals[1]], ... in turn. *)
Fixpoint write_all {A} (l : list A) (idx : list Z) (vals : list A)
    : result (list A) :=
  match idx, vals with
  | i :: idx', v :: vals' =>
      j ← position (length l) i;
      write_all (<[j := v]> l) idx' vals'
  | _, _ => Ok l
  end.

(** [l[idx] = vals]: the values are broadcast to the shape of the
    indices (same length, or a single value repeated), otherwise the
    shapes mismatch. *)
Definition index_put {A} (l : list A) (idx : list Z) (vals : list A)
    : result (list A) :=
  if (length vals =? length idx)%nat then write_all l idx vals
  else match vals with
       | [v] => write_all l idx (replicate (length idx) v)
       | _ => Raise RuntimeError
       end.

(** [t.view(s)]: same elements under a new shape with as many
    elements. *)
Definition view {A} (t : Tensor A) (s : list nat) : result (Tensor A) :=
  if (numel (shape t) =? numel s)%nat then Ok (mk s (data t))
  else Raise RuntimeError.

(** [t.view(-1, k)]: the rows of [k] elements; the number of elements
    must be a multiple of [k], and a zero [k] leaves the number of rows
    undetermined or the shape invalid. *)
Definition view_infer {A} (t : Tensor A) (k : nat) : result (Tensor A) :=
  if (k =? 0)%nat then Raise RuntimeError
  else if (numel (shape t) `mod` k =? 0)%nat
       then Ok (mk [(numel (shape t) `div` k)%nat; k] (data t))
       else Raise RuntimeError.

(** Elements of a tensor of shape [src] expanded to the shape [tgt] of the
    same rank: a dimension of size one is repeated, any other must
    agree. *)
Fixpoint expand_data {A} (src tgt : list nat) (d : list A)
    : result (list A) :=
  match src, tgt with
  | [], [] => Ok d
  | s :: src', n :: tgt' =>
      if (s =? n)%nat then
        (λ l, concat l) <$> mapM (expand_data src' tgt') (chunks (numel src') s d)
      else if (s =? 1)%nat then
        (λ d', concat (replicate n d')) <$> expand_data src' tgt' d
      else Raise RuntimeError
  | _, _ => Raise RuntimeError
  end.

(** [t.expand(s)]: missing leading dimensions are added in front. *)
Definition expand {A} (t : Tensor A) (s : list nat) : result (Tensor A) :=
  if (length s <? length (shape t))%nat then Raise RuntimeError
  else
    let src := replicate (length s - length (shape t)) 1%nat ++ shape t in
    mk s <$> expand_data src s (data t).

(** [torch.cat((a, b), dim=-1)] *)
Definition cat_last {A} (a b : Tensor A) : result (Tensor A) :=
  match reverse (shape a), reverse (shape b) with
  | ca :: la, cb :: lb =>
      if bool_decide (la = lb) then
        let n := numel la in
        Ok (mk (reverse ((ca + cb)%nat :: la))
               (concat (zip_with app (chunks ca n (data a))
                                     (chunks cb n (data b)))))
      else Raise RuntimeError
  | _, _ => Raise RuntimeError
  end.

(** Shape to which two shapes broadcast, both given innermost dimension
    first. *)
Fixpoint broadcast_rev (a b : list nat) : result (list nat) :=
  match a, b with
  | [], _ => Ok b
  | _, [] => Ok a
  | x :: a', y :: b' =>
      r ← broadcast_rev a' b';
      if (x =? y)%nat then Ok (x :: r)
      else if (x =? 1)%nat then Ok (y :: r)
      else if (y =? 1)%nat then Ok (x :: r)
      else Raise RuntimeError
  end.

Definition broadcast_shapes (a b : list nat) : result (list nat) :=
  reverse <$> broadcast_rev (reverse a) (reverse b).

Section WithScalar.
Context {T : Type} `{!Scalar T}.

Definition dot (u v : list T) : T :=
  foldl sadd szero (zip_with smul u v).

(** Product of an [n]×[m] matrix by an [m]×[k] matrix. *)
Definition mm (n m k : nat) (a b : list T) : list T :=
  let rows_b := chunks k m b in
  ra ← chunks m n a;
  (λ j, dot ra ((λ rb, nth j rb szero) <$> rows_b)) <$> seq 0 k.

(** [a @ b] for operands of rank at least two: the batch dimensions
    broadcast and the inner dimensions must agree. *)
Definition matmul_batched (a b : Tensor T) : result (Tensor T) :=
  match reverse (shape a), reverse (shape b) with
  | m :: n :: ba, k :: m' :: bb =>
      if negb (m =? m')%nat then Raise RuntimeError
      else
        bs ← reverse <$> broadcast_rev ba bb;
        a' ← expand a (bs ++ [n; m]);
        b' ← expand b (bs ++ [m; k]);
        Ok (mk (bs ++ [n; k])
               (concat (zip_with (mm n m k)
                          (chunks (n * m) (numel bs) (data a'))
                          (chunks (m * k) (numel bs) (data b')))))
  | _, _ => Raise RuntimeError
  end.

(** [a @ b]: a vector operand is promoted to a matrix and the added
    dimension is removed from the result; scalars are rejected. *)
Definition matmul (a b : Tensor T) : result (Tensor T) :=
  match shape a, shape b with
  | [], _ | _, [] => Raise RuntimeError
  | [m], [m'] =>
      r ← matmul_batched (mk [1%nat; m] (data a)) (mk [m'; 1%nat] (data b));
      Ok (mk [] (data r))
  | [m], sb =>
      r ← matmul_batched (mk [1%nat; m] (data a)) b;
      Ok (mk (take (length sb - 2) sb ++ drop (length sb - 1) sb) (data r))
  | sa, [m'] =>
      r ← matmul_batched a (mk [m'; 1%nat] (data b));
      Ok (mk (take (length sa - 1) sa) (data r))
  | _, _ => matmul_batched a b
  end.

(** [a * b] for two tensors of the same shape. *)
Definition mul_same (a b : Tensor T) : Tensor T :=
  mk (shape a) (zip_with smul (data a) (data b)).

(** [a + b]: the operands are broadcast to a common shape. *)
Definition add (a b : Tensor T) : result (Tensor T) :=
  s ← broadcast_shapes (shape a) (shape b);
  a' ← expand a s;
  b' ← expand b s;
  Ok (mk s (zip_with sadd (data a') (data b'))).

End WithScalar.

End torch.

(** ** FTSliceDecoder *)

Module FTSliceDecoder.

Section WithScalar.
Context {T : Type} `{!Scalar T}.

(** The learned network [ResidLinearDecoder(in_dim, 2, ...)]: a pure
    function from a row of [in_dim] inputs to the two output channels,
    real and imaginary.  Its first linear layer rejects rows of any
    other width. *)
Record ResidLinearDecoder : Type := {
  in_dim : nat;
  main : list T → T * T;
}.

Record t : Type := {
  decoder : ResidLinearDecoder;
  center : Z;
  extra : list Z;
  all_eval : list Z;
  top : list Z;
  bottom_rev : list Z;
  D : Z;
  D2 : Z;
}.

(** [FTSliceDecoder.__init__(in_dim, D, nlayers, hidden_dim, activation)].
    The layer sizes and the activation only select the learned function,
    passed here as [net]. *)
Definition __init__ (in_dim : nat) (D : Z) (net : list T → T * T) : result t :=
  let decoder := {| in_dim := in_dim; main := net |} in
  (* int(D/2) truncates towards zero *)
  let D2 := D `quot` 2 in
  let center := D2 * D + D2 in
  extra ← np.arange3 ((D2 + 1) * D) (D ^ 2) D;
  let all_eval := np.concatenate (np.arange1 (center + 1)) extra in
  let '(i, j) := np.meshgrid (np.arange2 1 D) (np.arange2 1 (D2 + 1)) in
  let top := np.slice_to (np.ravel (np.add (np.mul_scalar j D) i)) (- D2) in
  let '(i, j) := np.meshgrid (np.arange2 1 D) (np.arange2 D2 D) in
  let bottom_rev :=
    np.flip (np.slice_from (np.ravel (np.add (np.mul_scalar j D) i)) D2) in
  Ok {| decoder := decoder; center := center; extra := extra;
        all_eval := all_eval; top := top; bottom_rev := bottom_rev;
        D := D; D2 := D2 |}.

(** [r[0:3] = -r[0:3]] on one row. *)
Definition negate3 (r : list T) : list T :=
  (sneg <$> take 3 r) ++ drop 3 r.

(** [decode] on the rows of a tensor whose last dimension has size [C].
    The first component is the content of the argument array after the
    call: the negation is written into that array itself, before the
    network runs. *)
Definition decode_rows (self : t) (C : nat) (rows : list (list T))
    : list (list T) * result (list (T * T)) :=
  if (C <=? 2)%nat then (rows, Raise IndexError)
  else
    (* w = lattice[...,2] > 0.0 *)
    let w := (λ r, sgt0 (nth 2 r szero)) <$> rows in
    (* lattice[...,0:3][w] = -lattice[...,0:3][w] *)
    let rows' :=
      zip_with (λ (b : bool) r, if b then negate3 r else r) w rows in
    (* result = self.decoder(lattice) *)
    if negb (in_dim (decoder self) =? C)%nat then (rows', Raise RuntimeError)
    else
      let result := main (decoder self) <$> rows' in
      (* result[...,1][w] *= -1 *)
      let result :=
        zip_with (λ (b : bool) (y : T * T),
                    if b then (y.1, smul y.2 (sneg sone)) else y)
                 w result in
      (rows', Ok result).

(** [FTSliceDecoder.decode(lattice)].  The result, of shape (..., 2), is
    held as a tensor of (real, imaginary) pairs of shape (...).  The
    first component is the argument array as the call leaves it. *)
Definition decode (self : t) (lattice : torch.Tensor T)
    : torch.Tensor T * result (torch.Tensor (T * T)) :=
  match reverse (torch.shape lattice) with
  | [] => (lattice, Raise IndexError)
  | C :: bs =>
      let '(rows', r) :=
        decode_rows self C
          (torch.chunks C (torch.numel bs) (torch.data lattice)) in
      (torch.mk (torch.shape lattice) (concat rows'),
       torch.mk (reverse bs) <$> r)
  end.

(** [FTSliceDecoder.forward] on one [N]×[C] slice of the lattice.  A
    pixel of the image is [None] until it is written ([torch.empty]
    leaves the buffer uninitialised).  [lattice[..., all_eval, :]] is a
    fresh array, so the array that [decode] negates is not the
    caller's. *)
Definition forward_slice (self : t) (N C : nat) (slice : list T)
    : result (list (option T)) :=
  let image := replicate N None in
  sel ← torch.index_select (torch.chunks C N slice) (all_eval self);
  top_half ← (decode_rows self C sel).2;
  image ← torch.index_put image (all_eval self)
            ((λ y : T * T, Some (ssub y.1 y.2)) <$> top_half);
  re ← torch.index_select (fst <$> top_half) (top self);
  im ← torch.index_select (snd <$> top_half) (top self);
  torch.index_put image (bottom_rev self) (Some <$> zip_with sadd re im).

(** [FTSliceDecoder.forward(lattice)] for a lattice of shape
    (..., N, C): every operation acts on each leading index on its
    own.  On an empty batch no element is read or written through an
    index, and what is left of the call is what depends on the sizes
    of the dimensions only: an array of indices into a dimension of
    size 0 is refused unless it is empty, [decode] reads the third
    component, the network accepts one width, and the values of the
    second assignment are broadcast to the indices. *)
Definition forward (self : t) (lattice : torch.Tensor T)
    : result (torch.Tensor (option T)) :=
  match reverse (torch.shape lattice) with
  | C :: N :: bs =>
      if (torch.numel bs =? 0)%nat then
        (* lattice[...,self.all_eval,:] *)
        if (N =? 0)%nat && negb (length (all_eval self) =? 0)%nat
        then Raise IndexError
        (* self.decode *)
        else if (C <=? 2)%nat then Raise IndexError
        else if negb (in_dim (decoder self) =? C)%nat then Raise RuntimeError
        (* top_half[...,self.top,0] *)
        else if (length (all_eval self) =? 0)%nat
                && negb (length (top self) =? 0)%nat
        then Raise IndexError
        (* image[...,self.bottom_rev] = ... *)
        else if (N =? 0)%nat && negb (length (bottom_rev self) =? 0)%nat
        then Raise IndexError
        else if (length (top self) =? length (bottom_rev self))%nat
                || (length (top self) =? 1)%nat
        then Ok (torch.mk (reverse (N :: bs)) [])
        else Raise RuntimeError
      else
        images ← mapM (forward_slice self N C)
                   (torch.chunks (N * C) (torch.numel bs) (torch.data lattice));
        Ok (torch.mk (reverse (N :: bs)) (concat images))
  | _ => Raise IndexError
  end.

(** [FTSliceDecoder.forward_symmetric(lattice, c)] for a lattice of
    shape (..., N, C).  The basic slice [lattice[...,0:c+1,:]] is a
    view of the lattice, so the rows that [decode] negates are the
    caller's: the first component is the argument array as the call
    leaves it.  The shapes of the assignment are checked once, on the
    sizes of the dimensions, whatever the number of slices. *)
Definition forward_symmetric (self : t) (lattice : torch.Tensor T) (c : Z)
    : torch.Tensor T * result (torch.Tensor (option T)) :=
  match reverse (torch.shape lattice) with
  | C :: N :: bs =>
      let B := torch.numel bs in
      let slices :=
        torch.chunks C N <$> torch.chunks (N * C) B (torch.data lattice) in
      (* image = torch.empty(lattice.shape[:-1]) *)
      let image := replicate B (replicate N None) in
      (* top_half = self.decode(lattice[...,0:c+1,:]) *)
      let M := np.slice_index N (c + 1) in
      let '(rows', r) := decode_rows self C (concat (take M <$> slices)) in
      let slices' :=
        zip_with (λ v s, v ++ drop M s) (torch.chunks M B rows') slices in
      (torch.mk (torch.shape lattice) (concat (concat slices')),
       top_half ← torch.chunks M B <$> r;
       (* image[..., 0:c+1] = top_half[...,0] - top_half[...,1] *)
       let image :=
         zip_with (λ th im, ((λ y : T * T, Some (ssub y.1 y.2)) <$> th)
                            ++ drop M im)
                  top_half image in
       (* (top_half[...,0] + top_half[...,1])[...,np.arange(c-1,-1,-1)] *)
       idx ← np.arange3 (c - 1) (-1) (-1);
       (* an index is checked against the size of the sliced dimension
          when an element is read through it: never on an empty batch,
          where only indices into a dimension of size 0 are refused *)
       pos ← (if (B =? 0)%nat then
                if (M =? 0)%nat && negb (length idx =? 0)%nat
                then Raise IndexError else Ok (Z.to_nat <$> idx)
              else mapM (torch.position M) idx);
       let vals :=
         (λ th, (λ j, let y := nth j th (szero, szero) in Some (sadd y.1 y.2))
                  <$> pos) <$> top_half in
       (* image[...,c+1:] = vals, broadcast to the N - M pixels left *)
       if (length pos =? N - M)%nat then
         Ok (torch.mk (reverse (N :: bs))
               (concat (zip_with (λ im v, take M im ++ v) image vals)))
       else if (length pos =? 1)%nat then
         Ok (torch.mk (reverse (N :: bs))
               (concat (zip_with (λ im v, take M im ++ (v ≫= replicate (N - M)))
                                 image vals)))
       else Raise RuntimeError)
  | _ => (lattice, Raise IndexError)
  end.

(** Evaluation of the network at every coordinate of an [N]×[C] slice,
    without the symmetry: [real - imag] row by row. *)
Definition naive_slice (self : t) (N C : nat) (slice : list T) : list T :=
  (λ r, let y := main (decoder self) r in ssub y.1 y.2)
    <$> torch.chunks C N slice.

End WithScalar.

Arguments ResidLinearDecoder T : clear implicits.
Arguments t T : clear implicits.

End FTSliceDecoder.

(** ** SO3reparameterize *)

(** The random source behind [torch.randn_like]: a generator state and the
    draw of [n] standard-normal values, which advances it. *)
Class RandomSource (T : Type) : Type := {
  gen : Type;
  randn : nat → gen → list T * gen;
  length_randn : ∀ n g, length (randn n g).1 = n;
}.

Module SO3reparameterize.

Section WithScalar.
Context {T : Type} `{!Scalar T} `{!RandomSource T}.

(** [lie_tools.expmap] is not part of the sources: it is a parameter,
    a function from a tensor of tangent vectors to a tensor of
    rotations that may raise. *)
Variable expmap : torch.Tensor T → result (torch.Tensor T).

(** The module: its mode flag and its two linear layers. *)
Record t : Type := {
  training : bool;
  s2s2map : list T → list T;
  so3var : list T → list T;
}.

(** [torch.randn_like(x)] *)
Definition randn_like (x : torch.Tensor T) (g : gen)
    : torch.Tensor T * gen :=
  let r := randn (torch.numel (torch.shape x)) g in
  (torch.mk (torch.shape x) r.1, r.2).

(** [SO3reparameterize.sampleSO3(z_mu, z_std)], threading the state of
    the random generator. *)
Definition sampleSO3 (self : t) (z_mu z_std : torch.Tensor T) (g : gen)
    : result (torch.Tensor T * torch.Tensor T) * gen :=
  if negb (training self) then (Ok (z_mu, z_std), g)
  else
    let '(eps, g') := randn_like z_std g in
    let w_eps := torch.mul_same eps z_std in
    (rot_eps ← expmap w_eps;
     rot_sampled ← torch.matmul z_mu rot_eps;
     Ok (rot_sampled, w_eps),
     g').

End WithScalar.

Arguments t T : clear implicits.

End SO3reparameterize.

(** ** The networks

    The layers are [nn.Linear], the residual layer [ResidLinear] and an
    elementwise activation; a network is the [nn.Sequential] of a list of
    layers.  A constructor draws the initial weight and bias of each of
    its linear layers at random: here it takes them from a supply
    [params], indexed by the layers in the order of their creation. *)

Module Linear.
Section WithScalar.
Context {T : Type} `{!Scalar T}.

(** A weight of [out_features] rows of [in_features] entries and a
    bias of [out_features] entries. *)
Record t : Type := {
  in_features : nat;
  out_features : nat;
  weight : list (list T);
  bias : list T;
}.

(** [nn.Linear(in_features, out_features)] *)
Definition __init__ (in_features out_features : nat)
    (p : list (list T) * list T) : t :=
  {| in_features := in_features; out_features := out_features;
     weight := p.1; bias := p.2 |}.

(** One row of [x @ weight.T + bias]. *)
Definition row (self : t) (x : list T) : list T :=
  (λ j, sadd (torch.dot x (nth j (weight self) [])) (nth j (bias self) szero))
    <$> seq 0 (out_features self).

(** [Linear.forward(x)]: acts on the last dimension of [x], which must
    have [in_features] elements. *)
Definition forward (self : t) (x : torch.Tensor T) : result (torch.Tensor T) :=
  match reverse (torch.shape x) with
  | [] => Raise RuntimeError
  | w :: bs =>
      if negb (w =? in_features self)%nat then Raise RuntimeError
      else
        Ok (torch.mk (reverse (out_features self :: bs))
              (concat (row self
                         <$> torch.chunks w (torch.numel bs) (torch.data x))))
  end.

End WithScalar.

Arguments t T : clear implicits.

End Linear.

Module ResidLinear.
Section WithScalar.
Context {T : Type} `{!Scalar T}.

Record t : Type := { linear : Linear.t T }.

(** [ResidLinear.__init__(nin, nout)] *)
Definition __init__ (nin nout : nat) (p : list (list T) * list T) : t :=
  {| linear := Linear.__init__ nin nout p |}.

(** [ResidLinear.forward(x)] *)
Definition forward (self : t) (x : torch.Tensor T) : result (torch.Tensor T) :=
  (* z = self.linear(x) + x *)
  y ← Linear.forward (linear self) x;
  torch.add y x.

End WithScalar.

Arguments t T : clear implicits.

End ResidLinear.

Module Sequential.
Section WithScalar.
Context {T : Type} `{!Scalar T}.

(** The modules that the networks of the model are made of; an
    activation such as [nn.ReLU()] is an elementwise function. *)
Inductive layer : Type :=
  | Lin (l : Linear.t T)
  | Resid (l : ResidLinear.t T)
  | Act (f : T → T).

Definition layer_forward (l : layer) (x : torch.Tensor T)
    : result (torch.Tensor T) :=
  match l with
  | Lin l => Linear.forward l x
  | Resid l => ResidLinear.forward l x
  | Act f => Ok (torch.mk (torch.shape x) (f <$> torch.data x))
  end.

(** [nn.Sequential] of the layers, applied to [x] *)
Fixpoint forward (layers : list layer) (x : torch.Tensor T)
    : result (torch.Tensor T) :=
  match layers with
  | [] => Ok x
  | l :: layers' => y ← layer_forward l x; forward layers' y
  end.

End WithScalar.

Arguments layer T : clear implicits.

End Sequential.

Module ResidLinearDecoder.
Section WithScalar.
Context {T : Type} `{!Scalar T}.

Record t : Type := { main : list (Sequential.layer T) }.

(** [ResidLinearDecoder.__init__(in_dim, out_dim, nlayers, hidden_dim,
    activation)]; [range(nlayers)] is empty for a negative
    [nlayers]. *)
Definition __init__ (in_dim out_dim : nat) (nlayers : Z) (hidden_dim : nat)
    (activation : T → T) (params : nat → list (list T) * list T) : t :=
  let layers :=
    [Sequential.Lin (Linear.__init__ in_dim hidden_dim (params 0%nat));
     Sequential.Act activation] in
  let layers :=
    layers ++ (n ← seq 0 (Z.to_nat nlayers);
               [Sequential.Resid
                  (ResidLinear.__init__ hidden_dim hidden_dim (params (S n)));
                Sequential.Act activation]) in
  let layers :=
    layers ++ [Sequential.Lin
                 (Linear.__init__ hidden_dim out_dim
                    (params (S (Z.to_nat nlayers))))] in
  {| main := layers |}.

(** [ResidLinearDecoder.forward(x)] *)
Definition forward (self : t) (x : torch.Tensor T) : result (torch.Tensor T) :=
  Sequential.forward (main self) x.

End WithScalar.

Arguments t T : clear implicits.

End ResidLinearDecoder.

Module ResidLinearEncoder.
Section WithScalar.
Context {T : Type} `{!Scalar T}.

Record t : Type := { in_dim : nat; main : list (Sequential.layer T) }.

(** [ResidLinearEncoder.__init__(in_dim, nlayers, hidden_dim, out_dim,
    activation)] *)
Definition __init__ (in_dim : nat) (nlayers : Z) (hidden_dim out_dim : nat)
    (activation : T → T) (params : nat → list (list T) * list T) : t :=
  let layers :=
    [Sequential.Lin (Linear.__init__ in_dim hidden_dim (params 0%nat));
     Sequential.Act activation] in
  let layers :=
    layers ++ (n ← seq 0 (Z.to_nat (nlayers - 1));
               [Sequential.Resid
                  (ResidLinear.__init__ hidden_dim hidden_dim (params (S n)));
                Sequential.Act activation]) in
  let layers :=
    layers ++ [Sequential.Lin
                 (Linear.__init__ hidden_dim out_dim
                    (params (S (Z.to_nat (nlayers - 1)))))] in
  {| in_dim := in_dim; main := layers |}.

(** [ResidLinearEncoder.forward(img)] *)
Definition forward (self : t) (img : torch.Tensor T) : result (torch.Tensor T) :=
  x ← torch.view_infer img (in_dim self);
  Sequential.forward (main self) x.

End WithScalar.

Arguments t T : clear implicits.

End ResidLinearEncoder.

Module MLPEncoder.
Section WithScalar.
Context {T : Type} `{!Scalar T}.

Record t : Type := { in_dim : nat; main : list (Sequential.layer T) }.

(** [MLPEncoder.__init__(in_dim, nlayers, hidden_dim, out_dim,
    activation)] *)
Definition __init__ (in_dim : nat) (nlayers : Z) (hidden_dim out_dim : nat)
    (activation : T → T) (params : nat → list (list T) * list T) : t :=
  let layers :=
    [Sequential.Lin (Linear.__init__ in_dim hidden_dim (params 0%nat));
     Sequential.Act activation] in
  let layers :=
    layers ++ (n ← seq 0 (Z.to_nat (nlayers - 1));
               [Sequential.Lin
                  (Linear.__init__ hidden_dim hidden_dim (params (S n)));
                Sequential.Act activation]) in
  let layers :=
    layers ++ [Sequential.Lin
                 (Linear.__init__ hidden_dim out_dim
                    (params (S (Z.to_nat (nlayers - 1)))))] in
  {| in_dim := in_dim; main := layers |}.

(** [MLPEncoder.forward(img)] *)
Definition forward (self : t) (img : torch.Tensor T) : result (torch.Tensor T) :=
  x ← torch.view_infer img (in_dim self);
  Sequential.forward (main self) x.

End WithScalar.

Arguments t T : clear implicits.

End MLPEncoder.

Module TiltEncoder.
Section WithScalar.
Context {T : Type} `{!Scalar T}.

Record t : Type := {
  encoder1 : ResidLinearEncoder.t T;
  encoder2 : ResidLinearEncoder.t T;
}.

(** [TiltEncoder.__init__(in_dim, nlayers, hidden_dim, out_dim,
    activation)], with one supply of parameters for each of its two
    encoders. *)
Definition __init__ (in_dim : nat) (nlayers : Z) (hidden_dim out_dim : nat)
    (activation : T → T) (params1 params2 : nat → list (list T) * list T)
    : result t :=
  (* assert nlayers > 2 *)
  if negb (2 <? nlayers) then Raise AssertionError
  else
    Ok {| encoder1 :=
            ResidLinearEncoder.__init__ in_dim (nlayers - 2) hidden_dim
              hidden_dim activation params1;
          encoder2 :=
            ResidLinearEncoder.__init__ (hidden_dim * 2) 2 hidden_dim
              out_dim activation params2 |}.

(** [TiltEncoder.forward(img)] for the pair [img = (x, x_tilt)]. *)
Definition forward (self : t) (img : torch.Tensor T * torch.Tensor T)
    : result (torch.Tensor T) :=
  let '(x, x_tilt) := img in
  x_enc ← ResidLinearEncoder.forward (encoder1 self) x;
  x_tilt_enc ← ResidLinearEncoder.forward (encoder1 self) x_tilt;
  z ← torch.cat_last x_enc x_tilt_enc;
  ResidLinearEncoder.forward (encoder2 self) z.

End WithScalar.

Arguments t T : clear implicits.

End TiltEncoder.

(** ** HetVAE *)

Module HetVAE.

Section WithScalar.
Context {T : Type} `{!Scalar T}.

(** Modelled from the spec: the [Lattice] class is not part of the
    sources.  It carries the image side [D] and [coords], the
    coordinates of the pixels in row-major order, one row of three
    components per pixel. *)
Record Lattice : Type := {
  D : Z;
  coords : torch.Tensor T;
}.

Record t : Type := {
  lattice : Lattice;
  z_dim : nat;
  decoder : FTSliceDecoder.t T;
}.

(** [HetVAE.__init__]: the decoder is built for rows of [3 + z_dim]
    inputs on the lattice's grid.  The encoder, which [forward] does
    not use, is left out. *)
Definition __init__ (lattice : Lattice) (z_dim : nat)
    (net : list T → T * T) : result t :=
  decoder ← FTSliceDecoder.__init__ (3 + z_dim) (D lattice) net;
  Ok {| lattice := lattice; z_dim := z_dim; decoder := decoder |}.

(** [HetVAE.cat_z(coords, z)] *)
Definition cat_z (coords z : torch.Tensor T) : result (torch.Tensor T) :=
  match reverse (torch.shape coords) with
  | [] => Raise IndexError
  | c :: _ =>
      (* assert coords.shape[-1] == 3 *)
      if negb (c =? 3)%nat then Raise AssertionError
      else
        match torch.shape z with
        | [] => Raise IndexError
        | b :: _ =>
            let ndim := length (torch.shape coords) in
            z ← torch.view z (b :: replicate (ndim - 1) 1%nat);
            z ← torch.expand z (take (ndim - 1) (torch.shape coords) ++ [1%nat]);
            torch.cat_last coords z
        end
  end.

(** [HetVAE.encode(img)]; the encoder, which the record leaves out, is
    passed with the model.  The slices [z[:, :z_dim]] and
    [z[:, z_dim:]] cut the second dimension. *)
Definition encode (self : t)
    (encoder : torch.Tensor T → result (torch.Tensor T))
    (img : torch.Tensor T) : result (torch.Tensor T * torch.Tensor T) :=
  z ← encoder img;
  match torch.shape z with
  | b :: w :: rest =>
      let k := np.slice_index w (Z.of_nat (z_dim self)) in
      let inner := torch.numel rest in
      let rows := torch.chunks (w * inner) b (torch.data z) in
      Ok (torch.mk (b :: k :: rest) (concat (take (k * inner) <$> rows)),
          torch.mk (b :: (w - k)%nat :: rest)
            (concat (drop (k * inner) <$> rows)))
  | _ => Raise IndexError
  end.

(** [HetVAE.forward(rot, z)] *)
Definition forward (self : t) (rot z : torch.Tensor T)
    : result (torch.Tensor (option T)) :=
  x ← torch.matmul (coords (lattice self)) rot;
  y ← cat_z x z;
  FTSliceDecoder.forward (decoder self) y.

(** A 3×3 matrix, given by its nine entries in row-major order, is
    orthonormal when its transpose times itself is the identity. *)
Definition transpose3 (r : list T) : list T :=
  (λ k, nth (3 * (k `mod` 3) + k `div` 3)%nat r szero) <$> seq 0 9.

Definition identity3 : list T :=
  [sone; szero; szero; szero; sone; szero; szero; szero; sone].

Definition orthonormal (r : list T) : Prop :=
  torch.mm 3 3 3 (transpose3 r) r = identity3.

End WithScalar.

Arguments Lattice T : clear implicits.
Arguments t T : clear implicits.

End HetVAE.

(** ** Closed forms used in the proofs *)

(** Row-major list of the flat indices [r * D + c] of the pixels of rows
    [ys] and columns [xs]. *)
Definition grid (D : Z) (xs ys : list Z) : list Z :=
  concat ((λ r, (λ c, r * D + c) <$> xs) <$> ys).

(** The index sets of a grid of side [D] with half side [D2], written
    without slicing: [extra] is the first column below row [D2], [top] is
    rows 1 to [D2 - 1] without their first column followed by the start of
    row [D2], and [bottom_rev] is the reverse of the end of row [D2]
    followed by the rows below it without their first column. *)
Definition extra_closed (D D2 : Z) : list Z :=
  (λ k, (D2 + 1) * D + k * D) <$> seqZ 0 (D - D2 - 1).

Definition all_eval_closed (D D2 : Z) : list Z :=
  seqZ 0 (D2 * D + D2 + 1) ++ extra_closed D D2.

Definition top_closed (D D2 : Z) : list Z :=
  grid D (seqZ 1 (D - 1)) (seqZ 1 (D2 - 1))
  ++ ((λ c, D2 * D + c) <$> seqZ 1 (D - 1 - D2)).

Definition bottom_closed (D D2 : Z) : list Z :=
  ((λ c, D2 * D + c) <$> seqZ (D2 + 1) (D - 1 - D2))
  ++ grid D (seqZ 1 (D - 1)) (seqZ (D2 + 1) (D - D2 - 1)).

(** What [decode] leaves in place of one row of its argument, and what it
    returns for that row. *)
Definition decode_row_state {T} `{!Scalar T} (r : list T) : list T :=
  if sgt0 (nth 2 r szero) then FTSliceDecoder.negate3 r else r.

Definition decode_row {T} `{!Scalar T} (net : list T → T * T) (r : list T)
    : T * T :=
  if sgt0 (nth 2 r szero)
  then let y := net (FTSliceDecoder.negate3 r) in (y.1, smul y.2 (sneg sone))
  else net r.

(** Complex conjugate of a (real, imaginary) pair. *)
Definition conjugate {T} `{!Scalar T} (y : T * T) : T * T := (y.1, sneg y.2).

(** The two combinations of the channels that [forward] writes: the
    Hartley value [real - imag] and its mirror [real + imag]. *)
Definition hartley {T} `{!Scalar T} (y : T * T) : T := ssub y.1 y.2.
Definition mirror {T} `{!Scalar T} (y : T * T) : T := sadd y.1 y.2.

(** Shapes [src] that expand to [tgt]: each dimension agrees or has size
    one. *)
Definition expandable (src tgt : list nat) : Prop :=
  Forall2 (λ s n : nat, s = n ∨ s = 1%nat) src tgt.

(** What a layer computes on one row of its input, and a network on one
    row: the layers in turn. *)
Definition layer_row {T} `{!Scalar T} (l : Sequential.layer T) (r : list T)
    : list T :=
  match l with
  | Sequential.Lin l => Linear.row l r
  | Sequential.Resid l => zip_with sadd (Linear.row (ResidLinear.linear l) r) r
  | Sequential.Act f => f <$> r
  end.

Definition network_row {T} `{!Scalar T} (layers : list (Sequential.layer T))
    (r : list T) : list T :=
  foldl (λ r l, layer_row l r) r layers.

(** Width of the rows that a layer returns for rows of width [w], when it
    takes them as they are (a residual layer between equal widths), and
    the same for the layers of a network in turn. *)
Definition layer_width {T} (l : Sequential.layer T) (w : nat) : option nat :=
  match l with
  | Sequential.Lin l =>
      if (w =? Linear.in_features l)%nat then Some (Linear.out_features l)
      else None
  | Sequential.Resid l =>
      if (w =? Linear.in_features (ResidLinear.linear l))%nat
         && (w =? Linear.out_features (ResidLinear.linear l))%nat
      then Some w else None
  | Sequential.Act _ => Some w
  end.

Fixpoint network_width {T} (layers : list (Sequential.layer T)) (w : nat)
    : option nat :=
  match layers with
  | [] => Some w
  | l :: layers' => w' ← layer_width l w; network_width layers' w'
  end.

(** ** Concrete inputs

    The closed-form network of the reconstruction test (real channel: sum
    of the inputs; imaginary channel: zero), a network with Hermitian
    symmetry over the integers (real channel: sum of the squares of the
    inputs; imaginary channel: sum of the three coordinates), and the 4×4
    lattice of the model, scaled by two so that its coordinates are the
    integers -2, ..., 1. *)

Definition sum_decoder {T} `{!Scalar T} (r : list T) : T * T :=
  (foldl sadd szero r, szero).

Definition hermitian_decoder (r : list Z) : Z * Z :=
  (foldr (λ x a, x * x + a) 0 r, foldr Z.add 0 (take 3 r)).

Definition lattice4 : list Z :=
  r ← seqZ 0 4; c ← seqZ 0 4; [c - 2; r - 2; 0].

(** The decoder that the constructor builds for a 4×4 image and rows of
    [in_dim] inputs. *)
Definition decoder4 {T} (in_dim : nat) (net : list T → T * T)
    : FTSliceDecoder.t T :=
  {| FTSliceDecoder.decoder :=
       {| FTSliceDecoder.in_dim := in_dim; FTSliceDecoder.main := net |};
     FTSliceDecoder.center := 10;
     FTSliceDecoder.extra := [12];
     FTSliceDecoder.all_eval := [0; 1; 2; 3; 4; 5; 6; 7; 8; 9; 10; 12];
     FTSliceDecoder.top := [5; 6; 7; 9];
     FTSliceDecoder.bottom_rev := [15; 14; 13; 11];
     FTSliceDecoder.D := 4;
     FTSliceDecoder.D2 := 2 |}.

(** A source of draws over the integers: the generator state is a position
    on the fixed tape -1, 0, 1, 2, ... *)
#[global, refine] Instance tape_source : RandomSource Z := {|
  gen := nat;
  randn := λ n g, ((λ k, Z.of_nat k - 1) <$> seq g n, (g + n)%nat);
|}.
Proof. intros n g. simpl. by rewrite length_fmap, length_seq. Defined.

(** A stand-in for [lie_tools.expmap] over the integers: the first-order
    term [I + K(w)] of Rodrigues' formula, with [K(w)] the skew-symmetric
    generator of the tangent vector [w]. *)
Definition expmap_first_order (w : torch.Tensor Z) : result (torch.Tensor Z) :=
  match reverse (torch.shape w) with
  | 3%nat :: bs =>
      Ok (torch.mk (reverse bs ++ [3%nat; 3%nat])
            (v ← torch.chunks 3 (torch.numel bs) (torch.data w);
             let x := nth 0 v 0 in
             let y := nth 1 v 0 in
             let z := nth 2 v 0 in
             [1; - z; y; z; 1; - x; - y; x; 1]))
  | _ => Raise AssertionError
  end.

(** [torch.zeros_like(x)] *)
Definition zeros_like {T} `{!Scalar T} (x : torch.Tensor T) : torch.Tensor T :=
  torch.mk (torch.shape x) (replicate (torch.numel (torch.shape x)) szero).

(** A reparameterisation module in each of its two modes. *)
Definition so3_module (training : bool) : SO3reparameterize.t Z :=
  {| SO3reparameterize.training := training;
     SO3reparameterize.s2s2map := λ x, x;
     SO3reparameterize.so3var := λ x, x |}.

(** The 2×2 lattice of the model, scaled by two, and the model built on it
    for a one-dimensional latent code. *)
Definition lattice2 : HetVAE.Lattice Z :=
  {| HetVAE.D := 2;
     HetVAE.coords :=
       torch.mk [4%nat; 3%nat] (r ← seqZ 0 2; c ← seqZ 0 2; [c - 1; r - 1; 0]) |}.

Definition hetvae2 (net : list Z → Z * Z) : HetVAE.t Z :=
  {| HetVAE.lattice := lattice2;
     HetVAE.z_dim := 1;
     HetVAE.decoder :=
       {| FTSliceDecoder.decoder :=
            {| FTSliceDecoder.in_dim := 4; FTSliceDecoder.main := net |};
          FTSliceDecoder.center := 3;
          FTSliceDecoder.extra := [];
          FTSliceDecoder.all_eval := [0; 1; 2; 3];
          FTSliceDecoder.top := [];
          FTSliceDecoder.bottom_rev := [];
          FTSliceDecoder.D := 2;
          FTSliceDecoder.D2 := 1 |} |}.

(** A supply of parameters over the integers (every weight is one and
    every bias is zero) and the activation [nn.ReLU] over the integers. *)
Definition params_ones (k : nat) : list (list Z) * list Z :=
  (replicate 8 (replicate 8 1), replicate 8 0).

Definition relu (x : Z) : Z := Z.max 0 x.

(** * Proofs *)

Import torch.

(** *** Lists *)

Lemma elem_of_concat_fmap {A B} (f : A → list B) (l : list A) (x : B) :
  x ∈ concat (f <$> l) ↔ ∃ y, y ∈ l ∧ x ∈ f y.
Proof.
  induction l as [|a l IH]; csimpl.
  - split; [intros H; inversion H | intros (y & H & _); inversion H].
  - rewrite elem_of_app, IH. split.
    + intros [H | (y & Hy & H)]; [exists a | exists y]; split; auto; constructor; auto.
    + intros (y & Hy & H). apply elem_of_cons in Hy as [-> | Hy]; eauto.
Qed.

Lemma length_concat_fmap_uniform {A B} (f : A → list B) (l : list A) (n : nat) :
  (∀ y, length (f y) = n) → length (concat (f <$> l)) = (length l * n)%nat.
Proof.
  intros Hf. induction l as [|a l IH]; csimpl; [done |].
  rewrite length_app, IH, Hf. done.
Qed.

Lemma seqZ_last m n : 0 < n → seqZ m n = seqZ m (n - 1) ++ [m + n - 1].
Proof.
  intros Hn. replace n with ((n - 1) + 1) at 1 by lia.
  rewrite seqZ_app by lia. f_equal.
  rewrite seqZ_cons by lia. rewrite seqZ_nil by lia. f_equal. lia.
Qed.

(** *** The numpy fragment *)

Lemma meshgrid_index (D : Z) (xs ys : list Z) :
  np.ravel (np.add (np.mul_scalar ((λ v, (λ _, v) <$> xs) <$> ys) D)
                   ((λ _, xs) <$> ys))
  = grid D xs ys.
Proof.
  unfold np.ravel, np.add, np.mul_scalar, grid. f_equal.
  induction ys as [|r ys IH]; simpl; [done |]. f_equal; [| exact IH].
  clear IH. induction xs as [|c xs IH]; simpl; [done |]. by f_equal.
Qed.

Lemma elem_of_grid D xs ys x :
  x ∈ grid D xs ys ↔ ∃ r c, r ∈ ys ∧ c ∈ xs ∧ x = r * D + c.
Proof.
  unfold grid. rewrite elem_of_concat_fmap. split.
  - intros (r & Hr & Hx). apply list_elem_of_fmap in Hx as (c & -> & Hc). eauto.
  - intros (r & c & Hr & Hc & ->). exists r. split; [done |].
    apply list_elem_of_fmap. eauto.
Qed.

Lemma length_grid D xs ys :
  length (grid D xs ys) = (length ys * length xs)%nat.
Proof.
  unfold grid. apply length_concat_fmap_uniform. intros r. by rewrite length_fmap.
Qed.

Lemma grid_snoc D xs ys r :
  grid D xs (ys ++ [r]) = grid D xs ys ++ ((λ c, r * D + c) <$> xs).
Proof.
  unfold grid. rewrite fmap_app, concat_app. simpl. by rewrite app_nil_r.
Qed.

Lemma grid_cons D xs ys r :
  grid D xs (r :: ys) = ((λ c, r * D + c) <$> xs) ++ grid D xs ys.
Proof. done. Qed.

Lemma arange3_pos start stop step :
  0 < step →
  np.arange3 start stop step
  = Ok ((λ k, start + k * step) <$> seqZ 0 ((stop - start + step - 1) `div` step)).
Proof.
  intros Hs. unfold np.arange3, np.arange_len.
  destruct (Z.eqb_spec step 0) as [-> | _]; [lia |].
  destruct (Z.ltb_spec 0 step) as [_ | ?]; [| lia].
  f_equal. destruct (Z.max_spec 0 ((stop - start + step - 1) `div` step)) as [[_ ->] | [Hle ->]];
    [done |].
  by rewrite !seqZ_nil by lia.
Qed.

(** *** The index sets in closed form *)

Section IndexSets.
Context {T : Type} `{!Scalar T}.
Variables (in_dim : nat) (D : Z) (net : list T → T * T).
Hypothesis D_pos : 0 < D.

Let D2 := D `div` 2.
Let cols := seqZ 1 (D - 1).

Lemma D2_bounds : 0 ≤ D2 ∧ 2 * D2 ≤ D ∧ D < 2 * D2 + 2.
Proof. unfold D2. Z.div_mod_to_equations. lia. Qed.

Lemma extra_eq :
  np.arange3 ((D2 + 1) * D) (D ^ 2) D = Ok (extra_closed D D2).
Proof.
  rewrite arange3_pos by done. unfold extra_closed. do 3 f_equal.
  pose proof D2_bounds.
  replace (D ^ 2 - (D2 + 1) * D + D - 1) with ((D - D2 - 1) * D + (D - 1)) by lia.
  rewrite Z.div_add_l by lia. rewrite Z.div_small by lia. lia.
Qed.

Lemma top_eq :
  np.slice_to (grid D (np.arange2 1 D) (np.arange2 1 (D2 + 1))) (- D2) = (top_closed D D2).
Proof.
  pose proof D2_bounds as HD2. unfold np.slice_to, np.arange2, top_closed.
  replace (D2 + 1 - 1) with D2 by lia. fold cols.
  destruct (decide (D2 = 0)) as [Hz | Hnz].
  - rewrite Hz. simpl. by rewrite seqZ_nil by lia.
  - assert (Hgrid : grid D cols (seqZ 1 D2)
                    = grid D cols (seqZ 1 (D2 - 1)) ++ ((λ c, D2 * D + c) <$> cols)).
    { rewrite (seqZ_last 1 D2) by lia.
      replace (1 + D2 - 1) with D2 by lia. apply grid_snoc. }
    rewrite Hgrid.
    assert (Hlen : np.slice_index
              (length (grid D cols (seqZ 1 (D2 - 1)) ++ ((λ c, D2 * D + c) <$> cols))) (- D2)
            = (length (grid D cols (seqZ 1 (D2 - 1))) + Z.to_nat (D - 1 - D2))%nat).
    { unfold np.slice_index. rewrite length_app, length_grid, length_fmap.
      unfold cols. rewrite !length_seqZ.
      generalize (Z.to_nat (D2 - 1) * Z.to_nat (D - 1))%nat. intros a.
      destruct (Z.ltb_spec (- D2) 0); lia. }
    rewrite Hlen, take_app_add. f_equal.
    rewrite <- fmap_take. f_equal.
    assert (Hcols : cols = seqZ 1 (D - 1 - D2) ++ seqZ (1 + (D - 1 - D2)) D2).
    { rewrite <- seqZ_app by lia. unfold cols. f_equal. lia. }
    rewrite Hcols, take_app_length'; [done |].
    by rewrite length_seqZ.
Qed.

Lemma bottom_eq :
  np.slice_from (grid D (np.arange2 1 D) (np.arange2 D2 D)) D2 = (bottom_closed D D2).
Proof.
  pose proof D2_bounds as HD2. unfold np.slice_from, np.arange2, bottom_closed.
  fold cols. rewrite (seqZ_cons D2) by lia. rewrite grid_cons.
  replace (Z.succ D2) with (D2 + 1) by lia.
  replace (Z.pred (D - D2)) with (D - D2 - 1) by lia.
  assert (Hlen : np.slice_index
            (length (((λ c, D2 * D + c) <$> cols) ++ grid D cols (seqZ (D2 + 1) (D - D2 - 1)))) D2
          = Z.to_nat D2).
  { unfold np.slice_index. rewrite length_app, length_grid, length_fmap.
    unfold cols. rewrite !length_seqZ.
    generalize (Z.to_nat (D - D2 - 1) * Z.to_nat (D - 1))%nat. intros a.
    destruct (Z.ltb_spec D2 0); lia. }
  rewrite Hlen. rewrite drop_app_le by (rewrite length_fmap; unfold cols; rewrite length_seqZ; lia).
  f_equal. rewrite <- fmap_drop. f_equal.
  assert (Hcols : cols = seqZ 1 D2 ++ seqZ (1 + D2) (D - 1 - D2)).
  { rewrite <- seqZ_app by lia. unfold cols. f_equal. lia. }
  rewrite Hcols, drop_app_length'; [f_equal; lia |].
  by rewrite length_seqZ.
Qed.

(** The constructor succeeds on every positive side length and builds
    these index sets. *)
Lemma init_closed :
  FTSliceDecoder.__init__ in_dim D net
  = Ok {| FTSliceDecoder.decoder :=
            {| FTSliceDecoder.in_dim := in_dim; FTSliceDecoder.main := net |};
          FTSliceDecoder.center := D2 * D + D2;
          FTSliceDecoder.extra := (extra_closed D D2);
          FTSliceDecoder.all_eval := all_eval_closed D D2;
          FTSliceDecoder.top := (top_closed D D2);
          FTSliceDecoder.bottom_rev := reverse (bottom_closed D D2);
          FTSliceDecoder.D := D;
          FTSliceDecoder.D2 := D2 |}.
Proof.
  unfold FTSliceDecoder.__init__.
  rewrite Z.quot_div_nonneg by lia. fold D2.
  rewrite extra_eq. cbn [mbind result_bind]. unfold np.meshgrid. cbv beta iota.
  rewrite !meshgrid_index, top_eq, bottom_eq.
  unfold np.concatenate, np.arange1, np.arange2, np.flip.
  by replace (D2 * D + D2 + 1 - 0) with (D2 * D + D2 + 1) by lia.
Qed.

Lemma elem_of_extra x :
  x ∈ (extra_closed D D2) ↔ ∃ r, D2 < r < D ∧ x = r * D.
Proof.
  unfold extra_closed. rewrite list_elem_of_fmap. split.
  - intros (k & -> & Hk). apply elem_of_seqZ in Hk. exists (D2 + 1 + k). lia.
  - intros (r & Hr & ->). exists (r - D2 - 1). rewrite elem_of_seqZ. lia.
Qed.

Lemma elem_of_all_eval x :
  x ∈ (all_eval_closed D D2) ↔ 0 ≤ x ≤ D2 * D + D2 ∨ ∃ r, D2 < r < D ∧ x = r * D.
Proof.
  unfold all_eval_closed. rewrite elem_of_app, elem_of_seqZ, elem_of_extra.
  intuition lia.
Qed.

Lemma elem_of_top x :
  x ∈ (top_closed D D2)
  ↔ ∃ r c, x = r * D + c ∧ 1 ≤ c < D
           ∧ (1 ≤ r < D2 ∨ (r = D2 ∧ c < D - D2)).
Proof.
  unfold top_closed. rewrite elem_of_app, elem_of_grid, list_elem_of_fmap. split.
  - intros [(r & c & Hr & Hc & ->) | (c & -> & Hc)].
    + apply elem_of_seqZ in Hr. apply elem_of_seqZ in Hc. exists r, c. lia.
    + apply elem_of_seqZ in Hc. exists D2, c. pose proof D2_bounds. lia.
  - intros (r & c & -> & Hc & [Hr | [-> Hc']]).
    + left. exists r, c. unfold cols. rewrite !elem_of_seqZ. lia.
    + right. exists c. rewrite elem_of_seqZ. lia.
Qed.

Lemma elem_of_bottom x :
  x ∈ (bottom_closed D D2)
  ↔ ∃ r c, x = r * D + c ∧ 1 ≤ c < D
           ∧ ((r = D2 ∧ D2 < c) ∨ D2 < r < D).
Proof.
  unfold bottom_closed. rewrite elem_of_app, elem_of_grid, list_elem_of_fmap. split.
  - intros [(c & -> & Hc) | (r & c & Hr & Hc & ->)].
    + apply elem_of_seqZ in Hc. exists D2, c. pose proof D2_bounds. lia.
    + apply elem_of_seqZ in Hr. apply elem_of_seqZ in Hc. exists r, c. lia.
  - intros (r & c & -> & Hc & [[-> Hc'] | Hr]).
    + left. exists c. rewrite elem_of_seqZ. lia.
    + right. exists r, c. unfold cols. rewrite !elem_of_seqZ. lia.
Qed.

(** A flat index determines its row and its column. *)
Lemma row_col_unique r c r' c' :
  r * D + c = r' * D + c' → 0 ≤ c < D → 0 ≤ c' < D → r = r' ∧ c = c'.
Proof.
  intros Heq Hc Hc'.
  assert (r = r'); [| lia].
  destruct (Z.lt_trichotomy r r') as [Hlt | [-> | Hlt]]; [| done |]; nia.
Qed.

Lemma center_lt : D2 * D + D2 < D * D.
Proof. pose proof D2_bounds. nia. Qed.

Lemma all_eval_bottom_disjoint x :
  x ∈ (all_eval_closed D D2) → x ∈ (bottom_closed D D2) → False.
Proof.
  rewrite elem_of_all_eval, elem_of_bottom.
  intros Ha (r & c & -> & Hc & Hr). pose proof D2_bounds.
  destruct Ha as [Hle | (r' & Hr' & Heq)].
  - destruct Hr as [[-> Hc'] | Hr]; nia.
  - destruct (row_col_unique r c r' 0) as [_ ?]; lia.
Qed.

Lemma all_eval_bottom_cover x :
  x ∈ (all_eval_closed D D2) ∨ x ∈ (bottom_closed D D2) ↔ 0 ≤ x < D * D.
Proof.
  rewrite elem_of_all_eval, elem_of_bottom. pose proof D2_bounds. pose proof center_lt.
  split.
  - intros [[Hle | (r & Hr & ->)] | (r & c & -> & Hc & Hr)]; nia.
  - intros Hx. destruct (Z.le_gt_cases x (D2 * D + D2)) as [Hle | Hgt]; [left; left; lia |].
    pose proof (Z.div_mod x D ltac:(lia)) as Hdm.
    pose proof (Z.mod_pos_bound x D ltac:(lia)) as Hm.
    set (r := x `div` D) in *. set (c := x `mod` D) in *.
    assert (D2 ≤ r < D) by nia.
    destruct (decide (c = 0)) as [Hc0 | Hc0].
    + left. right. exists r. split; [nia | lia].
    + right. exists r, c. split; [lia |]. split; [lia |].
      destruct (decide (r = D2)) as [-> | ?]; [left; nia | right; lia].
Qed.

Lemma length_top :
  length (top_closed D D2)
  = (Z.to_nat (D2 - 1) * Z.to_nat (D - 1) + Z.to_nat (D - 1 - D2))%nat.
Proof.
  unfold top_closed, cols.
  by rewrite length_app, length_grid, length_fmap, !length_seqZ.
Qed.

Lemma length_bottom :
  length (bottom_closed D D2)
  = (Z.to_nat (D - 1 - D2) + Z.to_nat (D - D2 - 1) * Z.to_nat (D - 1))%nat.
Proof.
  unfold bottom_closed, cols.
  by rewrite length_app, length_grid, length_fmap, !length_seqZ.
Qed.

Lemma length_all_eval :
  length (all_eval_closed D D2) = Z.to_nat (D2 * D + D).
Proof.
  unfold all_eval_closed, extra_closed. pose proof D2_bounds.
  rewrite length_app, length_fmap, !length_seqZ.
  assert (0 ≤ D2 * D) by nia. lia.
Qed.

(** On an even grid the two mirrored halves have the same size. *)
Lemma length_top_bottom_even :
  Z.even D = true → length (top_closed D D2) = length (bottom_closed D D2).
Proof.
  intros Hev. rewrite length_top, length_bottom.
  apply Z.even_spec in Hev as [k Hk].
  assert (D2 = k) as Hk2 by (unfold D2; Z.div_mod_to_equations; lia).
  replace (D - D2 - 1) with (D2 - 1) by lia. lia.
Qed.

(** On an odd grid the lower half is larger by a row of [D - 1] pixels. *)
Lemma length_top_bottom_odd :
  Z.odd D = true → length (bottom_closed D D2) = (length (top_closed D D2) + Z.to_nat (D - 1))%nat.
Proof.
  intros Hodd. rewrite length_top, length_bottom.
  apply Z.odd_spec in Hodd as [k Hk].
  assert (D2 = k) as Hk2 by (unfold D2; Z.div_mod_to_equations; lia).
  destruct (decide (k = 0)) as [-> | Hk0].
  - replace D with 1 by lia. rewrite Hk2. simpl. lia.
  - replace (D - D2 - 1) with ((D2 - 1) + 1) by lia.
    rewrite Z2Nat.inj_add by lia. lia.
Qed.

Lemma NoDup_grid xs ys :
  NoDup xs → NoDup ys → (∀ c, c ∈ xs → 0 ≤ c < D) → NoDup (grid D xs ys).
Proof.
  intros Hxs Hys Hb. induction Hys as [|r ys Hr Hys IH].
  - constructor.
  - rewrite grid_cons. apply list.NoDup_app. split; [| split; [| exact IH]].
    + apply NoDup_fmap_2; [| done]. intros c c' ?. lia.
    + intros x Hx Hx'. apply list_elem_of_fmap in Hx as (c & -> & Hc).
      apply elem_of_grid in Hx' as (r' & c' & Hr' & Hc' & Heq).
      destruct (row_col_unique r c r' c') as [-> _]; auto.
Qed.

Lemma cols_bounds c : c ∈ cols → 0 ≤ c < D.
Proof. unfold cols. rewrite elem_of_seqZ. lia. Qed.

Lemma NoDup_top : NoDup (top_closed D D2).
Proof.
  unfold top_closed. apply list.NoDup_app. split; [| split].
  - apply NoDup_grid; [apply NoDup_seqZ .. | apply cols_bounds].
  - intros x Hx Hx'. apply elem_of_grid in Hx as (r & c & Hr & Hc & ->).
    apply list_elem_of_fmap in Hx' as (c' & Heq & Hc').
    apply elem_of_seqZ in Hr, Hc'. apply cols_bounds in Hc. pose proof D2_bounds.
    destruct (row_col_unique r c D2 c') as [-> _]; lia.
  - apply NoDup_fmap_2; [| apply NoDup_seqZ]. intros c c' ?. lia.
Qed.

Lemma NoDup_bottom : NoDup (bottom_closed D D2).
Proof.
  unfold bottom_closed. apply list.NoDup_app. split; [| split].
  - apply NoDup_fmap_2; [| apply NoDup_seqZ]. intros c c' ?. lia.
  - intros x Hx' Hx. apply elem_of_grid in Hx as (r & c & Hr & Hc & ->).
    apply list_elem_of_fmap in Hx' as (c' & Heq & Hc').
    apply elem_of_seqZ in Hr, Hc'. apply cols_bounds in Hc. pose proof D2_bounds.
    destruct (row_col_unique r c D2 c') as [-> _]; lia.
  - apply NoDup_grid; [apply NoDup_seqZ .. | apply cols_bounds].
Qed.

Lemma NoDup_all_eval : NoDup (all_eval_closed D D2).
Proof.
  unfold all_eval_closed. apply list.NoDup_app. split; [| split].
  - apply NoDup_seqZ.
  - intros x Hx Hx'. apply elem_of_seqZ in Hx.
    apply elem_of_extra in Hx' as (r & Hr & ->). pose proof D2_bounds. nia.
  - unfold extra_closed. apply NoDup_fmap_2; [| apply NoDup_seqZ].
    intros k k' ?. nia.
Qed.

(** Every index of [top] precedes the centre on an even grid (and never
    exceeds it), so it addresses the same pixel in [all_eval] as in the
    full grid. *)
Lemma top_le_center x : x ∈ (top_closed D D2) → 0 ≤ x ≤ D2 * D + D2.
Proof.
  rewrite elem_of_top. intros (r & c & -> & Hc & Hr). pose proof D2_bounds. nia.
Qed.

Lemma all_eval_lookup_prefix x :
  0 ≤ x ≤ D2 * D + D2 → (all_eval_closed D D2) !! Z.to_nat x = Some x.
Proof.
  intros Hx. unfold all_eval_closed.
  rewrite lookup_app_l by (rewrite length_seqZ; lia).
  rewrite lookup_seqZ_lt by lia. f_equal. lia.
Qed.
End IndexSets.

(** *** The result monad *)

Lemma mapM_result_cons {A B} (f : A → result B) (a : A) (l : list A) :
  mapM f (a :: l) = y ← f a; k ← mapM f l; Ok (y :: k).
Proof. done. Qed.

Lemma mapM_Ok_fmap {A B} (f : A → result B) (g : A → B) (l : list A) :
  (∀ x, x ∈ l → f x = Ok (g x)) → mapM f l = Ok (g <$> l).
Proof.
  induction l as [|a l IH]; intros Hf; [done |]. rewrite mapM_result_cons.
  rewrite (Hf a) by constructor. cbn. rewrite IH; [done |].
  intros x Hx. apply Hf. by constructor.
Qed.

Lemma mapM_is_Ok {A B} (f : A → result B) (l : list A) :
  (∀ x, x ∈ l → is_Ok (f x)) → ∃ k, mapM f l = Ok k ∧ length k = length l.
Proof.
  induction l as [|a l IH]; intros Hf; [by exists [] |]. rewrite mapM_result_cons.
  destruct (Hf a) as [b Hb]; [constructor |]. rewrite Hb. cbn.
  destruct IH as (k & Hk & Hlen); [intros x Hx; apply Hf; by constructor |].
  rewrite Hk. cbn. exists (b :: k). by rewrite <- Hlen.
Qed.

(** *** Indexing *)

Lemma length_chunks {A} k n (d : list A) : length (chunks k n d) = n.
Proof. revert d. induction n as [|n IH]; intros d; simpl; [done | by rewrite IH]. Qed.

Lemma position_Ok (len : nat) (i : Z) :
  0 ≤ i < Z.of_nat len → position len i = Ok (Z.to_nat i).
Proof.
  intros Hi. unfold position.
  destruct (Z.ltb_spec i 0); [lia |].
  destruct (Z.leb_spec 0 i); [| lia]. destruct (Z.ltb_spec i (Z.of_nat len)); [done | lia].
Qed.

Lemma index_Ok {A} (l : list A) (i : Z) (x : A) :
  0 ≤ i → l !! Z.to_nat i = Some x → index l i = Ok x.
Proof.
  intros Hi Hx. unfold index.
  rewrite position_Ok by (apply lookup_lt_Some in Hx; lia). cbn. by rewrite Hx.
Qed.

Lemma index_select_Ok {A} (l : list A) (idx : list Z) (f : Z → A) :
  (∀ i, i ∈ idx → 0 ≤ i ∧ l !! Z.to_nat i = Some (f i)) →
  index_select l idx = Ok (f <$> idx).
Proof.
  intros H. apply mapM_Ok_fmap. intros i Hi. destruct (H i Hi). by apply index_Ok.
Qed.

Lemma index_select_fmap_Ok {A B} (g : A → B) (l : list A) (idx : list Z) (f : Z → A) :
  (∀ i, i ∈ idx → 0 ≤ i ∧ l !! Z.to_nat i = Some (f i)) →
  index_select (g <$> l) idx = Ok ((λ i, g (f i)) <$> idx).
Proof.
  intros H. apply index_select_Ok. intros i Hi. destruct (H i Hi) as [? Hl].
  split; [done |]. by rewrite list_lookup_fmap, Hl.
Qed.

(** Writing distinct in-range pixels: each receives its value and every
    other pixel is kept. *)
Lemma write_all_spec {A} (idx : list Z) :
  ∀ (l : list A) (vals : list A),
    (∀ i, i ∈ idx → 0 ≤ i < Z.of_nat (length l)) →
    length vals = length idx →
    NoDup idx →
    ∃ l', write_all l idx vals = Ok l'
          ∧ length l' = length l
          ∧ (∀ k i v, idx !! k = Some i → vals !! k = Some v →
                      l' !! Z.to_nat i = Some v)
          ∧ (∀ j, (∀ i, i ∈ idx → Z.to_nat i ≠ j) → l' !! j = l !! j).
Proof.
  induction idx as [|i idx IH]; intros l vals Hin Hlen Hnd.
  - exists l. split; [done |]. split; [done |]. split; [| done].
    intros k i v Hk. by rewrite lookup_nil in Hk.
  - destruct vals as [|v vals]; [done |]. simpl in Hlen.
    apply list.NoDup_cons in Hnd as [Hi Hnd].
    assert (Hir : 0 ≤ i < Z.of_nat (length l)) by (apply Hin; constructor).
    simpl. rewrite position_Ok by done. cbn.
    destruct (IH (<[Z.to_nat i := v]> l) vals) as (l' & Hw & Hl' & Hput & Hkeep).
    { intros i' Hi'. rewrite length_insert. apply Hin. by constructor. }
    { lia. }
    { done. }
    exists l'. rewrite Hw. split; [done |]. rewrite Hl', length_insert.
    split; [done |]. split.
    + intros [|k] i' v' Hk Hv; simpl in Hk, Hv.
      * injection Hk as <-. injection Hv as <-.
        rewrite Hkeep.
        -- apply list_lookup_insert_eq. lia.
        -- intros i' Hi' Heq.
           assert (0 ≤ i') by (apply (Hin i'); by constructor).
           apply Hi. by replace i with i' by lia.
      * by apply (Hput k).
    + intros j Hj. rewrite Hkeep.
      * apply list_lookup_insert_ne. apply Hj. constructor.
      * intros i' Hi'. apply Hj. by constructor.
Qed.

Lemma index_put_spec {A} (l : list A) (idx : list Z) (vals : list A) :
  (∀ i, i ∈ idx → 0 ≤ i < Z.of_nat (length l)) →
  length vals = length idx →
  NoDup idx →
  ∃ l', index_put l idx vals = Ok l'
        ∧ length l' = length l
        ∧ (∀ k i v, idx !! k = Some i → vals !! k = Some v →
                    l' !! Z.to_nat i = Some v)
        ∧ (∀ j, (∀ i, i ∈ idx → Z.to_nat i ≠ j) → l' !! j = l !! j).
Proof.
  intros Hin Hlen Hnd. unfold index_put.
  rewrite (proj2 (Nat.eqb_eq _ _) Hlen). by apply write_all_spec.
Qed.

(** *** decode *)

Section Decode.
Context {T : Type} `{!Scalar T}.

Lemma zip_with_fmap_same {A B C} (f : B → A → C) (g : A → B) (l : list A) :
  zip_with f (g <$> l) l = (λ x, f (g x) x) <$> l.
Proof. induction l as [|a l IH]; csimpl; [done | by f_equal]. Qed.

Lemma decode_rows_Ok (self : FTSliceDecoder.t T) (C : nat) (rows : list (list T)) :
  (2 < C)%nat → FTSliceDecoder.in_dim (FTSliceDecoder.decoder self) = C →
  FTSliceDecoder.decode_rows self C rows
  = (decode_row_state <$> rows,
     Ok (decode_row (FTSliceDecoder.main (FTSliceDecoder.decoder self)) <$> rows)).
Proof.
  intros HC Hin. unfold FTSliceDecoder.decode_rows.
  destruct (Nat.leb_spec C 2); [lia |].
  rewrite Hin, Nat.eqb_refl. cbn [negb].
  rewrite zip_with_fmap_same. f_equal. f_equal.
  rewrite <- list_fmap_compose.
  set (w := (λ r : list T, sgt0 (nth 2 r szero)) <$> rows).
  assert (Hrows : (decode_row_state <$> rows)
                  = (λ r, if sgt0 (nth 2 r szero) then FTSliceDecoder.negate3 r else r) <$> rows) by done.
  unfold w. clear w.
  induction rows as [|r rows IH]; csimpl; [done |]. f_equal; [| apply IH; done].
  unfold decode_row. by destruct (sgt0 (nth 2 r szero)).
Qed.

(** For a network with Hermitian symmetry the negation is invisible:
    [decode] returns the network's value at the row itself. *)
Lemma decode_row_hermitian (net : list T → T * T) (r : list T) :
  (∀ p, net (FTSliceDecoder.negate3 p) = conjugate (net p)) →
  decode_row net r = net r.
Proof.
  intros Hh. unfold decode_row. destruct (sgt0 (nth 2 r szero)); [| done].
  rewrite Hh. unfold conjugate. simpl. rewrite smul_neg_one, sneg_involutive.
  by destruct (net r).
Qed.
End Decode.

(** *** forward on one slice of an even grid *)

Section ForwardSlice.
Context {T : Type} `{!Scalar T}.
Variables (C : nat) (D : Z) (net : list T → T * T).
Variable self : FTSliceDecoder.t T.
Hypothesis D_pos : 0 < D.
Hypothesis D_even : Z.even D = true.
Hypothesis C_ge : (2 < C)%nat.
Hypothesis Hself : FTSliceDecoder.__init__ C D net = Ok self.
Variable slice : list T.

Let N := Z.to_nat (D * D).
Let rows := chunks C N slice.
Let px (i : Z) : list T := rows !!! Z.to_nat i.

Lemma self_fields :
  FTSliceDecoder.decoder self
    = {| FTSliceDecoder.in_dim := C; FTSliceDecoder.main := net |}
  ∧ FTSliceDecoder.all_eval self = all_eval_closed D (D `div` 2)
  ∧ FTSliceDecoder.top self = top_closed D (D `div` 2)
  ∧ FTSliceDecoder.bottom_rev self = reverse (bottom_closed D (D `div` 2))
  ∧ FTSliceDecoder.center self = D `div` 2 * D + D `div` 2.
Proof.
  rewrite init_closed in Hself by done. injection Hself as <-. done.
Qed.

Lemma px_lookup i : 0 ≤ i < D * D → rows !! Z.to_nat i = Some (px i).
Proof.
  intros Hi. unfold px. apply list_lookup_lookup_total_lt.
  unfold rows. rewrite length_chunks. unfold N. lia.
Qed.

Lemma all_eval_range i :
  i ∈ FTSliceDecoder.all_eval self → 0 ≤ i < D * D.
Proof.
  destruct self_fields as (_ & -> & _). intros Hi.
  apply (all_eval_bottom_cover D D_pos). by left.
Qed.

Lemma bottom_rev_range i :
  i ∈ FTSliceDecoder.bottom_rev self → 0 ≤ i < D * D.
Proof.
  destruct self_fields as (_ & _ & _ & -> & _). rewrite elem_of_reverse. intros Hi.
  apply (all_eval_bottom_cover D D_pos). by right.
Qed.

Lemma top_in_all_eval t :
  t ∈ FTSliceDecoder.top self →
  0 ≤ t ≤ FTSliceDecoder.center self
  ∧ FTSliceDecoder.all_eval self !! Z.to_nat t = Some t.
Proof.
  destruct self_fields as (_ & -> & -> & _ & ->). intros Ht.
  apply (top_le_center D D_pos) in Ht. split; [done |].
  by apply all_eval_lookup_prefix.
Qed.

(** The image of one slice: every pixel of [all_eval] holds
    [real - imag] of what [decode] returns for that pixel, and the k-th
    pixel of [bottom_rev] holds [real + imag] of what [decode] returns
    for the k-th pixel of [top]. *)
Lemma forward_slice_spec :
  ∃ image,
    FTSliceDecoder.forward_slice self N C slice = Ok image
    ∧ length image = N
    ∧ (∀ i, i ∈ FTSliceDecoder.all_eval self →
            image !! Z.to_nat i = Some (Some (hartley (decode_row net (px i)))))
    ∧ (∀ k t b, FTSliceDecoder.top self !! k = Some t →
                FTSliceDecoder.bottom_rev self !! k = Some b →
                image !! Z.to_nat b = Some (Some (mirror (decode_row net (px t))))).
Proof.
  pose proof self_fields as (Hdec & Hall & Htop & Hbot & Hcen).
  unfold FTSliceDecoder.forward_slice. fold rows.
  rewrite (index_select_Ok rows _ px); cycle 1.
  { intros i Hi. apply all_eval_range in Hi. split; [lia | by apply px_lookup]. }
  cbn [mbind result_bind].
  rewrite decode_rows_Ok by (done || by rewrite Hdec).
  cbn [snd]. rewrite Hdec. cbn [FTSliceDecoder.main mbind result_bind].
  set (top_half := decode_row net <$> (px <$> FTSliceDecoder.all_eval self)).
  destruct (index_put_spec (replicate N (@None T)) (FTSliceDecoder.all_eval self)
              ((λ y : T * T, Some (ssub y.1 y.2)) <$> top_half))
    as (image1 & Hput1 & Hlen1 & Hval1 & _).
  { intros i Hi. rewrite length_replicate. apply all_eval_range in Hi. unfold N. lia. }
  { unfold top_half. by rewrite !length_fmap. }
  { rewrite Hall. by apply NoDup_all_eval. }
  rewrite Hput1. cbn [mbind result_bind].
  assert (Htophalf : ∀ t, t ∈ FTSliceDecoder.top self →
            0 ≤ t ∧ top_half !! Z.to_nat t = Some (decode_row net (px t))).
  { intros t Ht. destruct (top_in_all_eval t Ht) as [Hle Hlk]. split; [lia |].
    unfold top_half. by rewrite !list_lookup_fmap, Hlk. }
  rewrite (index_select_fmap_Ok fst top_half _ (λ t, decode_row net (px t))) by done.
  cbn [mbind result_bind].
  rewrite (index_select_fmap_Ok snd top_half _ (λ t, decode_row net (px t))) by done.
  cbn [mbind result_bind].
  assert (Hzip : zip_with sadd
                   ((λ t, (decode_row net (px t)).1) <$> FTSliceDecoder.top self)
                   ((λ t, (decode_row net (px t)).2) <$> FTSliceDecoder.top self)
                 = (λ t, mirror (decode_row net (px t))) <$> FTSliceDecoder.top self).
  { generalize (FTSliceDecoder.top self). intros l.
    induction l as [|t l IH]; csimpl; [done | by f_equal]. }
  rewrite Hzip.
  destruct (index_put_spec image1 (FTSliceDecoder.bottom_rev self)
              (Some <$> ((λ t, mirror (decode_row net (px t))) <$> FTSliceDecoder.top self)))
    as (image2 & Hput2 & Hlen2 & Hval2 & Hkeep2).
  { intros i Hi. rewrite Hlen1, length_replicate. apply bottom_rev_range in Hi.
    unfold N. lia. }
  { rewrite !length_fmap, Htop, Hbot, length_reverse.
    by apply length_top_bottom_even. }
  { rewrite Hbot, reverse_Permutation. by apply NoDup_bottom. }
  exists image2. split; [exact Hput2 |]. split.
  { by rewrite Hlen2, Hlen1, length_replicate. }
  split.
  - intros i Hi. rewrite Hkeep2.
    + apply list_elem_of_lookup in Hi as [k Hk].
      apply (Hval1 k); [done |]. unfold top_half. by rewrite !list_lookup_fmap, Hk.
    + intros b Hb Heq. pose proof (all_eval_range i Hi). pose proof (bottom_rev_range b Hb).
      assert (b = i) as -> by lia.
      rewrite Hall in Hi. rewrite Hbot, elem_of_reverse in Hb.
      by apply (all_eval_bottom_disjoint D D_pos i).
  - intros k t b Ht Hb. apply (Hval2 k); [done |].
    by rewrite !list_lookup_fmap, Ht.
Qed.

(** Every pixel of the slice is either evaluated or mirrored. *)
Lemma pixel_cases j :
  (j < N)%nat →
  Z.of_nat j ∈ FTSliceDecoder.all_eval self
  ∨ ∃ k t, FTSliceDecoder.top self !! k = Some t
           ∧ FTSliceDecoder.bottom_rev self !! k = Some (Z.of_nat j).
Proof.
  pose proof self_fields as (Hdec & Hall & Htop & Hbot & Hcen).
  intros Hj. rewrite Hall, Htop, Hbot.
  destruct (proj2 (all_eval_bottom_cover D D_pos (Z.of_nat j))) as [? | Hb];
    [unfold N in Hj; lia | by left |].
  right. apply elem_of_reverse, list_elem_of_lookup in Hb as [k Hk].
  destruct (lookup_lt_is_Some_2 (top_closed D (D `div` 2)) k) as [t Ht].
  { apply lookup_lt_Some in Hk.
    rewrite length_reverse in Hk. by rewrite length_top_bottom_even. }
  eauto.
Qed.
End ForwardSlice.

(** *** Shapes *)

Lemma expand_data_is_Ok {A} (src tgt : list nat) :
  expandable src tgt → ∀ d : list A, is_Ok (expand_data src tgt d).
Proof.
  induction 1 as [|s n src tgt Hsn _ IH]; intros d; simpl.
  - by exists d.
  - destruct (Nat.eqb_spec s n) as [_ | Hne].
    + destruct (mapM_is_Ok (expand_data src tgt) (chunks (numel src) s d))
        as (k & -> & _); [intros x _; apply IH |].
      by eexists.
    + destruct Hsn as [? | ->]; [done |]. simpl.
      destruct (IH d) as [d' ->]. by eexists.
Qed.

Lemma expand_is_Ok {A} (t : Tensor A) (s : list nat) :
  (length (shape t) ≤ length s)%nat →
  expandable (replicate (length s - length (shape t)) 1%nat ++ shape t) s →
  ∃ t', expand t s = Ok t' ∧ shape t' = s.
Proof.
  intros Hlen Hex. unfold expand.
  destruct (Nat.ltb_spec (length s) (length (shape t))); [lia |].
  destruct (expand_data_is_Ok _ _ Hex (data t)) as [d ->]. by eexists.
Qed.

Lemma expandable_refl s : expandable s s.
Proof. induction s; constructor; auto. Qed.

Lemma expandable_ones (s : list nat) : expandable (replicate (length s) 1%nat) s.
Proof. induction s; constructor; auto. Qed.

Section Shapes.
Context {T : Type} `{!Scalar T}.

(** The lattice times a batch of 3×3 matrices. *)
Lemma matmul_coords_shape (coords rot : Tensor T) (N B : nat) :
  shape coords = [N; 3%nat] → shape rot = [B; 3%nat; 3%nat] →
  ∃ x, matmul coords rot = Ok x ∧ shape x = [B; N; 3%nat].
Proof.
  intros Hc Hr. unfold matmul. rewrite Hc, Hr.
  unfold matmul_batched. rewrite Hc, Hr.
  change (reverse [N; 3%nat]) with [3%nat; N].
  change (reverse [B; 3%nat; 3%nat]) with [3%nat; 3%nat; B].
  cbn [Nat.eqb negb broadcast_rev fmap result_fmap mbind result_bind].
  change (reverse [B]) with [B].
  destruct (expand_is_Ok coords ([B] ++ [N; 3%nat])) as (a' & -> & _).
  { rewrite Hc. simpl. lia. }
  { rewrite Hc. simpl. constructor; [by right |]. apply expandable_refl. }
  destruct (expand_is_Ok rot ([B] ++ [3%nat; 3%nat])) as (b' & -> & _).
  { rewrite Hr. simpl. lia. }
  { rewrite Hr. apply expandable_refl. }
  cbn [mbind result_bind]. by eexists.
Qed.

(** With a one-dimensional latent code [cat_z] appends one channel. *)
Lemma cat_z_shape (coords z : Tensor T) (B : nat) (rest : list nat) :
  shape coords = B :: rest ++ [3%nat] → shape z = [B; 1%nat] →
  ∃ y, HetVAE.cat_z coords z = Ok y ∧ shape y = B :: rest ++ [4%nat].
Proof.
  intros Hc Hz. unfold HetVAE.cat_z. rewrite Hc, Hz.
  rewrite reverse_cons, reverse_app. cbn [reverse app].
  change (reverse [3%nat]) with [3%nat]. cbn [app Nat.eqb negb].
  unfold view. rewrite Hz.
  assert (Hnumel : ∀ k, numel (B :: replicate k 1%nat) = numel [B; 1%nat]).
  { intros k. simpl. f_equal. induction k; simpl; lia. }
  rewrite Hnumel, Nat.eqb_refl. cbn [mbind result_bind].
  assert (Hlen : (length (B :: rest ++ [3%nat]) - 1)%nat = S (length rest)).
  { simpl. rewrite length_app. simpl. lia. }
  rewrite Hlen.
  assert (Htake : take (S (length rest)) (B :: rest ++ [3%nat]) = B :: rest).
  { simpl. f_equal. by rewrite take_app_length. }
  rewrite Htake.
  destruct (expand_is_Ok (mk (B :: replicate (S (length rest)) 1%nat) (data z))
              ((B :: rest) ++ [1%nat])) as (z' & -> & Hz').
  { simpl. rewrite length_app, length_replicate. simpl. lia. }
  { cbn [shape]. simpl. rewrite length_app, length_replicate. simpl.
    replace (length rest + 1 - S (length rest))%nat with 0%nat by lia. simpl.
    constructor; [by left |].
    replace (1%nat :: replicate (length rest) 1%nat)
      with (replicate (length rest) 1%nat ++ [1%nat]).
    - apply Forall2_app; [apply expandable_ones |].
      constructor; [by left | constructor].
    - clear. induction rest as [|? ? IH]; simpl; [done | by f_equal]. }
  change ((B :: rest) ++ [1%nat]) with (B :: rest ++ [1%nat]) in Hz'.
  cbn [mbind result_bind]. unfold cat_last. rewrite Hc, Hz'.
  rewrite !reverse_cons, !reverse_app. cbn [reverse app].
  change (reverse [3%nat]) with [3%nat]. change (reverse [1%nat]) with [1%nat].
  cbn [app]. rewrite bool_decide_eq_true_2 by done.
  eexists. split; [done |]. cbn [shape].
  rewrite reverse_cons, reverse_app, reverse_involutive.
  by rewrite reverse_singleton.
Qed.
End Shapes.

(** *** The mirror pairing of [top] and [bottom_rev] *)

Lemma fmap_concat {A B} (f : A → B) (l : list (list A)) :
  f <$> concat l = concat ((λ x : list A, f <$> x) <$> l).
Proof.
  induction l as [|x l IH]; [done |]. csimpl. by rewrite fmap_app, IH.
Qed.

Lemma reverse_concat {A} (l : list (list A)) :
  reverse (concat l) = concat (reverse (reverse <$> l)).
Proof.
  induction l as [|x l IH]; [done |]. csimpl.
  rewrite reverse_app, reverse_cons, concat_app, IH. simpl. by rewrite app_nil_r.
Qed.

Lemma fmap_ext_all {A B} (f g : A → B) (l : list A) :
  (∀ x, f x = g x) → f <$> l = g <$> l.
Proof. intros H. apply list_fmap_ext. intros _ x _. apply H. Qed.

Lemma reverse_fmap_seqZ (a m n : Z) :
  reverse ((λ x, a - x) <$> seqZ m n) = (λ y, a - (2 * m + n - 1) + y) <$> seqZ m n.
Proof.
  destruct (Z.le_gt_cases n 0) as [Hn | Hn]; [by rewrite !seqZ_nil by lia |].
  rewrite <- (Z2Nat.id n) by lia. generalize (Z.to_nat n). clear n Hn. intros n.
  revert m. induction n as [|n IH]; intros m; [done |].
  rewrite (seqZ_cons m) at 1 by lia. rewrite fmap_cons, reverse_cons.
  replace (Z.pred (Z.of_nat (S n))) with (Z.of_nat n) by lia.
  rewrite IH. rewrite (seqZ_last m (Z.of_nat (S n))) by lia. rewrite fmap_app.
  replace (Z.of_nat (S n) - 1) with (Z.of_nat n) by lia.
  f_equal.
  - replace (Z.succ m) with (1 + m) by lia.
    rewrite <- (fmap_add_seqZ 1 m), <- list_fmap_compose.
    apply fmap_ext_all. intros x. simpl. lia.
  - simpl. f_equal. lia.
Qed.

Section Mirror.
Variable D : Z.
Hypothesis D_pos : 0 < D.
Hypothesis D_even : Z.even D = true.

Lemma even_half : D = 2 * (D `div` 2).
Proof.
  apply Z.even_spec in D_even as [k Hk]. Z.div_mod_to_equations. lia.
Qed.

(** One row of the grid, mirrored through the centre and reversed, is
    the mirrored row. *)
Lemma row_mirror (r : Z) :
  reverse ((λ t, D * D + D - t) <$> ((λ c, r * D + c) <$> seqZ 1 (D - 1)))
  = (λ c, (D - r) * D + c) <$> seqZ 1 (D - 1).
Proof.
  rewrite <- list_fmap_compose.
  rewrite (fmap_ext_all _ (λ c, ((D - r) * D + D) - c)) by (intros c; simpl; lia).
  rewrite reverse_fmap_seqZ. apply fmap_ext_all. intros c. lia.
Qed.

(** A block of rows, mirrored and reversed, is the block of the mirrored
    rows. *)
Lemma grid_mirror (r0 n : Z) :
  reverse ((λ t, D * D + D - t) <$> grid D (seqZ 1 (D - 1)) (seqZ r0 n))
  = grid D (seqZ 1 (D - 1)) (seqZ (D - r0 - n + 1) n).
Proof.
  unfold grid. rewrite fmap_concat, reverse_concat, <- !list_fmap_compose.
  rewrite (fmap_ext_all _ ((λ r, (λ c, r * D + c) <$> seqZ 1 (D - 1)) ∘ (λ r, D - r)))
    by (intros r; simpl; apply row_mirror).
  rewrite list_fmap_compose, <- fmap_reverse, reverse_fmap_seqZ.
  do 2 f_equal.
  replace (D - r0 - n + 1) with ((D - (2 * r0 + n - 1)) + r0) by lia.
  by rewrite <- fmap_add_seqZ.
Qed.

(** [bottom_rev] lists, in the order of [top], the pixels mirrored
    through the centre: the k-th pixels of the two sets have indices
    that add up to D² + D. *)
Lemma bottom_rev_mirror :
  reverse (bottom_closed D (D `div` 2))
  = (λ t, D * D + D - t) <$> top_closed D (D `div` 2).
Proof.
  pose proof even_half as Hh. pose proof (D2_bounds D D_pos) as Hb.
  assert (HDD : D * D = 2 * (D `div` 2 * D)) by (rewrite Hh at 1; lia).
  rewrite <- (reverse_involutive ((λ t, D * D + D - t) <$> _)). f_equal.
  unfold top_closed, bottom_closed.
  rewrite fmap_app, reverse_app, grid_mirror. f_equal.
  - rewrite <- list_fmap_compose.
    rewrite (fmap_ext_all ((λ t, D * D + D - t) ∘ (λ c, D `div` 2 * D + c))
               (λ c, (D `div` 2 * D + D) - c)) by (intros c; simpl; lia).
    rewrite reverse_fmap_seqZ.
    replace (D - 1 - D `div` 2) with (D `div` 2 - 1) by lia.
    replace (seqZ (D `div` 2 + 1) (D `div` 2 - 1))
      with (Z.add (D `div` 2) <$> seqZ 1 (D `div` 2 - 1))
      by (rewrite fmap_add_seqZ; done).
    rewrite <- list_fmap_compose. apply fmap_ext_all. intros c. simpl. lia.
  - do 2 f_equal; lia.
Qed.
End Mirror.

(** * The index sets of FTSliceDecoder *)

(** C2. For every even side length [D] the constructor succeeds and its
    index sets satisfy: [all_eval] and [bottom_rev] have no index in common
    and no repeated index, together they contain exactly the flat indices
    0, ..., D² - 1, and [top] and [bottom_rev] have the same number of
    elements.  For [D = 4] the centre is 10 and the two sets are
    {0, ..., 10, 12} and {15, 14, 13, 11}.  (A side length is positive: for
    [D = 0] the constructor raises and builds no index set.) *)
Theorem index_sets_partition :
  (∀ (T : Type) (S : Scalar T) (in_dim : nat) (net : list T → T * T) (D : Z),
     0 < D → Z.even D = true →
     ∃ self,
       FTSliceDecoder.__init__ in_dim D net = Ok self
       ∧ (∀ i, i ∈ FTSliceDecoder.all_eval self →
               i ∈ FTSliceDecoder.bottom_rev self → False)
       ∧ (∀ i, i ∈ FTSliceDecoder.all_eval self
               ∨ i ∈ FTSliceDecoder.bottom_rev self ↔ 0 ≤ i < D * D)
       ∧ NoDup (FTSliceDecoder.all_eval self)
       ∧ NoDup (FTSliceDecoder.bottom_rev self)
       ∧ length (FTSliceDecoder.top self)
         = length (FTSliceDecoder.bottom_rev self))
  ∧ (∀ (T : Type) (S : Scalar T) (in_dim : nat) (net : list T → T * T),
       ∃ self,
         FTSliceDecoder.__init__ in_dim 4 net = Ok self
         ∧ FTSliceDecoder.center self = 10
         ∧ FTSliceDecoder.all_eval self = [0; 1; 2; 3; 4; 5; 6; 7; 8; 9; 10; 12]
         ∧ FTSliceDecoder.top self = [5; 6; 7; 9]
         ∧ FTSliceDecoder.bottom_rev self = [15; 14; 13; 11])
  ∧ (∀ (T : Type) (S : Scalar T) (in_dim : nat) (net : list T → T * T),
       FTSliceDecoder.__init__ in_dim 0 net = Raise ZeroDivisionError).
Proof.
  split; [| split; [| done]].
  - intros T S in_dim net D Hpos Hev. eexists. split; [by apply init_closed |].
    cbn [FTSliceDecoder.all_eval FTSliceDecoder.bottom_rev FTSliceDecoder.top].
    split; [| split; [| split; [| split; [| ]]]].
    + intros i Ha Hb. rewrite elem_of_reverse in Hb. 
      by apply (all_eval_bottom_disjoint D Hpos i).
    + intros i. rewrite elem_of_reverse. by apply all_eval_bottom_cover.
    + by apply NoDup_all_eval.
    + rewrite reverse_Permutation. by apply NoDup_bottom.
    + rewrite length_reverse. by apply length_top_bottom_even.
  - intros T S in_dim net. exists (decoder4 in_dim net). split; [reflexivity |]. done.
Qed.

Lemma index_sets_partition_witness :
  ∃ self,
    FTSliceDecoder.__init__ 3 4 (sum_decoder (T := Z)) = Ok self
    ∧ (∀ i, i ∈ FTSliceDecoder.all_eval self
            ∨ i ∈ FTSliceDecoder.bottom_rev self ↔ 0 ≤ i < 4 * 4)
    ∧ length (FTSliceDecoder.top self) = length (FTSliceDecoder.bottom_rev self).
Proof.
  destruct index_sets_partition as (H & _ & _).
  destruct (H Z Z_scalar 3%nat sum_decoder 4 ltac:(lia) ltac:(reflexivity))
    as (self & Hs & _ & Hcover & _ & _ & Hlen).
  exists self. auto.
Defined.

(** C5 (as the code behaves).  An odd side length is not rejected: the
    constructor succeeds on every odd [D > 0] with [D2 = (D - 1) / 2]; its
    [all_eval] and [bottom_rev] still split the D² indices, but
    [bottom_rev] has [D - 1] more elements than [top]. *)
Theorem odd_side_accepted (T : Type) (S : Scalar T) (in_dim : nat)
    (net : list T → T * T) (D : Z) :
  0 < D → Z.odd D = true →
  ∃ self,
    FTSliceDecoder.__init__ in_dim D net = Ok self
    ∧ 2 * FTSliceDecoder.D2 self + 1 = D
    ∧ (∀ i, i ∈ FTSliceDecoder.all_eval self →
            i ∈ FTSliceDecoder.bottom_rev self → False)
    ∧ (∀ i, i ∈ FTSliceDecoder.all_eval self
            ∨ i ∈ FTSliceDecoder.bottom_rev self ↔ 0 ≤ i < D * D)
    ∧ length (FTSliceDecoder.bottom_rev self)
      = (length (FTSliceDecoder.top self) + Z.to_nat (D - 1))%nat.
Proof.
  intros Hpos Hodd. eexists. split; [by apply init_closed |].
  cbn [FTSliceDecoder.all_eval FTSliceDecoder.bottom_rev FTSliceDecoder.top
       FTSliceDecoder.D2].
  split; [| split; [| split]].
  - apply Z.odd_spec in Hodd as [k ->]. Z.div_mod_to_equations. lia.
  - intros i Ha Hb. rewrite elem_of_reverse in Hb.
    by apply (all_eval_bottom_disjoint D Hpos i).
  - intros i. rewrite elem_of_reverse. by apply all_eval_bottom_cover.
  - rewrite length_reverse. by apply length_top_bottom_odd.
Qed.

Lemma odd_side_accepted_witness :
  ∃ self,
    FTSliceDecoder.__init__ 3 3 (sum_decoder (T := Z)) = Ok self
    ∧ length (FTSliceDecoder.bottom_rev self)
      = (length (FTSliceDecoder.top self) + 2)%nat.
Proof.
  destruct (odd_side_accepted Z Z_scalar 3%nat sum_decoder 3 ltac:(lia) ltac:(reflexivity))
    as (self & Hs & _ & _ & _ & Hlen).
  exists self. auto.
Defined.

(** C5 fails as stated: the odd side length 3 is accepted, and the index
    sets built for it pair one source pixel with three destinations. *)
Lemma odd_side_not_rejected :
  Z.odd 3 = true
  ∧ (¬ ∃ e, FTSliceDecoder.__init__ 3 3 (sum_decoder (T := Z)) = Raise e)
  ∧ ∃ self, FTSliceDecoder.__init__ 3 3 (sum_decoder (T := Z)) = Ok self
            ∧ FTSliceDecoder.top self = [4]
            ∧ FTSliceDecoder.bottom_rev self = [8; 7; 5].
Proof.
  split; [done |]. split.
  - intros [e He]. discriminate He.
  - eexists. split; [vm_compute; reflexivity |]. done.
Qed.

(** C10. On every grid of positive side (in particular every even one)
    each index of [top] lies between 0 and [center], so it is a position
    of the half-evaluation buffer and [all_eval] holds that same index
    there; indexing any buffer as long as [all_eval] by [top] therefore
    succeeds and reads, for the index t, the entry computed for pixel
    t. *)
Theorem top_indexes_in_bounds (T : Type) (S : Scalar T) (in_dim : nat)
    (net : list T → T * T) (D : Z) :
  0 < D →
  ∃ self,
    FTSliceDecoder.__init__ in_dim D net = Ok self
    ∧ (∀ t, t ∈ FTSliceDecoder.top self →
            0 ≤ t ≤ FTSliceDecoder.center self
            ∧ (Z.to_nat t < length (FTSliceDecoder.all_eval self))%nat
            ∧ FTSliceDecoder.all_eval self !! Z.to_nat t = Some t)
    ∧ (∀ (A : Type) (f : Z → A),
         index_select (f <$> FTSliceDecoder.all_eval self) (FTSliceDecoder.top self)
         = Ok (f <$> FTSliceDecoder.top self)).
Proof.
  intros Hpos. eexists. split; [by apply init_closed |].
  cbn [FTSliceDecoder.all_eval FTSliceDecoder.center FTSliceDecoder.top].
  assert (Ht : ∀ t, t ∈ top_closed D (D `div` 2) →
            0 ≤ t ≤ D `div` 2 * D + D `div` 2
            ∧ all_eval_closed D (D `div` 2) !! Z.to_nat t = Some t).
  { intros t Hin. apply (top_le_center D Hpos) in Hin. split; [done |].
    by apply all_eval_lookup_prefix. }
  split.
  - intros t Hin. destruct (Ht t Hin) as [Hle Hlk]. split; [done |]. split; [| done].
    by apply lookup_lt_Some in Hlk.
  - intros A f. apply index_select_Ok. intros t Hin.
    destruct (Ht t Hin) as [Hle Hlk]. split; [lia |].
    by rewrite list_lookup_fmap, Hlk.
Qed.

Lemma top_indexes_in_bounds_witness :
  ∃ self,
    FTSliceDecoder.__init__ 3 4 (sum_decoder (T := Z)) = Ok self
    ∧ ∀ t, t ∈ FTSliceDecoder.top self → 0 ≤ t ≤ FTSliceDecoder.center self.
Proof.
  destruct (top_indexes_in_bounds Z Z_scalar 3%nat sum_decoder 4 ltac:(lia))
    as (self & Hs & Ht & _).
  exists self. split; [done |]. intros t Hin. by destruct (Ht t Hin).
Defined.

(** * forward against the evaluation of the whole grid *)

Lemma hartley_conjugate {T} `{!Scalar T} (y : T * T) : hartley (conjugate y) = mirror y.
Proof. unfold hartley, conjugate, mirror. simpl. apply ssub_sneg. Qed.

Lemma forward_single_slice {T} `{!Scalar T} (self : FTSliceDecoder.t T)
    (N C : nat) (lattice : list T) (image : list (option T)) :
  length lattice = (N * C)%nat →
  FTSliceDecoder.forward_slice self N C lattice = Ok image →
  FTSliceDecoder.forward self (mk [N; C] lattice) = Ok (mk [N] image).
Proof.
  intros Hlen Himg. unfold FTSliceDecoder.forward. cbn [shape data].
  change (reverse [N; C]) with [C; N]. cbn [numel foldr chunks].
  rewrite take_ge by lia. rewrite mapM_result_cons, Himg. cbn.
  by rewrite app_nil_r.
Qed.

(** On an even grid the k-th pixel of [bottom_rev] is the mirror through
    the centre of the k-th pixel of [top]: their flat indices add up to
    D² + D. *)
Lemma top_bottom_rev_pair {T} `{!Scalar T} (C : nat) (D : Z)
    (net : list T → T * T) (self : FTSliceDecoder.t T) (k : nat) (t b : Z) :
  0 < D → Z.even D = true →
  FTSliceDecoder.__init__ C D net = Ok self →
  FTSliceDecoder.top self !! k = Some t →
  FTSliceDecoder.bottom_rev self !! k = Some b →
  b = D * D + D - t.
Proof.
  intros Hpos Hev Hself Ht Hb.
  pose proof (self_fields C D net self Hpos Hself) as (_ & _ & Htop & Hbot & _).
  rewrite Hbot, (bottom_rev_mirror D Hpos Hev), list_lookup_fmap, <- Htop, Ht in Hb.
  by injection Hb as <-.
Qed.

(** C3 (as the code behaves).  On an even grid, for a network with
    Hermitian symmetry (its value at a row with the three coordinates
    negated is the conjugate of its value at the row) and a lattice that is
    symmetric about the centre pixel (for every pixel t of [top], the pixel
    D² + D - t holds the negation of the coordinates of pixel t), [forward]
    writes every pixel and the image equals the evaluation of [real - imag]
    of the network at every coordinate. *)
Theorem forward_hermitian_eq_naive (T : Type) (S : Scalar T) (C : nat) (D : Z)
    (net : list T → T * T) (self : FTSliceDecoder.t T) (lattice : list T) :
  let N := Z.to_nat (D * D) in
  0 < D → Z.even D = true → (2 < C)%nat →
  FTSliceDecoder.__init__ C D net = Ok self →
  length lattice = (N * C)%nat →
  (∀ p, net (FTSliceDecoder.negate3 p) = conjugate (net p)) →
  (∀ t, t ∈ FTSliceDecoder.top self →
        chunks C N lattice !! Z.to_nat (D * D + D - t)
        = FTSliceDecoder.negate3 <$> chunks C N lattice !! Z.to_nat t) →
  FTSliceDecoder.forward self (mk [N; C] lattice)
  = Ok (mk [N] (Some <$> FTSliceDecoder.naive_slice self N C lattice)).
Proof.
  intros N Hpos Hev HC Hself Hlen Hherm Hsym.
  destruct (forward_slice_spec C D net self Hpos Hev HC Hself lattice)
    as (image & Himg & Hlen_img & Hall & Hbot).
  fold N in Himg, Hlen_img, Hall, Hbot.
  apply forward_single_slice; [done |]. rewrite Himg. f_equal.
  pose proof (self_fields C D net self Hpos Hself) as (Hdec & _).
  apply list_eq. intros j. unfold FTSliceDecoder.naive_slice.
  rewrite Hdec. cbn [FTSliceDecoder.main]. rewrite !list_lookup_fmap.
  destruct (decide (j < N)%nat) as [Hj | Hj]; cycle 1.
  { rewrite (lookup_ge_None_2 image) by lia.
    rewrite (lookup_ge_None_2 (chunks C N lattice)) by (rewrite length_chunks; lia).
    done. }
  assert (Hpx : ∀ i, 0 ≤ i < D * D →
            chunks C N lattice !! Z.to_nat i
            = Some (chunks C N lattice !!! Z.to_nat i)).
  { intros i Hi. by apply px_lookup. }
  assert (Hjr : 0 ≤ Z.of_nat j < D * D) by (unfold N in Hj; lia).
  destruct (pixel_cases C D net self Hpos Hev HC Hself j Hj) as [Hin | (k & t & Ht & Hb)].
  - specialize (Hall _ Hin). rewrite Nat2Z.id in Hall. rewrite Hall.
    specialize (Hpx _ Hjr). rewrite Nat2Z.id in Hpx. rewrite Hpx. cbn.
    by rewrite decode_row_hermitian.
  - specialize (Hbot _ _ _ Ht Hb). rewrite Nat2Z.id in Hbot. rewrite Hbot.
    pose proof (top_bottom_rev_pair C D net self k t _ Hpos Hev Hself Ht Hb) as Hpair.
    specialize (Hsym t (list_elem_of_lookup_2 _ _ _ Ht)).
    rewrite <- Hpair, Nat2Z.id in Hsym. rewrite Hsym.
    assert (Htr : 0 ≤ t < D * D).
    { apply list_elem_of_lookup_2 in Ht.
      destruct (top_in_all_eval C D net self Hpos Hself t Ht) as [_ Hlk].
      apply list_elem_of_lookup_2 in Hlk.
      by apply (all_eval_range C D net self Hpos Hself). }
    rewrite (Hpx _ Htr). cbn.
    rewrite decode_row_hermitian by done. rewrite Hherm.
    do 2 f_equal. symmetry. apply hartley_conjugate.
Qed.

Lemma hermitian_decoder_conjugate (p : list Z) :
  hermitian_decoder (FTSliceDecoder.negate3 p) = conjugate (hermitian_decoder p).
Proof.
  unfold hermitian_decoder, conjugate, FTSliceDecoder.negate3.
  destruct p as [|x [|y [|z rest]]]; cbn; rewrite ?take_0, ?drop_0; cbn;
    f_equal; rewrite ?Z.mul_opp_opp; lia.
Qed.

Lemma forward_hermitian_eq_naive_witness :
  FTSliceDecoder.__init__ 3 4 hermitian_decoder = Ok (decoder4 3 hermitian_decoder)
  ∧ FTSliceDecoder.forward (decoder4 3 hermitian_decoder) (mk [16%nat; 3%nat] lattice4)
    = Ok (mk [16%nat]
            (Some <$> [12; 8; 6; 6; 8; 4; 2; 2; 6; 2; 0; 0; 6; 2; 0; 0])).
Proof.
  split; [vm_compute; reflexivity |].
  refine (forward_hermitian_eq_naive Z Z_scalar 3%nat 4 hermitian_decoder
            (decoder4 3 hermitian_decoder) lattice4
            _ eq_refl _ eq_refl eq_refl hermitian_decoder_conjugate _).
  - lia.
  - lia.
  - intros t Ht. cbn in Ht.
    repeat (apply elem_of_cons in Ht as [-> | Ht]; [reflexivity |]).
    by apply elem_of_nil in Ht.
Defined.

(** C3 fails as stated: for the network whose real channel is the sum of
    the coordinates and whose imaginary channel is zero, on the 4×4
    lattice, [forward] and the evaluation of the whole grid differ; the
    last pixel, of coordinates (1, 1, 0), receives -2, the value at its
    mirror pixel (-1, -1, 0), where the network gives 2. *)
Lemma forward_sum_decoder_differs :
  FTSliceDecoder.__init__ 3 4 (sum_decoder (T := Z)) = Ok (decoder4 3 sum_decoder)
  ∧ FTSliceDecoder.forward (decoder4 3 sum_decoder) (mk [16%nat; 3%nat] lattice4)
    = Ok (mk [16%nat]
            (Some <$> [-4; -3; -2; -1; -3; -2; -1; 0; -2; -1; 0; -1; -1; 0; -1; -2]))
  ∧ FTSliceDecoder.naive_slice (decoder4 3 sum_decoder) 16 3 lattice4
    = [-4; -3; -2; -1; -3; -2; -1; 0; -2; -1; 0; 1; -1; 0; 1; 2]
  ∧ FTSliceDecoder.forward (decoder4 3 sum_decoder) (mk [16%nat; 3%nat] lattice4)
    ≠ Ok (mk [16%nat]
            (Some <$> FTSliceDecoder.naive_slice (decoder4 3 sum_decoder) 16 3 lattice4)).
Proof.
  split; [vm_compute; reflexivity |].
  split; [vm_compute; reflexivity |].
  split; [vm_compute; reflexivity |].
  intros H. vm_compute in H. discriminate H.
Qed.

(** * decode *)

Lemma chunks_concat {A} (C : nat) (rows : list (list A)) :
  Forall (λ r, length r = C) rows → chunks C (length rows) (concat rows) = rows.
Proof.
  induction 1 as [|r rows Hr _ IH]; simpl; [done |].
  rewrite take_app_length' by done. rewrite drop_app_length' by done.
  by rewrite IH.
Qed.

Section DecodeTensor.
Context {T : Type} `{!Scalar T}.
Variable self : FTSliceDecoder.t T.
Variable C : nat.
Hypothesis C_ge : (2 < C)%nat.
Hypothesis C_in : FTSliceDecoder.in_dim (FTSliceDecoder.decoder self) = C.

Lemma decode_matrix (rows : list (list T)) :
  Forall (λ r, length r = C) rows →
  FTSliceDecoder.decode self (mk [length rows; C] (concat rows))
  = (mk [length rows; C] (concat (decode_row_state <$> rows)),
     Ok (mk [length rows]
           (decode_row (FTSliceDecoder.main (FTSliceDecoder.decoder self)) <$> rows))).
Proof.
  intros Hrows. unfold FTSliceDecoder.decode. cbn [shape data].
  change (reverse [length rows; C]) with [C; length rows].
  cbn [numel foldr]. rewrite Nat.mul_1_r, chunks_concat by done.
  by rewrite decode_rows_Ok.
Qed.

End DecodeTensor.

Lemma nth2_negate3 {T} `{!Scalar T} (r : list T) :
  (2 < length r)%nat → nth 2 (FTSliceDecoder.negate3 r) szero = sneg (nth 2 r szero).
Proof. destruct r as [|x [|y [|z rest]]]; simpl; (lia || done). Qed.

Lemma length_decode_row_state {T} `{!Scalar T} (r : list T) :
  length (decode_row_state r) = length r.
Proof.
  unfold decode_row_state, FTSliceDecoder.negate3.
  destruct (sgt0 (nth 2 r szero)); [| done].
  by rewrite length_app, length_fmap, <- length_app, take_drop.
Qed.

Lemma decode_row_state_changes {T} `{!Scalar T} (r : list T) :
  (2 < length r)%nat → sgt0 (nth 2 r szero) = true → decode_row_state r ≠ r.
Proof.
  intros Hlen Hz Heq. unfold decode_row_state in Heq. rewrite Hz in Heq.
  pose proof (nth2_negate3 r Hlen) as Hn. rewrite Heq in Hn.
  pose proof (sgt0_sneg _ Hz) as Hneg. rewrite <- Hn in Hneg. congruence.
Qed.

(** C4 (as the code behaves).  [decode] writes into the array it is given:
    after the call every row whose third component is strictly positive
    holds its three coordinates negated, and every other entry is
    unchanged; so the array differs from what the caller supplied as soon
    as one row has a strictly positive third component. *)
Theorem decode_negates_in_place (T : Type) (S : Scalar T)
    (self : FTSliceDecoder.t T) (C : nat) (rows : list (list T)) :
  (2 < C)%nat →
  FTSliceDecoder.in_dim (FTSliceDecoder.decoder self) = C →
  Forall (λ r, length r = C) rows →
  let lattice := mk [length rows; C] (concat rows) in
  (FTSliceDecoder.decode self lattice).1
  = mk [length rows; C]
       (concat ((λ r, if sgt0 (nth 2 r szero)
                      then (sneg <$> take 3 r) ++ drop 3 r else r) <$> rows))
  ∧ ((∃ r, r ∈ rows ∧ sgt0 (nth 2 r szero) = true) →
     (FTSliceDecoder.decode self lattice).1 ≠ lattice).
Proof.
  intros HC Hin Hrows lattice. unfold lattice.
  rewrite decode_matrix by done. cbn [fst]. split; [done |].
  intros (r & Hr & Hz) Heq. injection Heq as Heq.
  apply (f_equal (chunks C (length rows))) in Heq.
  rewrite chunks_concat in Heq by done.
  rewrite <- (length_fmap decode_row_state rows) in Heq at 1.
  rewrite chunks_concat in Heq; cycle 1.
  { apply Forall_fmap. eapply list.Forall_impl; [exact Hrows |].
    intros r' Hr'. simpl. by rewrite length_decode_row_state. }
  apply list_elem_of_lookup in Hr as [k Hk].
  apply (f_equal (λ l, l !! k)) in Heq. rewrite list_lookup_fmap, Hk in Heq.
  injection Heq as Heq.
  assert (Hlen : (2 < length r)%nat).
  { rewrite list.Forall_forall in Hrows. rewrite (Hrows r); [done |].
    by apply list_elem_of_lookup_2 in Hk. }
  exact (decode_row_state_changes r Hlen Hz Heq).
Qed.

Lemma decode_negates_in_place_witness :
  (FTSliceDecoder.decode (decoder4 3 sum_decoder) (mk [2%nat; 3%nat] [1; 2; 3; 4; 5; -6])).1
  = mk [2%nat; 3%nat] [-1; -2; -3; 4; 5; -6].
Proof.
  refine (proj1 (decode_negates_in_place Z Z_scalar (decoder4 3 sum_decoder) 3%nat
                   [[1; 2; 3]; [4; 5; -6]] _ eq_refl _)).
  - lia.
  - repeat constructor.
Defined.

(** C4 fails as stated: after decoding the single coordinate (1, 2, 3),
    whose third component is positive, the caller's array holds
    (-1, -2, -3). *)
Lemma decode_mutates_argument :
  sgt0 (3 : Z) = true
  ∧ (FTSliceDecoder.decode (decoder4 3 sum_decoder) (mk [1%nat; 3%nat] [1; 2; 3])).1
    = mk [1%nat; 3%nat] [-1; -2; -3]
  ∧ (FTSliceDecoder.decode (decoder4 3 sum_decoder) (mk [1%nat; 3%nat] [1; 2; 3])).1
    ≠ mk [1%nat; 3%nat] [1; 2; 3].
Proof.
  split; [reflexivity |]. split; [vm_compute; reflexivity |].
  intros H. vm_compute in H. discriminate H.
Qed.

(** C6.  For a coordinate [p] whose third component is strictly positive
    and the coordinate [-p] obtained by negating its three components,
    and for any network, decoding [-p] gives the same real channel as
    decoding [p] and the opposite imaginary channel.  (For a row of
    exactly three components [-p] is the negation of the whole row.) *)
Theorem decode_round_trip (T : Type) (S : Scalar T)
    (self : FTSliceDecoder.t T) (C : nat) (p : list T) :
  (2 < C)%nat →
  FTSliceDecoder.in_dim (FTSliceDecoder.decoder self) = C →
  length p = C →
  sgt0 (nth 2 p szero) = true →
  let neg_p := (sneg <$> take 3 p) ++ drop 3 p in
  (C = 3%nat → neg_p = sneg <$> p)
  ∧ sgt0 (nth 2 neg_p szero) = false
  ∧ ∃ re im re' im',
      (FTSliceDecoder.decode self (mk [1%nat; C] p)).2 = Ok (mk [1%nat] [(re, im)])
      ∧ (FTSliceDecoder.decode self (mk [1%nat; C] neg_p)).2
        = Ok (mk [1%nat] [(re', im')])
      ∧ re' = re
      ∧ im' = sneg im.
Proof.
  intros HC Hin Hlen Hz neg_p.
  assert (Hnz : sgt0 (nth 2 neg_p szero) = false).
  { unfold neg_p. fold (FTSliceDecoder.negate3 p).
    rewrite nth2_negate3 by lia. by apply sgt0_sneg. }
  split; [| split; [done |]].
  { intros ->. unfold neg_p. rewrite take_ge, drop_ge by lia. apply app_nil_r. }
  pose proof (decode_matrix self C HC Hin [p]) as Hp.
  pose proof (decode_matrix self C HC Hin [neg_p]) as Hn.
  cbn [concat length fmap list_fmap] in Hp, Hn. rewrite app_nil_r in Hp, Hn.
  rewrite Hp by (by constructor). rewrite Hn; cycle 1.
  { constructor; [| done]. unfold neg_p.
    by rewrite length_app, length_fmap, <- length_app, take_drop. }
  cbn [snd]. unfold decode_row. rewrite Hz, Hnz.
  change (FTSliceDecoder.negate3 p) with neg_p. cbv zeta.
  destruct (FTSliceDecoder.main (FTSliceDecoder.decoder self) neg_p) as [re im] eqn:Hy.
  exists re, (smul im (sneg sone)), re, im. cbn [fst snd].
  split; [done |]. split; [done |]. split; [done |].
  by rewrite smul_neg_one, sneg_involutive.
Qed.

Lemma decode_round_trip_witness :
  ∃ re im,
    (FTSliceDecoder.decode (decoder4 3 hermitian_decoder) (mk [1%nat; 3%nat] [1; 2; 3])).2
    = Ok (mk [1%nat] [(re, im)])
    ∧ (FTSliceDecoder.decode (decoder4 3 hermitian_decoder)
         (mk [1%nat; 3%nat] [-1; -2; -3])).2
      = Ok (mk [1%nat] [(re, - im)]).
Proof.
  destruct (decode_round_trip Z Z_scalar (decoder4 3 hermitian_decoder)
              3%nat [1; 2; 3] ltac:(lia) eq_refl eq_refl eq_refl)
    as (_ & _ & re & im & re' & im' & H1 & H2 & -> & ->).
  exists re, im. split; [exact H1 | exact H2].
Defined.

(** *** Blocks of a flat array *)

Lemma Forall_length_chunks {A} (k n : nat) (d : list A) :
  length d = (n * k)%nat → Forall (λ c, length c = k) (chunks k n d).
Proof.
  revert d. induction n as [|n IH]; intros d Hd; simpl; constructor.
  - rewrite length_take. simpl in Hd. lia.
  - apply IH. rewrite length_drop. simpl in Hd. lia.
Qed.

Lemma concat_chunks {A} (k n : nat) (d : list A) :
  length d = (n * k)%nat → concat (chunks k n d) = d.
Proof.
  revert d. induction n as [|n IH]; intros d Hd; simpl.
  - simpl in Hd. by destruct d.
  - rewrite IH; [apply take_drop |]. rewrite length_drop. simpl in Hd. lia.
Qed.

(** Expanding a well-formed tensor to its own shape changes nothing. *)
Lemma expand_data_refl {A} (s : list nat) :
  ∀ d : list A, length d = numel s → expand_data s s d = Ok d.
Proof.
  induction s as [|n s IH]; intros d Hd; simpl; [done |].
  rewrite Nat.eqb_refl. simpl in Hd.
  rewrite (mapM_Ok_fmap _ (λ c, c)).
  - rewrite list_fmap_id. cbn [fmap result_fmap]. by rewrite concat_chunks by lia.
  - intros c Hc. apply IH.
    pose proof (Forall_length_chunks (numel s) n d ltac:(lia)) as Hall.
    rewrite list.Forall_forall in Hall. by apply Hall.
Qed.

Lemma expand_refl {A} (t : Tensor A) :
  wf t → expand t (shape t) = Ok t.
Proof.
  intros Hwf. unfold expand. rewrite Nat.ltb_irrefl, Nat.sub_diag. simpl.
  rewrite expand_data_refl by done. by destruct t.
Qed.

Section BatchedProduct.
Context {T : Type} `{!Scalar T}.

(** The product of two batches of [B] 3×3 matrices is the batch of the
    products, the first operand on the left. *)
Lemma matmul_batch33 (a b : Tensor T) (B : nat) :
  shape a = [B; 3%nat; 3%nat] → shape b = [B; 3%nat; 3%nat] → wf a → wf b →
  matmul a b
  = Ok (mk [B; 3%nat; 3%nat]
          (concat (zip_with (mm 3 3 3) (chunks 9 B (data a)) (chunks 9 B (data b))))).
Proof.
  intros Ha Hb Hwa Hwb. unfold matmul. rewrite Ha, Hb.
  unfold matmul_batched. rewrite Ha, Hb.
  change (reverse [B; 3%nat; 3%nat]) with [3%nat; 3%nat; B].
  cbn [Nat.eqb negb broadcast_rev mbind result_bind].
  rewrite Nat.eqb_refl. cbn [fmap result_fmap mbind result_bind].
  change (reverse [B] ++ [3%nat; 3%nat]) with [B; 3%nat; 3%nat].
  rewrite <- Ha at 1. rewrite expand_refl by done.
  cbn [mbind result_bind].
  rewrite <- Hb at 1. rewrite expand_refl by done.
  cbn [mbind result_bind]. change (reverse [B]) with [B].
  cbn [numel foldr]. by rewrite Nat.mul_1_r.
Qed.
End BatchedProduct.

(** * SO3reparameterize.sampleSO3 *)

(** C1 (as the code behaves).  In evaluation mode [sampleSO3] returns the
    pair of its two arguments: the mean rotation unchanged and, in the
    place of the tangent vector, the standard deviation it was given.  No
    value is drawn: the result is the same for every state of the random
    generator, and that state is left as it was. *)
Theorem sampleSO3_eval (T : Type) (S : Scalar T) (R : RandomSource T)
    (expmap : Tensor T → result (Tensor T))
    (self : SO3reparameterize.t T) (z_mu z_std : Tensor T) (g : gen) :
  SO3reparameterize.training self = false →
  SO3reparameterize.sampleSO3 expmap self z_mu z_std g = (Ok (z_mu, z_std), g).
Proof.
  intros Hmode. unfold SO3reparameterize.sampleSO3. by rewrite Hmode.
Qed.

Lemma sampleSO3_eval_witness :
  SO3reparameterize.sampleSO3 expmap_first_order (so3_module false)
    (mk [1%nat; 3%nat; 3%nat] [1; 0; 0; 0; 1; 0; 0; 0; 1])
    (mk [1%nat; 3%nat] [1; 2; 3]) 5%nat
  = (Ok (mk [1%nat; 3%nat; 3%nat] [1; 0; 0; 0; 1; 0; 0; 0; 1],
         mk [1%nat; 3%nat] [1; 2; 3]), 5%nat).
Proof. exact (sampleSO3_eval Z _ _ _ (so3_module false) _ _ _ eq_refl). Defined.

(** C1 fails as stated: in evaluation mode, for the standard deviation
    (1, 2, 3), the second component of the result is (1, 2, 3) and not
    the zero vector. *)
Lemma sampleSO3_eval_tangent_not_zero :
  SO3reparameterize.training (so3_module false) = false
  ∧ ∀ g : gen,
      (SO3reparameterize.sampleSO3 expmap_first_order (so3_module false)
         (mk [1%nat; 3%nat; 3%nat] [1; 0; 0; 0; 1; 0; 0; 0; 1])
         (mk [1%nat; 3%nat] [1; 2; 3]) g).1
      ≠ Ok (mk [1%nat; 3%nat; 3%nat] [1; 0; 0; 0; 1; 0; 0; 0; 1],
            zeros_like (mk [1%nat; 3%nat] [1; 2; 3])).
Proof.
  split; [done |]. intros g H. vm_compute in H. discriminate H.
Qed.

(** C7 (as the code behaves).  In training mode [sampleSO3] draws [eps]
    itself, from the random generator, for the shape of [z_std]; with
    [w = eps ⊙ z_std] it returns [(z_mu @ expmap(w), w)], and it leaves
    the generator in the state after that one draw, whether or not
    [expmap] and the product succeed.  On a batch of [B] rotations the
    first component is, matrix by matrix, the product of the mean
    rotation by the rotation of [w], the mean on the left.  Besides its
    two arguments the call reads the mode flag of the module and the
    state of the generator, and the result depends on the module and on
    the generator only through that flag and the values drawn. *)
Theorem sampleSO3_train (T : Type) (S : Scalar T) (R : RandomSource T)
    (expmap : Tensor T → result (Tensor T))
    (self : SO3reparameterize.t T) (z_mu z_std : Tensor T) (g : gen) :
  SO3reparameterize.training self = true →
  let draw := randn (numel (shape z_std)) g in
  let w := mk (shape z_std) (zip_with smul draw.1 (data z_std)) in
  (SO3reparameterize.sampleSO3 expmap self z_mu z_std g).1
  = (rot_eps ← expmap w; rot_sampled ← matmul z_mu rot_eps; Ok (rot_sampled, w))
  ∧ (SO3reparameterize.sampleSO3 expmap self z_mu z_std g).2 = draw.2
  ∧ (∀ (B : nat) (rot_eps : Tensor T),
       expmap w = Ok rot_eps →
       shape z_mu = [B; 3%nat; 3%nat] → shape rot_eps = [B; 3%nat; 3%nat] →
       wf z_mu → wf rot_eps →
       (SO3reparameterize.sampleSO3 expmap self z_mu z_std g).1
       = Ok (mk [B; 3%nat; 3%nat]
               (concat (zip_with (mm 3 3 3) (chunks 9 B (data z_mu))
                                            (chunks 9 B (data rot_eps)))),
             w))
  ∧ (∀ (self' : SO3reparameterize.t T) (g' : gen),
       SO3reparameterize.training self' = true →
       (randn (numel (shape z_std)) g').1 = draw.1 →
       (SO3reparameterize.sampleSO3 expmap self' z_mu z_std g').1
       = (SO3reparameterize.sampleSO3 expmap self z_mu z_std g).1).
Proof.
  intros Hmode draw w.
  assert (Hrun : ∀ self0 g0, SO3reparameterize.training self0 = true →
            SO3reparameterize.sampleSO3 expmap self0 z_mu z_std g0
            = (let w0 := mk (shape z_std)
                            (zip_with smul (randn (numel (shape z_std)) g0).1 (data z_std)) in
               rot_eps ← expmap w0; rot_sampled ← matmul z_mu rot_eps;
               Ok (rot_sampled, w0),
               (randn (numel (shape z_std)) g0).2)).
  { intros self0 g0 H0. unfold SO3reparameterize.sampleSO3. rewrite H0.
    cbn [negb]. unfold SO3reparameterize.randn_like, mul_same. by cbn [shape data]. }
  split; [| split; [| split]].
  - by rewrite Hrun.
  - by rewrite Hrun.
  - intros B rot_eps Hexp Hmu Hrot Hwmu Hwrot. rewrite Hrun by done.
    cbn [fst]. fold draw. fold w. rewrite Hexp. cbn [mbind result_bind].
    by rewrite (matmul_batch33 z_mu rot_eps B).
  - intros self' g' Hmode' Hdraw. rewrite !Hrun by done. cbn [fst].
    by rewrite Hdraw.
Qed.

Lemma sampleSO3_train_witness :
  (SO3reparameterize.sampleSO3 expmap_first_order (so3_module true)
     (mk [1%nat; 3%nat; 3%nat] [0; -1; 0; 1; 0; 0; 0; 0; 1])
     (mk [1%nat; 3%nat] [4; 5; 6]) 0%nat).1
  = Ok (mk [1%nat; 3%nat; 3%nat] [-6; -1; -4; 1; -6; 0; 0; -4; 1],
        mk [1%nat; 3%nat] [-4; 0; 6])
  ∧ (SO3reparameterize.sampleSO3 expmap_first_order (so3_module true)
       (mk [1%nat; 3%nat; 3%nat] [0; -1; 0; 1; 0; 0; 0; 0; 1])
       (mk [1%nat; 3%nat] [4; 5; 6]) 0%nat).2 = 3%nat.
Proof.
  destruct (sampleSO3_train Z Z_scalar tape_source expmap_first_order (so3_module true)
              (mk [1%nat; 3%nat; 3%nat] [0; -1; 0; 1; 0; 0; 0; 0; 1])
              (mk [1%nat; 3%nat] [4; 5; 6]) 0%nat eq_refl) as (Hres & Hgen & _).
  split; [exact Hres | exact Hgen].
Defined.

(** C7 fails as stated: the call reads and mutates state that is not
    among its arguments.  In training mode, on the mean rotation by a
    quarter turn and the standard deviation (4, 5, 6), a call with the
    generator in state 0 leaves it in state 3; the same call from that
    state returns another pair, the draw being read from the generator;
    and the same call on a module in evaluation mode returns another pair
    again, the mode flag being read from the module. *)
Lemma sampleSO3_train_reads_and_advances_generator :
  SO3reparameterize.training (so3_module true) = true
  ∧ (SO3reparameterize.sampleSO3 expmap_first_order (so3_module true)
       (mk [1%nat; 3%nat; 3%nat] [0; -1; 0; 1; 0; 0; 0; 0; 1])
       (mk [1%nat; 3%nat] [4; 5; 6]) 0%nat).2 ≠ 0%nat
  ∧ (SO3reparameterize.sampleSO3 expmap_first_order (so3_module true)
       (mk [1%nat; 3%nat; 3%nat] [0; -1; 0; 1; 0; 0; 0; 0; 1])
       (mk [1%nat; 3%nat] [4; 5; 6]) 3%nat).1
    ≠ (SO3reparameterize.sampleSO3 expmap_first_order (so3_module true)
         (mk [1%nat; 3%nat; 3%nat] [0; -1; 0; 1; 0; 0; 0; 0; 1])
         (mk [1%nat; 3%nat] [4; 5; 6]) 0%nat).1
  ∧ (SO3reparameterize.sampleSO3 expmap_first_order (so3_module false)
       (mk [1%nat; 3%nat; 3%nat] [0; -1; 0; 1; 0; 0; 0; 0; 1])
       (mk [1%nat; 3%nat] [4; 5; 6]) 0%nat).1
    ≠ (SO3reparameterize.sampleSO3 expmap_first_order (so3_module true)
         (mk [1%nat; 3%nat; 3%nat] [0; -1; 0; 1; 0; 0; 0; 0; 1])
         (mk [1%nat; 3%nat] [4; 5; 6]) 0%nat).1.
Proof.
  split; [done |]. split; [| split]; intros H; vm_compute in H; discriminate H.
Qed.

Lemma mapM_Forall {A B} (P : B → Prop) (f : A → result B) (l : list A) :
  (∀ x, x ∈ l → ∃ y, f x = Ok y ∧ P y) →
  ∃ k, mapM f l = Ok k ∧ length k = length l ∧ Forall P k.
Proof.
  induction l as [|a l IH]; intros Hf; [by exists [] |]. rewrite mapM_result_cons.
  destruct (Hf a) as (b & Hb & HP); [constructor |]. rewrite Hb. cbn.
  destruct IH as (k & Hk & Hlen & Hall); [intros x Hx; apply Hf; by constructor |].
  rewrite Hk. cbn. exists (b :: k). split; [done |]. split; [by rewrite <- Hlen |].
  by constructor.
Qed.

(** * forward writes every pixel *)

Section ForwardTotal.
Context {T : Type} `{!Scalar T}.
Variables (C : nat) (D : Z) (net : list T → T * T).
Variable self : FTSliceDecoder.t T.
Hypothesis D_pos : 0 < D.
Hypothesis D_even : Z.even D = true.
Hypothesis C_ge : (2 < C)%nat.
Hypothesis Hself : FTSliceDecoder.__init__ C D net = Ok self.

Lemma forward_slice_total (slice : list T) :
  ∃ image,
    FTSliceDecoder.forward_slice self (Z.to_nat (D * D)) C slice = Ok image
    ∧ length image = Z.to_nat (D * D) ∧ Forall is_Some image.
Proof.
  destruct (forward_slice_spec C D net self D_pos D_even C_ge Hself slice)
    as (image & Himg & Hlen & Hall & Hbot).
  exists image. split; [done |]. split; [done |].
  apply Forall_lookup. intros j x Hj.
  assert (Hlt : (j < Z.to_nat (D * D))%nat) by (apply lookup_lt_Some in Hj; lia).
  destruct (pixel_cases C D net self D_pos D_even C_ge Hself j Hlt)
    as [Hin | (k & t & Ht & Hb)].
  - specialize (Hall _ Hin). rewrite Nat2Z.id in Hall. rewrite Hall in Hj.
    injection Hj as <-. by eexists.
  - specialize (Hbot _ _ _ Ht Hb). rewrite Nat2Z.id in Hbot. rewrite Hbot in Hj.
    injection Hj as <-. by eexists.
Qed.

(** On a batch of lattices of shape (B, D², C), [forward] returns an
    image of shape (B, D²) with every pixel written. *)
Lemma forward_batch_total (lattice : Tensor T) (B : nat) :
  shape lattice = [B; Z.to_nat (D * D); C] →
  ∃ image,
    FTSliceDecoder.forward self lattice = Ok image
    ∧ shape image = [B; Z.to_nat (D * D)]
    ∧ Forall is_Some (data image).
Proof.
  intros Hshape. unfold FTSliceDecoder.forward. rewrite Hshape.
  change (reverse [B; Z.to_nat (D * D); C]) with [C; Z.to_nat (D * D); B].
  cbv beta iota.
  destruct (numel [B] =? 0)%nat eqn:HB.
  { pose proof (self_fields C D net self D_pos Hself)
      as (Hdec & Hall & Htop & Hbot & _).
    assert (HN : (Z.to_nat (D * D) =? 0)%nat = false) by (apply Nat.eqb_neq; nia).
    assert (Ha : (length (FTSliceDecoder.all_eval self) =? 0)%nat = false).
    { rewrite Hall, (length_all_eval D) by done. apply Nat.eqb_neq.
      pose proof (D2_bounds D D_pos). nia. }
    rewrite HN, Ha. cbn [andb].
    destruct (Nat.leb_spec C 2); [lia |].
    rewrite Hdec. cbn [FTSliceDecoder.in_dim]. rewrite Nat.eqb_refl. cbn [negb].
    rewrite Htop, Hbot, length_reverse, (length_top_bottom_even D D_even).
    rewrite Nat.eqb_refl. cbn [orb].
    eexists. split; [reflexivity |]. split; [reflexivity |]. constructor. }
  destruct (mapM_Forall (λ image, Forall is_Some image)
              (FTSliceDecoder.forward_slice self (Z.to_nat (D * D)) C)
              (chunks (Z.to_nat (D * D) * C) (numel [B]) (data lattice)))
    as (images & -> & _ & Hall).
  { intros slice _. destruct (forward_slice_total slice) as (image & ? & _ & ?).
    by exists image. }
  cbn [mbind result_bind]. eexists. split; [done |]. split; [done |].
  cbn [data]. clear -Hall. induction Hall as [|image images Hi _ IH]; simpl.
  - constructor.
  - by apply Forall_app.
Qed.
End ForwardTotal.

(** * HetVAE *)

(** C8 (as the code behaves).  [HetVAE.forward] makes no test on the
    entries of [rot]: for a model with a one-dimensional latent code on an
    even grid, any batch of B matrices of size 3×3, orthonormal or not,
    and any latent code of shape (B, 1), the call succeeds and returns an
    image of shape (B, D²) with every pixel written. *)
Theorem forward_accepts_any_matrix (T : Type) (S : Scalar T)
    (lattice : HetVAE.Lattice T) (net : list T → T * T) (self : HetVAE.t T)
    (rot z : Tensor T) (B : nat) :
  0 < HetVAE.D lattice → Z.even (HetVAE.D lattice) = true →
  shape (HetVAE.coords lattice)
  = [Z.to_nat (HetVAE.D lattice * HetVAE.D lattice); 3%nat] →
  HetVAE.__init__ lattice 1 net = Ok self →
  shape rot = [B; 3%nat; 3%nat] →
  shape z = [B; 1%nat] →
  ∃ image,
    HetVAE.forward self rot z = Ok image
    ∧ shape image = [B; Z.to_nat (HetVAE.D lattice * HetVAE.D lattice)]
    ∧ Forall is_Some (data image).
Proof.
  intros Hpos Hev Hcoords Hinit Hrot Hz.
  unfold HetVAE.__init__ in Hinit.
  destruct (FTSliceDecoder.__init__ (3 + 1) (HetVAE.D lattice) net) as [dec | e] eqn:Hdec;
    [| discriminate Hinit].
  injection Hinit as <-. unfold HetVAE.forward. cbn [HetVAE.lattice HetVAE.decoder].
  destruct (matmul_coords_shape _ rot _ B Hcoords Hrot) as (x & -> & Hx).
  cbn [mbind result_bind].
  destruct (cat_z_shape x z B [Z.to_nat (HetVAE.D lattice * HetVAE.D lattice)] Hx Hz)
    as (y & -> & Hy).
  cbn [mbind result_bind].
  apply (forward_batch_total 4 (HetVAE.D lattice) net dec Hpos Hev ltac:(lia) Hdec y B Hy).
Qed.

Lemma forward_accepts_any_matrix_witness :
  HetVAE.__init__ lattice2 1 sum_decoder = Ok (hetvae2 sum_decoder)
  ∧ ∃ image,
      HetVAE.forward (hetvae2 sum_decoder)
        (mk [1%nat; 3%nat; 3%nat] [2; 0; 0; 0; 2; 0; 0; 0; 2]) (mk [1%nat; 1%nat] [7])
      = Ok image
      ∧ shape image = [1%nat; 4%nat].
Proof.
  split; [vm_compute; reflexivity |].
  destruct (forward_accepts_any_matrix Z Z_scalar lattice2 sum_decoder
              (hetvae2 sum_decoder)
              (mk [1%nat; 3%nat; 3%nat] [2; 0; 0; 0; 2; 0; 0; 0; 2])
              (mk [1%nat; 1%nat] [7]) 1%nat
              ltac:(simpl; lia) eq_refl eq_refl eq_refl eq_refl eq_refl)
    as (image & Himg & Hshape & _).
  exists image. split; [exact Himg | exact Hshape].
Defined.

(** C8 fails as stated: the matrix 2·I is not orthonormal (its transpose
    times itself is 4·I), and [forward] on it returns an image. *)
Lemma forward_non_orthonormal_succeeds :
  ¬ HetVAE.orthonormal (T := Z) [2; 0; 0; 0; 2; 0; 0; 0; 2]
  ∧ HetVAE.__init__ lattice2 1 sum_decoder = Ok (hetvae2 sum_decoder)
  ∧ HetVAE.forward (hetvae2 sum_decoder)
      (mk [1%nat; 3%nat; 3%nat] [2; 0; 0; 0; 2; 0; 0; 0; 2]) (mk [1%nat; 1%nat] [7])
    = Ok (mk [1%nat; 4%nat] [Some 3; Some 5; Some 5; Some 7]).
Proof.
  split; [| split; vm_compute; reflexivity].
  unfold HetVAE.orthonormal. intros H. vm_compute in H. discriminate H.
Qed.

(** *** cat_z *)

Lemma numel_ones (B k : nat) : numel (B :: replicate k 1%nat) = B.
Proof.
  simpl. assert (numel (replicate k 1%nat) = 1%nat) as ->; [| lia].
  induction k as [|k IH]; simpl; [done | lia].
Qed.

Lemma chunks_1 {A} (n : nat) (d : list A) :
  length d = n → chunks 1 n d = (λ x, [x]) <$> d.
Proof.
  revert d. induction n as [|n IH]; intros [|x d] Hd; try done; simpl in *.
  f_equal. rewrite drop_0. apply IH. lia.
Qed.

Lemma length_bind_replicate {A} (N : nat) (zs : list A) :
  length (zs ≫= replicate N) = (length zs * N)%nat.
Proof.
  induction zs as [|x zs IH]; csimpl; [done |].
  by rewrite length_app, length_replicate, IH.
Qed.

Section CatZ.
Context {T : Type} `{!Scalar T}.

Lemma cat_z_raises (coords z : Tensor T) (B zd : nat) :
  shape z = [B; zd] → (0 < B)%nat → (1 < zd)%nat →
  ∃ e, HetVAE.cat_z coords z = Raise e.
Proof.
  intros Hz HB Hzd. unfold HetVAE.cat_z.
  destruct (reverse (shape coords)) as [|c l]; [by eexists |].
  destruct (c =? 3)%nat; cbn [negb]; [| by eexists].
  rewrite Hz. unfold view. rewrite Hz, numel_ones.
  destruct (Nat.eqb_spec (numel [B; zd]) B) as [Heq | _]; [| by eexists].
  simpl in Heq. nia.
Qed.

(** The latent value of each image repeated over its [N] pixels. *)
Lemma expand_latent (B N : nat) (zs : list T) :
  length zs = B →
  expand_data [B; 1%nat; 1%nat] [B; N; 1%nat] zs = Ok (zs ≫= replicate N).
Proof.
  intros Hlen. cbn [expand_data]. rewrite Nat.eqb_refl.
  cbn [numel foldr]. change (1 * (1 * 1))%nat with 1%nat.
  rewrite chunks_1 by done.
  rewrite (mapM_Ok_fmap _ (λ c, c ≫= replicate N)).
  - cbn [fmap result_fmap]. f_equal. clear Hlen.
    induction zs as [|x zs IH]; csimpl; [done |].
    rewrite app_nil_r. by f_equal.
  - intros c Hc. apply list_elem_of_fmap in Hc as (x & -> & _).
    assert (Hrow : [x] ≫= replicate N = replicate N x) by apply app_nil_r.
    rewrite Hrow. cbn [expand_data].
    destruct (Nat.eqb_spec 1 N) as [<- | _]; [reflexivity |].
    cbn. f_equal. clear. induction N as [|N IH]; simpl; [done | by f_equal].
Qed.

Lemma cat_z_data (coords z : Tensor T) (B N : nat) :
  shape coords = [B; N; 3%nat] → shape z = [B; 1%nat] → wf z →
  HetVAE.cat_z coords z
  = Ok (mk [B; N; 4%nat]
          (concat (zip_with (λ row zb, row ++ [zb])
                     (chunks 3 (B * N) (data coords))
                     (data z ≫= replicate N)))).
Proof.
  intros Hc Hz Hwz. unfold HetVAE.cat_z. rewrite Hc, Hz.
  change (reverse [B; N; 3%nat]) with [3%nat; N; B]. cbn [Nat.eqb negb length].
  unfold view. rewrite Hz. change (3 - 1)%nat with 2%nat.
  rewrite (numel_ones B 2).
  assert (numel [B; 1%nat] = B) as -> by (simpl; lia). rewrite Nat.eqb_refl.
  cbn [mbind result_bind].
  change (expand (mk (B :: replicate 2 1%nat) (data z)) (take 2 [B; N; 3%nat] ++ [1%nat]))
    with (mk [B; N; 1%nat] <$> expand_data [B; 1%nat; 1%nat] [B; N; 1%nat] (data z)).
  rewrite expand_latent; cycle 1.
  { unfold wf in Hwz. rewrite Hz in Hwz. simpl in Hwz. lia. }
  cbn [fmap result_fmap mbind result_bind]. unfold cat_last. rewrite Hc.
  cbn [shape data].
  change (reverse [B; N; 3%nat]) with [3%nat; N; B].
  change (reverse [B; N; 1%nat]) with [1%nat; N; B].
  cbv beta iota.
  rewrite bool_decide_eq_true_2 by done.
  change (reverse [(3 + 1)%nat; N; B]) with [B; N; 4%nat].
  cbn [numel foldr]. rewrite Nat.mul_1_r. do 3 f_equal.
  rewrite chunks_1; cycle 1.
  { rewrite length_bind_replicate. unfold wf in Hwz. rewrite Hz in Hwz.
    simpl in Hwz. lia. }
  rewrite zip_with_fmap_r. by rewrite (Nat.mul_comm N B).
Qed.
End CatZ.

(** C9 (as the code behaves).  [cat_z] supports a one-dimensional latent
    code only: for a non-empty batch (B ≥ 1) and a latent code of shape
    (B, z_dim) with z_dim > 1, [cat_z] raises for every coordinate array,
    and so does [HetVAE.forward]; for a latent code of shape (B, 1) and
    coordinates of shape (B, ..., 3) it succeeds with a result of shape
    (B, ..., 4), and on coordinates of shape (B, N, 3) every coordinate
    row is followed by the latent value of its image and nothing else is
    changed. *)
Theorem cat_z_one_dimensional_latent (T : Type) (S : Scalar T) :
  (∀ (coords z : Tensor T) (B zd : nat),
     shape z = [B; zd] → (0 < B)%nat → (1 < zd)%nat →
     ∃ e, HetVAE.cat_z coords z = Raise e)
  ∧ (∀ (self : HetVAE.t T) (rot z : Tensor T) (B zd : nat),
       shape z = [B; zd] → (0 < B)%nat → (1 < zd)%nat →
       ∃ e, HetVAE.forward self rot z = Raise e)
  ∧ (∀ (coords z : Tensor T) (B : nat) (rest : list nat),
       shape coords = B :: rest ++ [3%nat] → shape z = [B; 1%nat] →
       ∃ y, HetVAE.cat_z coords z = Ok y ∧ shape y = B :: rest ++ [4%nat])
  ∧ (∀ (coords z : Tensor T) (B N : nat),
       shape coords = [B; N; 3%nat] → shape z = [B; 1%nat] → wf z →
       HetVAE.cat_z coords z
       = Ok (mk [B; N; 4%nat]
               (concat (zip_with (λ row zb, row ++ [zb])
                          (chunks 3 (B * N) (data coords))
                          (data z ≫= replicate N))))).
Proof.
  split; [| split; [| split]].
  - intros coords z B zd. apply cat_z_raises.
  - intros self rot z B zd Hz HB Hzd. unfold HetVAE.forward.
    destruct (matmul _ rot) as [x | e]; [| by eexists]. cbn [mbind result_bind].
    destruct (cat_z_raises x z B zd Hz HB Hzd) as [e ->]. by eexists.
  - intros coords z B rest. apply cat_z_shape.
  - intros coords z B N. apply cat_z_data.
Qed.

Lemma cat_z_one_dimensional_latent_witness :
  (∃ e, HetVAE.cat_z (mk [2%nat; 2%nat; 3%nat] [1; 2; 3; 4; 5; 6; 7; 8; 9; 10; 11; 12])
          (mk [2%nat; 2%nat] [100; 200; 300; 400]) = Raise e)
  ∧ HetVAE.cat_z (mk [2%nat; 2%nat; 3%nat] [1; 2; 3; 4; 5; 6; 7; 8; 9; 10; 11; 12])
      (mk [2%nat; 1%nat] [100; 200])
    = Ok (mk [2%nat; 2%nat; 4%nat]
            [1; 2; 3; 100; 4; 5; 6; 100; 7; 8; 9; 200; 10; 11; 12; 200]).
Proof.
  destruct (cat_z_one_dimensional_latent Z Z_scalar) as (Hraise & _ & _ & Hdata).
  split.
  - apply (Hraise _ (mk [2%nat; 2%nat] [100; 200; 300; 400]) 2%nat 2%nat eq_refl); lia.
  - exact (Hdata (mk [2%nat; 2%nat; 3%nat] [1; 2; 3; 4; 5; 6; 7; 8; 9; 10; 11; 12])
             (mk [2%nat; 1%nat] [100; 200]) 2%nat 2%nat eq_refl eq_refl eq_refl).
Defined.

(** C9 fails as stated on the empty batch: a latent code of shape (0, 2)
    has no element, the reshaping to (0, 1, 1) succeeds, and both [cat_z]
    and [forward] return an (empty) result. *)
Lemma cat_z_empty_batch_succeeds :
  HetVAE.cat_z (mk [0%nat; 4%nat; 3%nat] ([] : list Z)) (mk [0%nat; 2%nat] [])
  = Ok (mk [0%nat; 4%nat; 4%nat] [])
  ∧ HetVAE.forward (hetvae2 sum_decoder) (mk [0%nat; 3%nat; 3%nat] [])
      (mk [0%nat; 2%nat] [])
    = Ok (mk [0%nat; 4%nat] []).
Proof. split; vm_compute; reflexivity. Qed.

(** * Further properties of the index sets *)

(** X1.  On an even grid [bottom_rev] is [top] reflected through the
    centre pixel, in the same order: the k-th destination pixel is
    D² + D - t for the k-th source pixel t, that is, the pixel of row
    D - r and column D - c for the source at row r and column c. *)
Theorem bottom_rev_reflects_top (T : Type) (S : Scalar T) (in_dim : nat)
    (net : list T → T * T) (D : Z) :
  0 < D → Z.even D = true →
  ∃ self,
    FTSliceDecoder.__init__ in_dim D net = Ok self
    ∧ FTSliceDecoder.bottom_rev self
      = (λ t, D * D + D - t) <$> FTSliceDecoder.top self
    ∧ (∀ k t, FTSliceDecoder.top self !! k = Some t →
              1 ≤ t `div` D < D ∧ 1 ≤ t `mod` D < D
              ∧ FTSliceDecoder.bottom_rev self !! k
                = Some ((D - t `div` D) * D + (D - t `mod` D))).
Proof.
  intros Hpos Hev. eexists. split; [by apply init_closed |].
  cbn [FTSliceDecoder.bottom_rev FTSliceDecoder.top].
  split; [by apply bottom_rev_mirror |].
  intros k t Ht. rewrite (bottom_rev_mirror D Hpos Hev), list_lookup_fmap, Ht.
  apply list_elem_of_lookup_2, (elem_of_top D Hpos) in Ht
    as (r & c & -> & Hc & Hr).
  pose proof (D2_bounds D Hpos).
  assert (Hdiv : (r * D + c) `div` D = r).
  { rewrite Z.add_comm, Z.div_add by lia. rewrite Z.div_small by lia. lia. }
  assert (Hmod : (r * D + c) `mod` D = c).
  { rewrite Z.add_comm, Z.mod_add by lia. apply Z.mod_small. lia. }
  rewrite Hdiv, Hmod. split; [lia |]. split; [lia |]. cbn. f_equal. lia.
Qed.

Lemma bottom_rev_reflects_top_witness :
  ∃ self,
    FTSliceDecoder.__init__ 3 4 (sum_decoder (T := Z)) = Ok self
    ∧ FTSliceDecoder.bottom_rev self
      = (λ t, 4 * 4 + 4 - t) <$> FTSliceDecoder.top self.
Proof.
  destruct (bottom_rev_reflects_top Z Z_scalar 3%nat sum_decoder 4
              ltac:(lia) ltac:(reflexivity)) as (self & Hs & Hb & _).
  exists self. split; [exact Hs | exact Hb].
Defined.

(** X2.  On an even grid the network is evaluated at D²/2 + D pixels
    ([all_eval]) and D²/2 - D pixels are filled by mirroring ([top] and
    [bottom_rev] have that many indices each): the two counts add up to
    D². *)
Theorem evaluated_pixel_count (T : Type) (S : Scalar T) (in_dim : nat)
    (net : list T → T * T) (D : Z) :
  0 < D → Z.even D = true →
  ∃ self,
    FTSliceDecoder.__init__ in_dim D net = Ok self
    ∧ 2 * Z.of_nat (length (FTSliceDecoder.all_eval self)) = D * D + 2 * D
    ∧ 2 * Z.of_nat (length (FTSliceDecoder.top self)) = D * D - 2 * D
    ∧ length (FTSliceDecoder.bottom_rev self) = length (FTSliceDecoder.top self).
Proof.
  intros Hpos Hev. eexists. split; [by apply init_closed |].
  cbn [FTSliceDecoder.bottom_rev FTSliceDecoder.top FTSliceDecoder.all_eval].
  pose proof (even_half D Hev) as Hh. pose proof (D2_bounds D Hpos) as Hb.
  rewrite length_reverse, <- (length_top_bottom_even D Hev).
  rewrite length_all_eval by done. rewrite length_top.
  set (D2 := D `div` 2) in *.
  split; [| split; [| done]].
  - rewrite Z2Nat.id by nia. nia.
  - rewrite Nat2Z.inj_add, Nat2Z.inj_mul, !Z2Nat.id by lia. nia.
Qed.

Lemma evaluated_pixel_count_witness :
  ∃ self,
    FTSliceDecoder.__init__ 3 4 (sum_decoder (T := Z)) = Ok self
    ∧ length (FTSliceDecoder.all_eval self) = 12%nat
    ∧ length (FTSliceDecoder.top self) = 4%nat.
Proof.
  destruct (evaluated_pixel_count Z Z_scalar 3%nat sum_decoder 4
              ltac:(lia) ltac:(reflexivity)) as (self & Hs & Ha & Ht & _).
  exists self. split; [exact Hs |]. split; lia.
Defined.

(** X3.  On an even grid the evaluated pixels that are not the source of a
    mirrored pixel are exactly the first row, the first column and the
    centre pixel: [top] is the upper half up to, but not including, the
    centre, without the top row and the left-most column. *)
Theorem unpaired_pixels (T : Type) (S : Scalar T) (in_dim : nat)
    (net : list T → T * T) (D : Z) :
  0 < D → Z.even D = true →
  ∃ self,
    FTSliceDecoder.__init__ in_dim D net = Ok self
    ∧ ∀ i, (i ∈ FTSliceDecoder.all_eval self ∧ i ∉ FTSliceDecoder.top self)
           ↔ (0 ≤ i < D * D
              ∧ (i < D ∨ i `mod` D = 0 ∨ i = FTSliceDecoder.center self)).
Proof.
  intros Hpos Hev. eexists. split; [by apply init_closed |].
  cbn [FTSliceDecoder.center FTSliceDecoder.top FTSliceDecoder.all_eval].
  pose proof (even_half D Hev) as Hh. pose proof (D2_bounds D Hpos) as Hb.
  pose proof (center_lt D Hpos) as Hcl.
  intros i. rewrite (elem_of_all_eval D), (elem_of_top D Hpos).
  set (D2 := D `div` 2) in *.
  split.
  - intros [Ha Hnt].
    assert (Hrange : 0 ≤ i < D * D).
    { destruct Ha as [? | (r & Hr & ->)]; nia. }
    split; [done |].
    pose proof (Z.div_mod i D ltac:(lia)) as Hdm.
    pose proof (Z.mod_pos_bound i D ltac:(lia)) as Hm.
    set (r := i `div` D) in *. set (c := i `mod` D) in *.
    destruct (decide (c = 0)) as [? | Hc0]; [by right; left |].
    destruct (decide (i < D)) as [? | Hrow]; [by left |].
    right. right.
    assert (Hr1 : 1 ≤ r) by nia.
    destruct Ha as [Hle | (r' & Hr' & Heq)].
    + assert (Hr2 : r ≤ D2) by nia.
      destruct (decide (r = D2)) as [HrD2 | HrD2].
      * destruct (decide (c < D - D2)) as [Hlt | Hge].
        -- exfalso. apply Hnt. exists r, c. split; [lia |]. split; [lia |].
           right. done.
        -- rewrite HrD2 in Hdm. nia.
      * exfalso. apply Hnt. exists r, c. split; [lia |]. split; [lia |].
        left. lia.
    + exfalso. apply Hc0.
      destruct (row_col_unique D Hpos r c r' 0) as [_ ?]; lia.
  - intros [Hrange Hcases]. split.
    + destruct Hcases as [Hrow | [Hcol | ->]].
      * left. nia.
      * pose proof (Z.div_mod i D ltac:(lia)) as Hdm. rewrite Hcol in Hdm.
        destruct (decide (i `div` D ≤ D2)) as [Hle | Hgt].
        -- left. nia.
        -- right. exists (i `div` D). split; [nia | lia].
      * left. nia.
    + intros (r & c & -> & Hc & Hr).
      destruct Hcases as [Hrow | [Hcol | Hcen]].
      * nia.
      * rewrite Z.add_comm, Z.mod_add, Z.mod_small in Hcol by lia. lia.
      * destruct (row_col_unique D Hpos r c D2 D2) as [? ?]; lia.
Qed.

Lemma unpaired_pixels_witness :
  ∃ self,
    FTSliceDecoder.__init__ 3 4 (sum_decoder (T := Z)) = Ok self
    ∧ (10 ∈ FTSliceDecoder.all_eval self ∧ 10 ∉ FTSliceDecoder.top self).
Proof.
  destruct (unpaired_pixels Z Z_scalar 3%nat sum_decoder 4
              ltac:(lia) ltac:(reflexivity)) as (self & Hs & Hiff).
  exists self. split; [exact Hs |]. apply Hiff.
  vm_compute in Hs. injection Hs as <-. split; [lia |]. right. right. reflexivity.
Defined.

(** * forward on lattices of any number of rows *)

Lemma mapM_Raise {A B} (f : A → result B) (e : exn) (l : list A) :
  (∀ x, x ∈ l → is_Ok (f x) ∨ f x = Raise e) →
  (∃ x, x ∈ l ∧ f x = Raise e) →
  mapM f l = Raise e.
Proof.
  induction l as [|a l IH]; intros Hall (x & Hx & Hfx).
  - by apply elem_of_nil in Hx.
  - rewrite mapM_result_cons.
    destruct (Hall a ltac:(constructor)) as [[b Hb] | Hr]; [| by rewrite Hr].
    rewrite Hb. cbn. rewrite IH; [done | |].
    + intros y Hy. apply Hall. by constructor.
    + apply elem_of_cons in Hx as [-> | Hx]; [congruence |]. eauto.
Qed.

Lemma index_total {A} (l : list A) (i : Z) :
  is_Ok (index l i) ∨ index l i = Raise IndexError.
Proof.
  unfold index. destruct (position (length l) i) as [j | e] eqn:Hp; cbn.
  - destruct (l !! j); cbn; [left; by eexists | by right].
  - right. unfold position in Hp.
    destruct (_ && _) in Hp; [done |]. by injection Hp as <-.
Qed.

Lemma index_out_of_range {A} (l : list A) (i : Z) :
  Z.of_nat (length l) ≤ i → index l i = Raise IndexError.
Proof.
  intros Hi. unfold index, position.
  destruct (Z.ltb_spec i 0); [lia |].
  destruct (Z.ltb_spec i (Z.of_nat (length l))); [lia |].
  by rewrite andb_false_r.
Qed.

Lemma index_select_out_of_range {A} (l : list A) (idx : list Z) (i : Z) :
  i ∈ idx → Z.of_nat (length l) ≤ i → index_select l idx = Raise IndexError.
Proof.
  intros Hin Hi. apply mapM_Raise.
  - intros x _. apply index_total.
  - exists i. split; [done |]. by apply index_out_of_range.
Qed.

(** Writing through a list of indices one of which is out of range
    raises, whatever was written before. *)
Lemma write_all_out_of_range {A} (idx : list Z) :
  ∀ (l : list A) (vals : list A) (i : Z),
    length vals = length idx →
    (∀ j, j ∈ idx → 0 ≤ j) →
    i ∈ idx → Z.of_nat (length l) ≤ i →
    write_all l idx vals = Raise IndexError.
Proof.
  induction idx as [|j idx IH]; intros l vals i Hlen Hnn Hin Hi.
  - by apply elem_of_nil in Hin.
  - destruct vals as [|v vals]; [done |]. simpl in Hlen. simpl.
    assert (0 ≤ j) by (apply Hnn; constructor).
    destruct (decide (j < Z.of_nat (length l))) as [Hj | Hj].
    + rewrite position_Ok by lia. cbn.
      apply elem_of_cons in Hin as [-> | Hin]; [lia |].
      apply (IH _ _ i); [lia | | done |].
      * intros j' Hj'. apply Hnn. by constructor.
      * by rewrite length_insert.
    + unfold position. destruct (Z.ltb_spec j 0); [lia |].
      destruct (Z.ltb_spec j (Z.of_nat (length l))); [lia |].
      by rewrite andb_false_r.
Qed.

Lemma numel_app (a b : list nat) : numel (a ++ b) = (numel a * numel b)%nat.
Proof.
  unfold numel. induction a as [|x a IH]; simpl; [lia |]. rewrite IH. lia.
Qed.

Lemma numel_reverse (s : list nat) : numel (reverse s) = numel s.
Proof.
  induction s as [|x s IH]; [done |].
  rewrite reverse_cons, numel_app, IH. simpl. lia.
Qed.

Section ForwardRows.
Context {T : Type} `{!Scalar T}.
Variables (C : nat) (D : Z) (net : list T → T * T).
Variable self : FTSliceDecoder.t T.
Variable N : nat.
Variable slice : list T.
Hypothesis D_pos : 0 < D.
Hypothesis Hself : FTSliceDecoder.__init__ C D net = Ok self.

Let rows := chunks C N slice.
Let px (i : Z) : list T := rows !!! Z.to_nat i.

Lemma rows_lookup i : 0 ≤ i < Z.of_nat N → rows !! Z.to_nat i = Some (px i).
Proof.
  intros Hi. unfold px. apply list_lookup_lookup_total_lt.
  unfold rows. rewrite length_chunks. lia.
Qed.

Hypothesis C_ge : (2 < C)%nat.
Hypothesis N_ge : D * D ≤ Z.of_nat N.

(** The first half of [forward]: the pixels of [all_eval] hold
    [real - imag] of what [decode] returns for them, every other pixel is
    still unwritten, and what is left to do is the write of the mirrored
    values of [top] at [bottom_rev]. *)
Lemma forward_slice_upper :
  ∃ image1,
    length image1 = N
    ∧ (∀ i, i ∈ FTSliceDecoder.all_eval self →
            image1 !! Z.to_nat i = Some (Some (hartley (decode_row net (px i)))))
    ∧ (∀ j, (j < N)%nat →
            (∀ i, i ∈ FTSliceDecoder.all_eval self → Z.to_nat i ≠ j) →
            image1 !! j = Some None)
    ∧ FTSliceDecoder.forward_slice self N C slice
      = index_put image1 (FTSliceDecoder.bottom_rev self)
          (Some <$> ((λ t, mirror (decode_row net (px t)))
                       <$> FTSliceDecoder.top self)).
Proof.
  pose proof (self_fields C D net self D_pos Hself) as (Hdec & Hall & Htop & Hbot & Hcen).
  assert (Hin : ∀ i, i ∈ FTSliceDecoder.all_eval self → 0 ≤ i < Z.of_nat N).
  { intros i Hi. rewrite Hall in Hi.
    assert (0 ≤ i < D * D); [| lia].
    apply (all_eval_bottom_cover D D_pos). by left. }
  unfold FTSliceDecoder.forward_slice. fold rows.
  rewrite (index_select_Ok rows _ px); cycle 1.
  { intros i Hi. apply Hin in Hi. split; [lia | by apply rows_lookup]. }
  cbn [mbind result_bind].
  rewrite decode_rows_Ok by (done || by rewrite Hdec).
  cbn [snd]. rewrite Hdec. cbn [FTSliceDecoder.main mbind result_bind].
  set (top_half := decode_row net <$> (px <$> FTSliceDecoder.all_eval self)).
  destruct (index_put_spec (replicate N (@None T)) (FTSliceDecoder.all_eval self)
              ((λ y : T * T, Some (ssub y.1 y.2)) <$> top_half))
    as (image1 & Hput1 & Hlen1 & Hval1 & Hkeep1).
  { intros i Hi. rewrite length_replicate. by apply Hin. }
  { unfold top_half. by rewrite !length_fmap. }
  { rewrite Hall. by apply NoDup_all_eval. }
  rewrite Hput1. cbn [mbind result_bind].
  assert (Htophalf : ∀ t, t ∈ FTSliceDecoder.top self →
            0 ≤ t ∧ top_half !! Z.to_nat t = Some (decode_row net (px t))).
  { intros t Ht. rewrite Htop in Ht. apply (top_le_center D D_pos) in Ht.
    split; [lia |]. unfold top_half.
    by rewrite !list_lookup_fmap, Hall, all_eval_lookup_prefix. }
  rewrite (index_select_fmap_Ok fst top_half _ (λ t, decode_row net (px t))) by done.
  cbn [mbind result_bind].
  rewrite (index_select_fmap_Ok snd top_half _ (λ t, decode_row net (px t))) by done.
  cbn [mbind result_bind].
  assert (Hzip : zip_with sadd
                   ((λ t, (decode_row net (px t)).1) <$> FTSliceDecoder.top self)
                   ((λ t, (decode_row net (px t)).2) <$> FTSliceDecoder.top self)
                 = (λ t, mirror (decode_row net (px t))) <$> FTSliceDecoder.top self).
  { generalize (FTSliceDecoder.top self). intros l.
    induction l as [|t l IH]; csimpl; [done | by f_equal]. }
  rewrite Hzip. exists image1.
  split; [by rewrite Hlen1, length_replicate |]. split; [| split; [| done]].
  - intros i Hi. apply list_elem_of_lookup in Hi as [k Hk].
    apply (Hval1 k); [done |]. unfold top_half. by rewrite !list_lookup_fmap, Hk.
  - intros j Hj Hne. rewrite Hkeep1 by done. by apply lookup_replicate_2.
Qed.

(** On an even grid the second half succeeds: every pixel of the D×D
    grid is then written and the rows beyond it are left as they
    were. *)
Lemma forward_slice_rows :
  Z.even D = true →
  ∃ image,
    FTSliceDecoder.forward_slice self N C slice = Ok image
    ∧ length image = N
    ∧ (∀ i, i ∈ FTSliceDecoder.all_eval self →
            image !! Z.to_nat i = Some (Some (hartley (decode_row net (px i)))))
    ∧ (∀ t, t ∈ FTSliceDecoder.top self →
            image !! Z.to_nat (D * D + D - t)
            = Some (Some (mirror (decode_row net (px t)))))
    ∧ (∀ j, D * D ≤ Z.of_nat j < Z.of_nat N → image !! j = Some None).
Proof.
  intros D_even.
  pose proof (self_fields C D net self D_pos Hself) as (Hdec & Hall & Htop & Hbot & Hcen).
  destruct forward_slice_upper as (image1 & Hlen1 & Hval1 & Hnone1 & ->).
  assert (Hrange : ∀ b, b ∈ FTSliceDecoder.bottom_rev self → 0 ≤ b < D * D).
  { intros b Hb. rewrite Hbot, elem_of_reverse in Hb.
    apply (all_eval_bottom_cover D D_pos). by right. }
  destruct (index_put_spec image1 (FTSliceDecoder.bottom_rev self)
              (Some <$> ((λ t, mirror (decode_row net (px t))) <$> FTSliceDecoder.top self)))
    as (image2 & Hput2 & Hlen2 & Hval2 & Hkeep2).
  { intros i Hi. rewrite Hlen1. apply Hrange in Hi. lia. }
  { rewrite !length_fmap, Htop, Hbot, length_reverse.
    by apply length_top_bottom_even. }
  { rewrite Hbot, reverse_Permutation. by apply NoDup_bottom. }
  exists image2. split; [done |]. split; [by rewrite Hlen2 |].
  split; [| split].
  - intros i Hi. rewrite Hkeep2; [by apply Hval1 |].
    intros b Hb Heq.
    assert (0 ≤ i < D * D).
    { rewrite Hall in Hi. apply (all_eval_bottom_cover D D_pos). by left. }
    pose proof (Hrange b Hb). assert (b = i) as -> by lia.
    rewrite Hall in Hi. rewrite Hbot, elem_of_reverse in Hb.
    by apply (all_eval_bottom_disjoint D D_pos i).
  - intros t Ht. apply list_elem_of_lookup in Ht as [k Hk].
    apply (Hval2 k).
    + rewrite Hbot, (bottom_rev_mirror D D_pos D_even), list_lookup_fmap, <- Htop.
      by rewrite Hk.
    + by rewrite !list_lookup_fmap, Hk.
  - intros j Hj. rewrite Hkeep2.
    + apply Hnone1; [lia |]. intros i Hi Heq.
      assert (0 ≤ i < D * D); [| lia].
      rewrite Hall in Hi. apply (all_eval_bottom_cover D D_pos). by left.
    + intros b Hb Heq. apply Hrange in Hb. lia.
Qed.

End ForwardRows.

(** * forward on fewer rows than the grid has pixels *)

Section ForwardFewRows.
Context {T : Type} `{!Scalar T}.
Variables (in_dim C : nat) (D : Z) (net : list T → T * T).
Variable self : FTSliceDecoder.t T.
Variable N : nat.
Variable slice : list T.
Hypothesis D_pos : 0 < D.
Hypothesis D_even : Z.even D = true.
Hypothesis Hself : FTSliceDecoder.__init__ in_dim D net = Ok self.

Let rows := chunks C N slice.
Let px (i : Z) : list T := rows !!! Z.to_nat i.
Let D2 := D `div` 2.

(** The largest index of [all_eval] is the centre pixel on the 2×2 grid
    and the first pixel of the last row on every larger even grid. *)
Lemma all_eval_within :
  (∀ i, i ∈ FTSliceDecoder.all_eval self → 0 ≤ i < Z.of_nat N)
  ↔ Z.max (D2 * D + D2) (D * D - D) < Z.of_nat N.
Proof.
  pose proof (self_fields in_dim D net self D_pos Hself) as (_ & Hall & _).
  pose proof (D2_bounds D D_pos) as Hb. pose proof (even_half D D_even) as Hh.
  fold D2 in Hb, Hh. rewrite Hall. fold D2. split.
  - intros Hin.
    assert (D2 * D + D2 < Z.of_nat N).
    { apply Hin, (elem_of_all_eval D). left. nia. }
    destruct (decide (D2 < D - 1)) as [Hlt | Hge].
    + assert (D * D - D < Z.of_nat N); [| lia].
      assert ((D - 1) * D < Z.of_nat N); [| lia].
      apply Hin, (elem_of_all_eval D). right. exists (D - 1). lia.
    + assert (D2 = 1) by lia. assert (D = 2) by lia. nia.
  - intros Hmax i Hi. apply (elem_of_all_eval D) in Hi.
    destruct Hi as [Hle | (r & Hr & ->)]; [lia | nia].
Qed.

(** With too few rows for the D×D grid, one slice fails: at the gather
    of the rows of [all_eval] when one of them is missing; otherwise in
    [decode], on the third component or in the network; otherwise at
    the write of the last pixel of the grid, which is in
    [bottom_rev]. *)
Lemma forward_slice_too_few :
  Z.of_nat N < D * D →
  FTSliceDecoder.forward_slice self N C slice
  = Raise (if (2 <? C)%nat && negb (C =? in_dim)%nat
              && (Z.max (D2 * D + D2) (D * D - D) <? Z.of_nat N)
           then RuntimeError else IndexError).
Proof.
  intros HN.
  pose proof (self_fields in_dim D net self D_pos Hself)
    as (Hdec & Hall & Htop & Hbot & Hcen).
  fold D2 in Hall, Htop, Hbot, Hcen.
  unfold FTSliceDecoder.forward_slice. fold rows.
  destruct (Z.ltb_spec (Z.max (D2 * D + D2) (D * D - D)) (Z.of_nat N))
    as [Hmax | Hmax]; cycle 1.
  { rewrite andb_false_r.
    destruct (decide (Exists (λ i, Z.of_nat N ≤ i) (FTSliceDecoder.all_eval self)))
      as [Hsome | Hnone].
    - apply list.Exists_exists in Hsome as (i & Hi & HiN).
      rewrite (index_select_out_of_range rows _ i); [done | done |].
      unfold rows. by rewrite length_chunks.
    - exfalso. apply Z.le_ngt in Hmax. apply Hmax. apply (proj1 all_eval_within).
      intros i Hi. split.
      + rewrite Hall in Hi. apply (all_eval_bottom_cover D D_pos). by left.
      + destruct (decide (i < Z.of_nat N)); [done |]. exfalso. apply Hnone.
        apply list.Exists_exists. exists i. split; [done | lia]. }
  rewrite andb_true_r.
  pose proof (proj2 all_eval_within Hmax) as Hin.
  rewrite (index_select_Ok rows _ px); cycle 1.
  { intros i Hi. apply Hin in Hi. split; [lia |].
    unfold px. apply list_lookup_lookup_total_lt.
    unfold rows. rewrite length_chunks. lia. }
  cbn [mbind result_bind].
  destruct (Nat.ltb_spec 2 C) as [HC | HC]; cycle 1.
  { unfold FTSliceDecoder.decode_rows.
    destruct (Nat.leb_spec C 2); [done | lia]. }
  destruct (Nat.eqb_spec C in_dim) as [-> | Hne]; cycle 1.
  { unfold FTSliceDecoder.decode_rows.
    destruct (Nat.leb_spec C 2); [lia |].
    rewrite Hdec. cbn [FTSliceDecoder.in_dim].
    by destruct (Nat.eqb_spec in_dim C) as [-> | _]. }
  cbn [andb negb].
  rewrite decode_rows_Ok by (done || by rewrite Hdec).
  cbn [snd]. rewrite Hdec. cbn [FTSliceDecoder.main mbind result_bind].
  set (top_half := decode_row net <$> (px <$> FTSliceDecoder.all_eval self)).
  destruct (index_put_spec (replicate N (@None T)) (FTSliceDecoder.all_eval self)
              ((λ y : T * T, Some (ssub y.1 y.2)) <$> top_half))
    as (image1 & Hput1 & Hlen1 & _).
  { intros i Hi. rewrite length_replicate. by apply Hin. }
  { unfold top_half. by rewrite !length_fmap. }
  { rewrite Hall. by apply NoDup_all_eval. }
  rewrite Hput1. cbn [mbind result_bind].
  assert (Htophalf : ∀ t, t ∈ FTSliceDecoder.top self →
            0 ≤ t ∧ top_half !! Z.to_nat t = Some (decode_row net (px t))).
  { intros t Ht. rewrite Htop in Ht. apply (top_le_center D D_pos) in Ht.
    split; [lia |]. unfold top_half.
    by rewrite !list_lookup_fmap, Hall, all_eval_lookup_prefix. }
  rewrite (index_select_fmap_Ok fst top_half _ (λ t, decode_row net (px t))) by done.
  cbn [mbind result_bind].
  rewrite (index_select_fmap_Ok snd top_half _ (λ t, decode_row net (px t))) by done.
  cbn [mbind result_bind].
  assert (Hlen : length (Some <$> zip_with sadd
                   ((λ t, (decode_row net (px t)).1) <$> FTSliceDecoder.top self)
                   ((λ t, (decode_row net (px t)).2) <$> FTSliceDecoder.top self))
                 = length (FTSliceDecoder.bottom_rev self)).
  { rewrite length_fmap, length_zip_with, !length_fmap, Nat.min_id.
    rewrite Htop, Hbot, length_reverse. by apply length_top_bottom_even. }
  unfold index_put. rewrite (proj2 (Nat.eqb_eq _ _) Hlen).
  assert (Hlast : D * D - 1 ∈ FTSliceDecoder.bottom_rev self).
  { rewrite Hbot, elem_of_reverse.
    destruct (proj2 (all_eval_bottom_cover D D_pos (D * D - 1))) as [Ha | Hb];
      [lia | | done].
    fold D2 in Ha. rewrite <- Hall in Ha. apply Hin in Ha. lia. }
  apply (write_all_out_of_range _ _ _ (D * D - 1));
    [done | | done | rewrite Hlen1, length_replicate; lia].
  intros j Hj. rewrite Hbot, elem_of_reverse in Hj.
  apply (all_eval_bottom_cover D D_pos). by right.
Qed.
End ForwardFewRows.

(** * What forward computes, and when it fails *)

Lemma forward_one_slice {T} `{!Scalar T} (self : FTSliceDecoder.t T)
    (N C : nat) (lattice : list T) :
  length lattice = (N * C)%nat →
  FTSliceDecoder.forward self (mk [N; C] lattice)
  = mk [N] <$> FTSliceDecoder.forward_slice self N C lattice.
Proof.
  intros Hlen. unfold FTSliceDecoder.forward. cbn [shape data].
  change (reverse [N; C]) with [C; N]. cbn [numel foldr chunks Nat.eqb].
  rewrite take_ge by lia. rewrite mapM_result_cons.
  destruct (FTSliceDecoder.forward_slice self N C lattice); cbn; [| done].
  by rewrite app_nil_r.
Qed.

(** A failure common to every slice is the failure of a non-empty
    batch. *)
Lemma forward_batch_Raise {T} `{!Scalar T} (self : FTSliceDecoder.t T)
    (bs : list nat) (N C : nat) (lattice : Tensor T) (e : exn) :
  shape lattice = bs ++ [N; C] → numel bs ≠ 0%nat →
  (∀ slice, FTSliceDecoder.forward_slice self N C slice = Raise e) →
  FTSliceDecoder.forward self lattice = Raise e.
Proof.
  intros Hshape Hbs Hslice. unfold FTSliceDecoder.forward.
  rewrite Hshape, reverse_app. change (reverse [N; C]) with [C; N]. cbn [app].
  rewrite numel_reverse. destruct (numel bs) as [|B]; [done |].
  cbn [chunks Nat.eqb]. by rewrite mapM_result_cons, Hslice.
Qed.

(** X4.  What [forward] computes on an even grid, for any network: on a
    lattice of N ≥ D² rows of C > 2 components the call succeeds; every
    pixel i of [all_eval] holds [real - imag] of [decode] at row i, the
    mirror pixel D² + D - t of every pixel t of [top] holds [real + imag]
    of [decode] at row t, and the pixels from D² on, if any, are never
    written (they keep what [torch.empty] left there). *)
Theorem forward_pixels (T : Type) (S : Scalar T) (C : nat) (D : Z)
    (net : list T → T * T) (self : FTSliceDecoder.t T) (N : nat)
    (lattice : list T) :
  0 < D → Z.even D = true → (2 < C)%nat → D * D ≤ Z.of_nat N →
  FTSliceDecoder.__init__ C D net = Ok self →
  length lattice = (N * C)%nat →
  ∃ image,
    FTSliceDecoder.forward self (mk [N; C] lattice) = Ok (mk [N] image)
    ∧ length image = N
    ∧ (∀ i, i ∈ FTSliceDecoder.all_eval self →
            image !! Z.to_nat i
            = Some (Some (hartley (decode_row net (chunks C N lattice !!! Z.to_nat i)))))
    ∧ (∀ t, t ∈ FTSliceDecoder.top self →
            image !! Z.to_nat (D * D + D - t)
            = Some (Some (mirror (decode_row net (chunks C N lattice !!! Z.to_nat t)))))
    ∧ (∀ j, D * D ≤ Z.of_nat j < Z.of_nat N → image !! j = Some None).
Proof.
  intros Hpos Hev HC HN Hself Hlen.
  destruct (forward_slice_rows C D net self N lattice Hpos Hself HC HN Hev)
    as (image & Himg & Hrest).
  exists image. split; [| exact Hrest].
  by rewrite forward_one_slice, Himg.
Qed.

Lemma forward_pixels_witness :
  ∃ image,
    FTSliceDecoder.forward (decoder4 3 hermitian_decoder)
      (mk [17%nat; 3%nat] (lattice4 ++ [5; 5; 5])) = Ok (mk [17%nat] image)
    ∧ image !! 16%nat = Some None.
Proof.
  destruct (forward_pixels Z Z_scalar 3%nat 4 hermitian_decoder
              (decoder4 3 hermitian_decoder) 17%nat (lattice4 ++ [5; 5; 5])
              ltac:(lia) ltac:(reflexivity) ltac:(lia) ltac:(lia)
              ltac:(vm_compute; reflexivity) ltac:(reflexivity))
    as (image & Himg & _ & _ & _ & Hnone).
  exists image. split; [exact Himg |]. apply Hnone. lia.
Defined.

(** X5.  [forward] needs the whole grid: on an even grid, a non-empty
    batch of lattices with fewer than D² rows raises, whatever the
    network.  The exception is [RuntimeError], from the first layer of the
    network, when the rows of [all_eval] all exist (N is above the centre
    pixel and above D² - D, the first pixel of the last row), the rows
    have more than two components and their width is not the one the
    decoder was built for.  In every other case it is [IndexError]: a row
    of [all_eval] is missing, or the rows have no third component, or,
    with rows of the decoder's width, the last pixel of the grid cannot be
    written. *)
Theorem forward_too_few_rows (T : Type) (S : Scalar T) (in_dim C : nat) (D : Z)
    (net : list T → T * T) (self : FTSliceDecoder.t T) (bs : list nat)
    (N : nat) (lattice : Tensor T) :
  0 < D → Z.even D = true →
  FTSliceDecoder.__init__ in_dim D net = Ok self →
  shape lattice = bs ++ [N; C] → numel bs ≠ 0%nat →
  Z.of_nat N < D * D →
  FTSliceDecoder.forward self lattice
  = Raise (if (2 <? C)%nat && negb (C =? in_dim)%nat
              && (Z.max (FTSliceDecoder.center self) (D * D - D) <? Z.of_nat N)
           then RuntimeError else IndexError).
Proof.
  intros Hpos Hev Hself Hshape Hbs HN.
  pose proof (self_fields in_dim D net self Hpos Hself) as (_ & _ & _ & _ & ->).
  apply (forward_batch_Raise self bs N C); [done | done |].
  intros slice. by apply (forward_slice_too_few in_dim C D net).
Qed.

Lemma forward_too_few_rows_witness :
  FTSliceDecoder.forward (decoder4 3 hermitian_decoder)
    (mk [1%nat; 15%nat; 4%nat] (replicate 60 1)) = Raise RuntimeError
  ∧ FTSliceDecoder.forward (decoder4 3 hermitian_decoder)
      (mk [1%nat; 15%nat; 3%nat] (take 45 lattice4)) = Raise IndexError
  ∧ FTSliceDecoder.forward (decoder4 3 hermitian_decoder)
      (mk [1%nat; 12%nat; 4%nat] (replicate 48 1)) = Raise IndexError.
Proof.
  split; [| split].
  - apply (forward_too_few_rows Z Z_scalar 3%nat 4%nat 4 hermitian_decoder
             (decoder4 3 hermitian_decoder) [1%nat] 15%nat).
    + lia.
    + reflexivity.
    + vm_compute; reflexivity.
    + reflexivity.
    + simpl. lia.
    + lia.
  - apply (forward_too_few_rows Z Z_scalar 3%nat 3%nat 4 hermitian_decoder
             (decoder4 3 hermitian_decoder) [1%nat] 15%nat).
    + lia.
    + reflexivity.
    + vm_compute; reflexivity.
    + reflexivity.
    + simpl. lia.
    + lia.
  - apply (forward_too_few_rows Z Z_scalar 3%nat 4%nat 4 hermitian_decoder
             (decoder4 3 hermitian_decoder) [1%nat] 12%nat).
    + lia.
    + reflexivity.
    + vm_compute; reflexivity.
    + reflexivity.
    + simpl. lia.
    + lia.
Defined.

(** X6.  An odd side is accepted by the constructor but not by
    [forward]: for every odd D ≥ 5, on a non-empty batch of full D×D
    lattices, the mirrored values of [top] cannot be written at the D - 1
    more pixels of [bottom_rev], and the call raises [RuntimeError]. *)
Theorem forward_odd_side_raises (T : Type) (S : Scalar T) (C : nat) (D : Z)
    (net : list T → T * T) (self : FTSliceDecoder.t T) (bs : list nat)
    (lattice : Tensor T) :
  5 ≤ D → Z.odd D = true → (2 < C)%nat →
  FTSliceDecoder.__init__ C D net = Ok self →
  shape lattice = bs ++ [Z.to_nat (D * D); C] → numel bs ≠ 0%nat →
  FTSliceDecoder.forward self lattice = Raise RuntimeError.
Proof.
  intros HD Hodd HC Hself Hshape Hbs.
  assert (Hpos : 0 < D) by lia.
  apply (forward_batch_Raise self bs (Z.to_nat (D * D)) C); [done | done |].
  intros slice.
  destruct (forward_slice_upper C D net self (Z.to_nat (D * D)) slice
              Hpos Hself HC ltac:(lia)) as (image1 & _ & _ & _ & ->).
  pose proof (self_fields C D net self Hpos Hself) as (_ & _ & Htop & Hbot & _).
  unfold index_put. rewrite !length_fmap, Htop, Hbot, length_reverse.
  rewrite (length_top_bottom_odd D Hpos Hodd).
  destruct (Nat.eqb_spec (length (top_closed D (D `div` 2)))
              (length (top_closed D (D `div` 2)) + Z.to_nat (D - 1))) as [Heq | _];
    [lia |].
  assert (Hlen : (2 ≤ length (top_closed D (D `div` 2)))%nat).
  { rewrite length_top. pose proof (D2_bounds D Hpos).
    assert (2 ≤ D `div` 2) by lia.
    assert (1 ≤ Z.to_nat (D `div` 2 - 1))%nat by lia.
    assert (4 ≤ Z.to_nat (D - 1))%nat by lia. nia. }
  destruct (top_closed D (D `div` 2)) as [|t0 [|t1 tl]]; simpl in Hlen; [lia | lia |].
  done.
Qed.

Lemma forward_odd_side_raises_witness :
  ∃ self,
    FTSliceDecoder.__init__ 3 5 (sum_decoder (T := Z)) = Ok self
    ∧ FTSliceDecoder.forward self (mk [1%nat; 25%nat; 3%nat] (replicate 75 0))
      = Raise RuntimeError.
Proof.
  eexists. split; [vm_compute; reflexivity |].
  apply (forward_odd_side_raises Z Z_scalar 3%nat 5 sum_decoder _ [1%nat]).
  - lia.
  - reflexivity.
  - lia.
  - vm_compute; reflexivity.
  - reflexivity.
  - simpl. lia.
Defined.

(** X7.  The side D = 3 is the one odd side on which [forward] does not
    raise: [top] holds the single pixel 4, whose mirrored value is
    broadcast to the three pixels 8, 7 and 5 of [bottom_rev], whatever
    the coordinates of those pixels are. *)
Theorem forward_side_three_broadcasts (T : Type) (S : Scalar T) (C : nat)
    (net : list T → T * T) (self : FTSliceDecoder.t T) (lattice : list T) :
  (2 < C)%nat →
  FTSliceDecoder.__init__ C 3 net = Ok self →
  length lattice = (9 * C)%nat →
  ∃ image,
    FTSliceDecoder.forward self (mk [9%nat; C] lattice) = Ok (mk [9%nat] image)
    ∧ ∀ j, j ∈ [5%nat; 7%nat; 8%nat] →
           image !! j = Some (Some (mirror (decode_row net (chunks C 9 lattice !!! 4%nat)))).
Proof.
  intros HC Hself Hlen.
  destruct (forward_slice_upper C 3 net self 9%nat lattice
              ltac:(lia) Hself HC ltac:(lia)) as (image1 & Hlen1 & _ & _ & Heq).
  rewrite forward_one_slice, Heq by done.
  pose proof (self_fields C 3 net self ltac:(lia) Hself) as (_ & _ & Htop & Hbot & _).
  rewrite Htop, Hbot.
  change (top_closed 3 (3 `div` 2)) with [4].
  change (reverse (bottom_closed 3 (3 `div` 2))) with [8; 7; 5].
  do 9 (destruct image1 as [|? image1]; [done |]).
  destruct image1; [| done].
  eexists. split; [reflexivity |].
  intros j Hj.
  repeat (apply elem_of_cons in Hj as [-> | Hj]; [reflexivity |]).
  by apply elem_of_nil in Hj.
Qed.

Lemma forward_side_three_broadcasts_witness :
  ∃ self image,
    FTSliceDecoder.__init__ 3 3 (sum_decoder (T := Z)) = Ok self
    ∧ FTSliceDecoder.forward self (mk [9%nat; 3%nat] (Z.of_nat <$> seq 0 27))
      = Ok (mk [9%nat] image)
    ∧ image !! 5%nat = image !! 8%nat.
Proof.
  eexists.
  destruct (forward_side_three_broadcasts Z Z_scalar 3%nat sum_decoder _
              (Z.of_nat <$> seq 0 27) ltac:(lia) ltac:(vm_compute; reflexivity)
              ltac:(reflexivity)) as (image & Himg & Hpix).
  exists image. split; [vm_compute; reflexivity |]. split; [exact Himg |].
  rewrite (Hpix 5%nat), (Hpix 8%nat) by (repeat constructor). reflexivity.
Defined.

(** * decode and the array it is given *)

Section DecodeState.
Context {T : Type} `{!Scalar T}.

(** What [decode] leaves in a row has no strictly positive third
    component. *)
Lemma decode_row_state_not_positive (r : list T) :
  (2 < length r)%nat → sgt0 (nth 2 (decode_row_state r) szero) = false.
Proof.
  intros Hlen. unfold decode_row_state.
  destruct (sgt0 (nth 2 r szero)) eqn:Hz; [| done].
  rewrite nth2_negate3 by done. by apply sgt0_sneg.
Qed.

Lemma decode_row_state_idemp (r : list T) :
  (2 < length r)%nat → decode_row_state (decode_row_state r) = decode_row_state r.
Proof.
  intros Hlen. unfold decode_row_state at 1.
  by rewrite decode_row_state_not_positive.
Qed.

Lemma Forall_length_decode_row_state (C : nat) (rows : list (list T)) :
  Forall (λ r, length r = C) rows →
  Forall (λ r, length r = C) (decode_row_state <$> rows).
Proof.
  intros Hrows. apply Forall_fmap. eapply list.Forall_impl; [exact Hrows |].
  intros r Hr. simpl. by rewrite length_decode_row_state.
Qed.

(** The array differs after the call as soon as one row has a strictly
    positive third component. *)
Lemma decode_state_differs (C : nat) (rows : list (list T)) :
  (2 < C)%nat → Forall (λ r, length r = C) rows →
  (∃ r, r ∈ rows ∧ sgt0 (nth 2 r szero) = true) →
  concat (decode_row_state <$> rows) ≠ concat rows.
Proof.
  intros HC Hrows (r & Hr & Hz) Heq.
  apply (f_equal (chunks C (length rows))) in Heq.
  rewrite chunks_concat in Heq by done.
  rewrite <- (length_fmap decode_row_state rows) in Heq at 1.
  rewrite chunks_concat in Heq by (by apply Forall_length_decode_row_state).
  apply list_elem_of_lookup in Hr as [k Hk].
  apply (f_equal (λ l, l !! k)) in Heq. rewrite list_lookup_fmap, Hk in Heq.
  injection Heq as Heq.
  assert (Hlen : (2 < length r)%nat).
  { rewrite list.Forall_forall in Hrows. rewrite (Hrows r); [done |].
    by apply list_elem_of_lookup_2 in Hk. }
  exact (decode_row_state_changes r Hlen Hz Heq).
Qed.

(** The rows as [decode] leaves them, when the width is accepted by
    the indexing but not by the network. *)
Lemma decode_rows_wrong_width (self : FTSliceDecoder.t T) (C : nat)
    (rows : list (list T)) :
  (2 < C)%nat → FTSliceDecoder.in_dim (FTSliceDecoder.decoder self) ≠ C →
  FTSliceDecoder.decode_rows self C rows
  = (decode_row_state <$> rows, Raise RuntimeError).
Proof.
  intros HC Hin. unfold FTSliceDecoder.decode_rows.
  destruct (Nat.leb_spec C 2); [lia |].
  destruct (Nat.eqb_spec (FTSliceDecoder.in_dim (FTSliceDecoder.decoder self)) C);
    [done |].
  cbn [negb]. by rewrite zip_with_fmap_same.
Qed.
End DecodeState.

(** X8.  [decode] is not repeatable on the array it was given.  The first
    call leaves no row with a strictly positive third component, so a
    second call on the same array changes nothing more in it, conjugates
    nothing, and returns, for every row whose third component was
    strictly positive, the complex conjugate of what the first call
    returned (and the same value for every other row). *)
Theorem decode_second_call (T : Type) (S : Scalar T)
    (self : FTSliceDecoder.t T) (C : nat) (rows : list (list T)) :
  (2 < C)%nat →
  FTSliceDecoder.in_dim (FTSliceDecoder.decoder self) = C →
  Forall (λ r, length r = C) rows →
  let lattice := mk [length rows; C] (concat rows) in
  let after := (FTSliceDecoder.decode self lattice).1 in
  ∃ first second,
    (FTSliceDecoder.decode self lattice).2 = Ok (mk [length rows] first)
    ∧ FTSliceDecoder.decode self after = (after, Ok (mk [length rows] second))
    ∧ length first = length rows ∧ length second = length rows
    ∧ ∀ k r y, rows !! k = Some r → first !! k = Some y →
               second !! k
               = Some (if sgt0 (nth 2 r szero) then conjugate y else y).
Proof.
  intros HC Hin Hrows lattice after. unfold after, lattice.
  rewrite decode_matrix by done. cbn [fst snd].
  set (net := FTSliceDecoder.main (FTSliceDecoder.decoder self)).
  pose proof (decode_matrix self C HC Hin (decode_row_state <$> rows)
                (Forall_length_decode_row_state C rows Hrows)) as Hsecond.
  rewrite length_fmap in Hsecond. fold net in Hsecond.
  assert (Hidem : decode_row_state <$> (decode_row_state <$> rows)
                  = decode_row_state <$> rows).
  { apply list_eq. intros k. rewrite !list_lookup_fmap.
    destruct (rows !! k) as [r |] eqn:Hk; [| done]. cbn. f_equal.
    apply decode_row_state_idemp.
    rewrite list.Forall_forall in Hrows. rewrite (Hrows r); [done |].
    by apply list_elem_of_lookup_2 in Hk. }
  rewrite Hidem in Hsecond.
  exists (decode_row net <$> rows), (decode_row net <$> (decode_row_state <$> rows)).
  split; [done |]. split; [exact Hsecond |].
  rewrite !length_fmap. split; [done |]. split; [done |].
  intros k r y Hk Hy. rewrite list_lookup_fmap, Hk in Hy. injection Hy as <-.
  rewrite !list_lookup_fmap, Hk. cbn. f_equal.
  assert (Hlen : (2 < length r)%nat).
  { rewrite list.Forall_forall in Hrows. rewrite (Hrows r); [done |].
    by apply list_elem_of_lookup_2 in Hk. }
  unfold decode_row at 1. rewrite decode_row_state_not_positive by done.
  unfold decode_row, decode_row_state.
  destruct (sgt0 (nth 2 r szero)); [| done].
  unfold conjugate. cbn [fst snd]. rewrite smul_neg_one, sneg_involutive.
  by destruct (net (FTSliceDecoder.negate3 r)).
Qed.

Lemma decode_second_call_witness :
  ∃ first second,
    (FTSliceDecoder.decode (decoder4 3 hermitian_decoder)
       (mk [2%nat; 3%nat] [1; 2; 3; 4; 5; -6])).2 = Ok (mk [2%nat] first)
    ∧ (FTSliceDecoder.decode (decoder4 3 hermitian_decoder)
         (mk [2%nat; 3%nat] [-1; -2; -3; 4; 5; -6])).2 = Ok (mk [2%nat] second)
    ∧ first !! 0%nat = Some (14, 6) ∧ second !! 0%nat = Some (14, -6).
Proof.
  destruct (decode_second_call Z Z_scalar (decoder4 3 hermitian_decoder) 3%nat
              [[1; 2; 3]; [4; 5; -6]] ltac:(lia) eq_refl ltac:(repeat constructor))
    as (first & second & H1 & H2 & _ & _ & Hrel).
  exists first, second. split; [exact H1 |].
  split; [exact (f_equal snd H2) |].
  assert (Hf : first !! 0%nat = Some (14, 6)).
  { vm_compute in H1. by injection H1 as <-. }
  split; [exact Hf |].
  exact (Hrel 0%nat [1; 2; 3] (14, 6) eq_refl Hf).
Defined.

(** X9.  The two ways [decode] fails differ in what they leave behind.
    Rows of fewer than three components raise [IndexError] before
    anything is written.  Rows of three or more components that the
    network does not accept raise [RuntimeError] only after the negation
    has been written: the call fails, and the caller's array is changed
    all the same as soon as one row has a strictly positive third
    component. *)
Theorem decode_failure_states (T : Type) (S : Scalar T)
    (self : FTSliceDecoder.t T) (C : nat) (rows : list (list T)) :
  Forall (λ r, length r = C) rows →
  let lattice := mk [length rows; C] (concat rows) in
  ((C ≤ 2)%nat → FTSliceDecoder.decode self lattice = (lattice, Raise IndexError))
  ∧ ((2 < C)%nat →
     FTSliceDecoder.in_dim (FTSliceDecoder.decoder self) ≠ C →
     (FTSliceDecoder.decode self lattice).2 = Raise RuntimeError
     ∧ (FTSliceDecoder.decode self lattice).1
       = mk [length rows; C]
            (concat ((λ r, if sgt0 (nth 2 r szero)
                           then (sneg <$> take 3 r) ++ drop 3 r else r) <$> rows))
     ∧ ((∃ r, r ∈ rows ∧ sgt0 (nth 2 r szero) = true) →
        (FTSliceDecoder.decode self lattice).1 ≠ lattice)).
Proof.
  intros Hrows lattice. unfold lattice, FTSliceDecoder.decode. cbn [shape data].
  change (reverse [length rows; C]) with [C; length rows].
  cbn [numel foldr]. rewrite Nat.mul_1_r, chunks_concat by done.
  split.
  - intros HC. unfold FTSliceDecoder.decode_rows.
    destruct (Nat.leb_spec C 2); [done | lia].
  - intros HC Hin. rewrite decode_rows_wrong_width by done. cbn.
    split; [done |]. split; [done |].
    intros Hex Heq. injection Heq as Heq.
    by apply (decode_state_differs C rows).
Qed.

Lemma decode_failure_states_witness :
  FTSliceDecoder.decode (decoder4 4 sum_decoder) (mk [1%nat; 3%nat] [1; 2; 3])
  = (mk [1%nat; 3%nat] [-1; -2; -3], Raise RuntimeError).
Proof.
  destruct (decode_failure_states Z Z_scalar (decoder4 4 sum_decoder) 3%nat
              [[1; 2; 3]] ltac:(repeat constructor)) as [_ H].
  destruct (H ltac:(lia) ltac:(simpl; lia)) as (H2 & H1 & _).
  apply injective_projections; [exact H1 | exact H2].
Defined.

(** * forward_symmetric *)

Lemma length_concat_uniform {A} (C : nat) (rows : list (list A)) :
  Forall (λ r, length r = C) rows → length (concat rows) = (length rows * C)%nat.
Proof.
  induction 1 as [|r rows Hr _ IH]; simpl; [done |].
  rewrite length_app, IH, Hr. lia.
Qed.

(** [np.arange(c-1, -1, -1)] counts down from c - 1 to 0. *)
Lemma arange3_down (c : Z) :
  np.arange3 (c - 1) (-1) (-1) = Ok ((λ k, c - 1 - k) <$> seqZ 0 c).
Proof.
  unfold np.arange3, np.arange_len. cbn [Z.eqb Z.ltb Z.compare].
  f_equal.
  replace ((c - 1 - (-1) + (- (-1)) - 1) `div` (- (-1))) with c
    by (change (- (-1)) with 1; rewrite Z.div_1_r; lia).
  destruct (Z.max_spec 0 c) as [[Hc ->] | [Hc ->]].
  - apply fmap_ext_all. intros k. lia.
  - rewrite (seqZ_nil 0 c) by lia. done.
Qed.

Lemma slice_index_nonneg (N : nat) (i : Z) :
  0 ≤ i → np.slice_index N i = (N `min` Z.to_nat i)%nat.
Proof. intros Hi. unfold np.slice_index. destruct (Z.ltb_spec i 0); lia. Qed.

Lemma position_total (len : nat) (i : Z) :
  is_Ok (position len i) ∨ position len i = Raise IndexError.
Proof.
  unfold position. destruct (_ && _); [left; by eexists | by right].
Qed.

Lemma position_out_of_range (len : nat) (i : Z) :
  Z.of_nat len ≤ i → position len i = Raise IndexError.
Proof.
  intros Hi. unfold position. destruct (Z.ltb_spec i 0); [lia |].
  destruct (Z.ltb_spec i (Z.of_nat len)); [lia |]. by rewrite andb_false_r.
Qed.

(** The positions read by [forward_symmetric]: all of c - 1, ..., 0 when
    the slice has at least c rows, and an error otherwise. *)
Lemma positions_down (M : nat) (c : Z) :
  mapM (position M) ((λ k, c - 1 - k) <$> seqZ 0 c)
  = if decide (c ≤ Z.of_nat M)
    then Ok (Z.to_nat <$> ((λ k, c - 1 - k) <$> seqZ 0 c))
    else Raise IndexError.
Proof.
  destruct (decide (c ≤ Z.of_nat M)) as [Hc | Hc].
  - apply mapM_Ok_fmap. intros i Hi. apply list_elem_of_fmap in Hi as (k & -> & Hk).
    apply elem_of_seqZ in Hk. apply position_Ok. lia.
  - apply mapM_Raise.
    + intros i _. apply position_total.
    + exists (c - 1). split.
      * apply list_elem_of_fmap. exists 0. split; [lia |]. apply elem_of_seqZ. lia.
      * apply position_out_of_range. lia.
Qed.

Section Symmetric.
Context {T : Type} `{!Scalar T}.
Variable self : FTSliceDecoder.t T.
Variable C : nat.
Hypothesis C_ge : (2 < C)%nat.

Let net := FTSliceDecoder.main (FTSliceDecoder.decoder self).

(** The rows of the caller's lattice after the call, on one slice:
    the first rows, which [decode] received as a view, are as [decode]
    leaves them; this does not depend on whether the call succeeds. *)
Lemma forward_symmetric_state (rows : list (list T)) (c : Z) :
  Forall (λ r, length r = C) rows →
  (FTSliceDecoder.forward_symmetric self (mk [length rows; C] (concat rows)) c).1
  = let M := np.slice_index (length rows) (c + 1) in
    mk [length rows; C]
       (concat ((decode_row_state <$> take M rows) ++ drop M rows)).
Proof.
  intros Hrows. unfold FTSliceDecoder.forward_symmetric. cbn [shape data].
  change (reverse [length rows; C]) with [C; length rows].
  cbn [numel foldr chunks fmap list_fmap replicate Nat.eqb].
  rewrite (take_ge (concat rows)) by (rewrite (length_concat_uniform C); [lia | done]).
  rewrite chunks_concat by done.
  set (M := np.slice_index (length rows) (c + 1)).
  cbn [concat]. rewrite app_nil_r.
  assert (HM : length (take M rows) = M).
  { rewrite length_take. unfold M, np.slice_index.
    destruct (Z.ltb_spec (c + 1) 0); lia. }
  assert (Hst : (let '(rows', r) := FTSliceDecoder.decode_rows self C (take M rows) in
                 ∃ r', rows' = decode_row_state <$> take M rows ∧ r = r')).
  { unfold FTSliceDecoder.decode_rows.
    destruct (Nat.leb_spec C 2); [lia |].
    rewrite zip_with_fmap_same.
    destruct (negb _); by eexists. }
  destruct (FTSliceDecoder.decode_rows self C (take M rows)) as [rows' r].
  destruct Hst as (r' & -> & ->). cbn [fst zip_with].
  rewrite (take_ge (decode_row_state <$> take M rows)) by (rewrite length_fmap; lia).
  cbn [concat]. by rewrite !app_nil_r.
Qed.

Hypothesis C_in : FTSliceDecoder.in_dim (FTSliceDecoder.decoder self) = C.

(** The image of one slice, for a non-negative centre index. *)
Lemma forward_symmetric_image (rows : list (list T)) (c : Z) :
  Forall (λ r, length r = C) rows → 0 ≤ c →
  let N := length rows in
  let M := (N `min` Z.to_nat (c + 1))%nat in
  let th := decode_row net <$> take M rows in
  let head := (λ y : T * T, Some (hartley y)) <$> th in
  let vals := (λ k, Some (mirror (nth (Z.to_nat (c - 1 - k)) th (szero, szero))))
                <$> seqZ 0 c in
  (FTSliceDecoder.forward_symmetric self (mk [N; C] (concat rows)) c).2
  = if decide (c ≤ Z.of_nat M) then
      if (Z.to_nat c =? N - M)%nat then Ok (mk [N] (head ++ vals))
      else if (Z.to_nat c =? 1)%nat
      then Ok (mk [N] (head ++ (vals ≫= replicate (N - M))))
      else Raise RuntimeError
    else Raise IndexError.
Proof.
  intros Hrows Hc. cbv zeta.
  set (N := length rows).
  set (M := (N `min` Z.to_nat (c + 1))%nat).
  set (th := decode_row net <$> take M rows).
  set (head := (λ y : T * T, Some (hartley y)) <$> th).
  set (vals := (λ k, Some (mirror (nth (Z.to_nat (c - 1 - k)) th (szero, szero))))
                 <$> seqZ 0 c).
  unfold FTSliceDecoder.forward_symmetric. cbn [shape data].
  change (reverse [N; C]) with [C; N].
  cbn [numel foldr chunks fmap list_fmap replicate Nat.eqb].
  rewrite (take_ge (concat rows))
    by (rewrite (length_concat_uniform C); [unfold N; lia | done]).
  replace (chunks C N (concat rows)) with rows
    by (symmetry; by apply chunks_concat).
  rewrite slice_index_nonneg by lia. fold M.
  cbn [concat]. rewrite app_nil_r.
  rewrite decode_rows_Ok by done. fold net. fold th.
  cbn [snd fmap result_fmap mbind result_bind chunks].
  assert (HM : length th = M).
  { unfold th. rewrite length_fmap, length_take. unfold M, N. lia. }
  rewrite (take_ge th) by lia.
  rewrite arange3_down. cbn [mbind result_bind].
  rewrite positions_down.
  destruct (decide (c ≤ Z.of_nat M)) as [HcM | HcM]; [| done].
  cbn [mbind result_bind]. rewrite !length_fmap, length_seqZ.
  cbn [zip_with list_fmap fmap concat]. rewrite !app_nil_r.
  assert (Hhead : take M (((λ y : T * T, Some (ssub y.1 y.2)) <$> th)
                          ++ drop M (replicate N None)) = head).
  { rewrite take_app_length'; [done |]. by rewrite length_fmap. }
  rewrite Hhead.
  assert (Hvals : ((λ j, Some (sadd (nth j th (szero, szero)).1 (nth j th (szero, szero)).2))
                     <$> (Z.to_nat <$> ((λ k, c - 1 - k) <$> seqZ 0 c))) = vals).
  { unfold vals. by rewrite <- !list_fmap_compose. }
  rewrite Hvals. done.
Qed.

(** On 2n + 1 rows with the centre at index n the call succeeds; pixel
    i ≤ n holds [real - imag] of [decode] at row i and pixel j > n holds
    [real + imag] of [decode] at row 2n - j. *)
Lemma forward_symmetric_lookup (rows : list (list T)) (n : nat) :
  Forall (λ r, length r = C) rows → length rows = (2 * n + 1)%nat →
  ∃ image,
    (FTSliceDecoder.forward_symmetric self
       (mk [(2 * n + 1)%nat; C] (concat rows)) (Z.of_nat n)).2
    = Ok (mk [(2 * n + 1)%nat] image)
    ∧ length image = (2 * n + 1)%nat
    ∧ (∀ i r, (i ≤ n)%nat → rows !! i = Some r →
              image !! i = Some (Some (hartley (decode_row net r))))
    ∧ (∀ j r, (n < j ≤ 2 * n)%nat → rows !! (2 * n - j)%nat = Some r →
              image !! j = Some (Some (mirror (decode_row net r)))).
Proof.
  intros Hrows Hlen.
  pose proof (forward_symmetric_image rows (Z.of_nat n) Hrows ltac:(lia)) as Himg.
  cbv zeta in Himg. rewrite Hlen in Himg.
  replace ((2 * n + 1) `min` Z.to_nat (Z.of_nat n + 1))%nat with (S n) in Himg by lia.
  destruct (decide (Z.of_nat n ≤ Z.of_nat (S n))) as [_ | ?]; [| lia].
  replace (Z.to_nat (Z.of_nat n) =? 2 * n + 1 - S n)%nat with true in Himg
    by (symmetry; apply Nat.eqb_eq; lia).
  eexists. split; [exact Himg |].
  set (th := decode_row net <$> take (S n) rows).
  assert (Hth : length th = S n).
  { unfold th. rewrite length_fmap, length_take. lia. }
  split; [| split].
  - rewrite length_app, !length_fmap, length_seqZ. fold th. lia.
  - intros i r Hi Hr. rewrite lookup_app_l by (rewrite length_fmap; fold th; lia).
    unfold th. by rewrite !list_lookup_fmap, lookup_take_lt, Hr by lia.
  - intros j r Hj Hr. rewrite lookup_app_r by (rewrite length_fmap; fold th; lia).
    rewrite length_fmap. fold th. rewrite Hth.
    rewrite list_lookup_fmap, lookup_seqZ_lt by lia. cbn. do 3 f_equal.
    apply nth_lookup_Some. unfold th.
    replace (Z.to_nat (Z.of_nat n - 1 - (0 + Z.of_nat (j - S n))))
      with (2 * n - j)%nat by lia.
    by rewrite list_lookup_fmap, lookup_take_lt, Hr by lia.
Qed.
End Symmetric.

Lemma concat_uniform_inj {A} (C : nat) (a b : list (list A)) :
  Forall (λ r, length r = C) a → Forall (λ r, length r = C) b →
  length a = length b → concat a = concat b → a = b.
Proof.
  intros Ha Hb Hlen Heq.
  rewrite <- (chunks_concat C a Ha), <- (chunks_concat C b Hb).
  by rewrite Heq, Hlen.
Qed.

(** X10.  What [forward_symmetric] computes, for any network: on a
    lattice of 2n + 1 rows with the centre at index n the call succeeds
    and writes every pixel.  The first n + 1 pixels hold [real - imag] of
    [decode] at rows 0, ..., n, and the n pixels after them hold
    [real + imag] of [decode] at rows n - 1, ..., 0: pixel j > n is filled
    from row 2n - j, the row at the same distance on the other side of the
    centre. *)
Theorem forward_symmetric_pixels (T : Type) (Sc : Scalar T)
    (self : FTSliceDecoder.t T) (C n : nat) (rows : list (list T)) :
  (2 < C)%nat →
  FTSliceDecoder.in_dim (FTSliceDecoder.decoder self) = C →
  Forall (λ r, length r = C) rows → length rows = (2 * n + 1)%nat →
  let net := FTSliceDecoder.main (FTSliceDecoder.decoder self) in
  (FTSliceDecoder.forward_symmetric self
     (mk [(2 * n + 1)%nat; C] (concat rows)) (Z.of_nat n)).2
  = Ok (mk [(2 * n + 1)%nat]
          (((λ r, Some (hartley (decode_row net r))) <$> take (S n) rows)
           ++ ((λ r, Some (mirror (decode_row net r))) <$> reverse (take n rows)))).
Proof.
  intros HC Hin Hrows Hlen net.
  pose proof (forward_symmetric_image self C HC Hin rows (Z.of_nat n) Hrows
                ltac:(lia)) as Himg.
  cbv zeta in Himg. rewrite Hlen in Himg.
  replace ((2 * n + 1) `min` Z.to_nat (Z.of_nat n + 1))%nat with (S n) in Himg by lia.
  destruct (decide (Z.of_nat n ≤ Z.of_nat (S n))) as [_ | ?]; [| lia].
  replace (Z.to_nat (Z.of_nat n) =? 2 * n + 1 - S n)%nat with true in Himg
    by (symmetry; apply Nat.eqb_eq; lia).
  rewrite Himg. do 2 f_equal. fold net. f_equal.
  - by rewrite <- list_fmap_compose.
  - apply list_eq. intros k. rewrite !list_lookup_fmap.
    destruct (decide (k < n)%nat) as [Hk | Hk]; cycle 1.
    { rewrite lookup_seqZ_ge by lia.
      rewrite (lookup_ge_None_2 (reverse _))
        by (rewrite length_reverse, length_take; lia).
      done. }
    rewrite lookup_seqZ_lt by lia.
    rewrite reverse_lookup by (rewrite length_take; lia).
    rewrite length_take, Nat.min_l by lia.
    destruct (lookup_lt_is_Some_2 rows (n - S k)%nat ltac:(lia)) as [r Hr].
    rewrite lookup_take_lt, Hr by lia. cbn. do 3 f_equal.
    apply nth_lookup_Some.
    replace (Z.to_nat (Z.of_nat n - 1 - (0 + Z.of_nat k))) with (n - S k)%nat by lia.
    by rewrite list_lookup_fmap, lookup_take_lt, Hr by lia.
Qed.

Lemma forward_symmetric_pixels_witness :
  (FTSliceDecoder.forward_symmetric (decoder4 3 hermitian_decoder)
     (mk [3%nat; 3%nat] [1; 2; 3; 0; 0; 0; 5; 5; 5]) 1).2
  = Ok (mk [3%nat] [Some 8; Some 0; Some 20]).
Proof.
  exact (forward_symmetric_pixels Z Z_scalar (decoder4 3 hermitian_decoder) 3%nat 1%nat
           [[1; 2; 3]; [0; 0; 0]; [5; 5; 5]] ltac:(lia) eq_refl
           ltac:(repeat constructor) eq_refl).
Defined.

(** X11.  [forward_symmetric] accepts one number of rows only: with the
    centre at index c ≥ 2, on rows the network accepts, a non-empty batch
    of lattices that do not have exactly 2c + 1 rows makes the call
    raise: [IndexError] when there are fewer than c rows and
    [RuntimeError] otherwise. *)
Theorem forward_symmetric_row_count (T : Type) (S : Scalar T)
    (self : FTSliceDecoder.t T) (bs : list nat) (N C : nat) (c : Z)
    (lattice : Tensor T) :
  (2 < C)%nat →
  FTSliceDecoder.in_dim (FTSliceDecoder.decoder self) = C →
  shape lattice = bs ++ [N; C] → numel bs ≠ 0%nat →
  2 ≤ c → Z.of_nat N ≠ 2 * c + 1 →
  (FTSliceDecoder.forward_symmetric self lattice c).2
  = Raise (if decide (Z.of_nat N < c) then IndexError else RuntimeError).
Proof.
  intros HC Hin Hshape Hbs Hc HN. unfold FTSliceDecoder.forward_symmetric.
  rewrite Hshape, reverse_app. change (reverse [N; C]) with [C; N]. cbn [app].
  rewrite numel_reverse.
  destruct (Nat.eqb_spec (numel bs) 0) as [? | _]; [done |].
  rewrite decode_rows_Ok by done.
  cbn [snd fmap result_fmap mbind result_bind].
  rewrite arange3_down. cbn [mbind result_bind].
  rewrite positions_down, slice_index_nonneg by lia.
  destruct (decide (c ≤ Z.of_nat (N `min` Z.to_nat (c + 1)))) as [HcM | HcM].
  - cbn [mbind result_bind]. rewrite !length_fmap, length_seqZ.
    destruct (decide (Z.of_nat N < c)) as [? | _]; [lia |].
    destruct (Nat.eqb_spec (Z.to_nat c) (N - N `min` Z.to_nat (c + 1))); [lia |].
    destruct (Nat.eqb_spec (Z.to_nat c) 1); [lia | done].
  - destruct (decide (Z.of_nat N < c)) as [_ | ?]; [done | lia].
Qed.

Lemma forward_symmetric_row_count_witness :
  (FTSliceDecoder.forward_symmetric (decoder4 3 hermitian_decoder)
     (mk [4%nat; 3%nat] [1; 2; 3; 4; 5; -6; 7; 8; 9; 10; 11; 12]) 2).2
  = Raise RuntimeError.
Proof.
  apply (forward_symmetric_row_count Z Z_scalar (decoder4 3 hermitian_decoder)
           [] 4%nat 3%nat 2); [lia | reflexivity | reflexivity | simpl; lia | lia | lia].
Defined.

(** X12.  For a network with Hermitian symmetry and a lattice of 2n + 1
    rows that is symmetric about its centre row n (row 2n - i holds the
    negation of the coordinates of row i), [forward_symmetric] equals the
    evaluation of [real - imag] of the network at every row. *)
Theorem forward_symmetric_hermitian (T : Type) (S : Scalar T)
    (self : FTSliceDecoder.t T) (C n : nat) (rows : list (list T)) :
  (2 < C)%nat →
  FTSliceDecoder.in_dim (FTSliceDecoder.decoder self) = C →
  Forall (λ r, length r = C) rows → length rows = (2 * n + 1)%nat →
  (∀ p, FTSliceDecoder.main (FTSliceDecoder.decoder self) (FTSliceDecoder.negate3 p)
        = conjugate (FTSliceDecoder.main (FTSliceDecoder.decoder self) p)) →
  (∀ i, (i < n)%nat →
        rows !! (2 * n - i)%nat = FTSliceDecoder.negate3 <$> rows !! i) →
  (FTSliceDecoder.forward_symmetric self
     (mk [(2 * n + 1)%nat; C] (concat rows)) (Z.of_nat n)).2
  = Ok (mk [(2 * n + 1)%nat]
          (Some <$> FTSliceDecoder.naive_slice self (2 * n + 1) C (concat rows))).
Proof.
  intros HC Hin Hrows Hlen Hherm Hsym.
  destruct (forward_symmetric_lookup self C HC Hin rows n Hrows Hlen)
    as (image & -> & Hlen_img & Hup & Hlow).
  do 2 f_equal. unfold FTSliceDecoder.naive_slice.
  rewrite <- Hlen at 1. rewrite chunks_concat by done.
  apply list_eq. intros j. rewrite !list_lookup_fmap.
  destruct (rows !! j) as [r |] eqn:Hr; cycle 1.
  { apply lookup_ge_None in Hr. cbn. apply lookup_ge_None. lia. }
  cbn. destruct (decide (j ≤ n)%nat) as [Hj | Hj].
  - rewrite (Hup j r Hj Hr). by rewrite decode_row_hermitian.
  - assert (Hjr : (j < 2 * n + 1)%nat) by (apply lookup_lt_Some in Hr; lia).
    destruct (lookup_lt_is_Some_2 rows (2 * n - j)%nat ltac:(lia)) as [r' Hr'].
    rewrite (Hlow j r' ltac:(lia) Hr').
    specialize (Hsym (2 * n - j)%nat ltac:(lia)).
    replace (2 * n - (2 * n - j))%nat with j in Hsym by lia.
    rewrite Hr, Hr' in Hsym. injection Hsym as ->.
    rewrite decode_row_hermitian by done.
    by rewrite Hherm, <- hartley_conjugate.
Qed.

Lemma forward_symmetric_hermitian_witness :
  (FTSliceDecoder.forward_symmetric (decoder4 3 hermitian_decoder)
     (mk [3%nat; 3%nat] [1; 2; 3; 0; 0; 0; -1; -2; -3]) 1).2
  = Ok (mk [3%nat] [Some 8; Some 0; Some 20]).
Proof.
  apply (forward_symmetric_hermitian Z Z_scalar (decoder4 3 hermitian_decoder) 3%nat 1%nat
           [[1; 2; 3]; [0; 0; 0]; [-1; -2; -3]] ltac:(lia) eq_refl
           ltac:(repeat constructor) eq_refl).
  - apply hermitian_decoder_conjugate.
  - intros i Hi. assert (i = 0%nat) as -> by lia. reflexivity.
Defined.

(** X13.  [forward_symmetric] hands [decode] a view of the caller's
    lattice: after the call, whether it succeeded or raised, each of the
    first c + 1 rows of the lattice with a strictly positive third
    component has its three coordinates negated, and the rows after them
    are unchanged; so the caller's array is changed as soon as one of the
    first c + 1 rows has a strictly positive third component. *)
Theorem forward_symmetric_mutates_lattice (T : Type) (Sc : Scalar T)
    (self : FTSliceDecoder.t T) (C n : nat) (rows : list (list T)) :
  (2 < C)%nat →
  Forall (λ r, length r = C) rows →
  let lattice := mk [length rows; C] (concat rows) in
  (FTSliceDecoder.forward_symmetric self lattice (Z.of_nat n)).1
  = mk [length rows; C]
       (concat (((λ r, if sgt0 (nth 2 r szero)
                       then (sneg <$> take 3 r) ++ drop 3 r else r)
                   <$> take (S n) rows)
                ++ drop (S n) rows))
  ∧ ((∃ k r, (k ≤ n)%nat ∧ rows !! k = Some r ∧ sgt0 (nth 2 r szero) = true) →
     (FTSliceDecoder.forward_symmetric self lattice (Z.of_nat n)).1 ≠ lattice).
Proof.
  intros HC Hrows lattice. unfold lattice.
  rewrite forward_symmetric_state by done. cbv zeta.
  rewrite slice_index_nonneg by lia.
  replace (Z.to_nat (Z.of_nat n + 1)) with (S n) by lia.
  assert (Htake : take (length rows `min` S n) rows = take (S n) rows).
  { destruct (decide (S n ≤ length rows)%nat).
    - by rewrite Nat.min_r by lia.
    - rewrite Nat.min_l by lia. by rewrite !take_ge by lia. }
  assert (Hdrop : drop (length rows `min` S n) rows = drop (S n) rows).
  { destruct (decide (S n ≤ length rows)%nat).
    - by rewrite Nat.min_r by lia.
    - rewrite Nat.min_l by lia. by rewrite !drop_ge by lia. }
  rewrite Htake, Hdrop. split; [done |].
  intros (k & r & Hk & Hr & Hz) Heq. injection Heq as Heq.
  apply (concat_uniform_inj C) in Heq; [| | done |].
  - apply (f_equal (λ l, l !! k)) in Heq.
    rewrite lookup_app_l in Heq
      by (rewrite length_fmap, length_take; apply lookup_lt_Some in Hr; lia).
    rewrite list_lookup_fmap, lookup_take_lt, Hr in Heq by lia.
    injection Heq as Heq.
    assert (Hlen : (2 < length r)%nat).
    { rewrite list.Forall_forall in Hrows. rewrite (Hrows r); [done |].
      by apply list_elem_of_lookup_2 in Hr. }
    exact (decode_row_state_changes r Hlen Hz Heq).
  - apply Forall_app. split.
    + apply (Forall_length_decode_row_state C). by apply Forall_take.
    + by apply Forall_drop.
  - rewrite length_app, length_fmap, length_take, length_drop. lia.
Qed.

Lemma forward_symmetric_mutates_lattice_witness :
  (FTSliceDecoder.forward_symmetric (decoder4 3 hermitian_decoder)
     (mk [3%nat; 3%nat] [1; 2; 3; 0; 0; 0; 5; 5; 5]) 1).1
  = mk [3%nat; 3%nat] [-1; -2; -3; 0; 0; 0; 5; 5; 5].
Proof.
  exact (proj1 (forward_symmetric_mutates_lattice Z Z_scalar
                  (decoder4 3 hermitian_decoder) 3%nat 1%nat
                  [[1; 2; 3]; [0; 0; 0]; [5; 5; 5]] ltac:(lia)
                  ltac:(repeat constructor))).
Defined.

(** * The networks *)

Lemma zip_with_concat {A B C} (f : A → B → C) (a : list (list A)) (b : list (list B)) :
  Forall2 (λ x y, length x = length y) a b →
  zip_with f (concat a) (concat b) = concat (zip_with (zip_with f) a b).
Proof.
  induction 1 as [|x y a b Hxy _ IH]; simpl; [done |].
  by rewrite zip_with_app, IH.
Qed.

Lemma broadcast_rev_refl (s : list nat) : broadcast_rev s s = Ok s.
Proof.
  induction s as [|x s IH]; simpl; [done |].
  rewrite IH. cbn. by rewrite Nat.eqb_refl.
Qed.

Lemma broadcast_shapes_refl (s : list nat) : broadcast_shapes s s = Ok s.
Proof.
  unfold broadcast_shapes. rewrite broadcast_rev_refl. cbn.
  by rewrite reverse_involutive.
Qed.

Lemma shape_rows_reverse (bs : list nat) (w : nat) :
  reverse (bs ++ [w]) = w :: reverse bs.
Proof. by rewrite reverse_app. Qed.

Lemma shape_rows_back (bs : list nat) (w : nat) :
  reverse (w :: reverse bs) = bs ++ [w].
Proof. by rewrite reverse_cons, reverse_involutive. Qed.

Lemma numel_rows (bs : list nat) (w : nat) :
  numel (bs ++ [w]) = (numel bs * w)%nat.
Proof. rewrite numel_app. simpl. lia. Qed.

Section Networks.
Context {T : Type} `{!Scalar T}.

Lemma length_linear_row (l : Linear.t T) (r : list T) :
  length (Linear.row l r) = Linear.out_features l.
Proof. unfold Linear.row. by rewrite length_fmap, length_seq. Qed.

(** A linear layer rejects any other width than its own. *)
Lemma linear_forward_wrong_width (l : Linear.t T) (x : Tensor T)
    (bs : list nat) (w : nat) :
  shape x = bs ++ [w] → w ≠ Linear.in_features l →
  Linear.forward l x = Raise RuntimeError.
Proof.
  intros Hshape Hw. unfold Linear.forward. rewrite Hshape, shape_rows_reverse.
  by destruct (Nat.eqb_spec w (Linear.in_features l)).
Qed.

Lemma linear_forward_rows (l : Linear.t T) (bs : list nat) (rows : list (list T)) :
  length rows = numel bs →
  Forall (λ r, length r = Linear.in_features l) rows →
  Linear.forward l (mk (bs ++ [Linear.in_features l]) (concat rows))
  = Ok (mk (bs ++ [Linear.out_features l]) (concat (Linear.row l <$> rows))).
Proof.
  intros Hlen Hrows. unfold Linear.forward. cbn [shape data].
  rewrite shape_rows_reverse, Nat.eqb_refl. cbn [negb].
  rewrite shape_rows_back, numel_reverse, <- Hlen.
  by rewrite chunks_concat.
Qed.

(** A layer that takes rows of width [w] acts on each row on its own. *)
Lemma layer_forward_rows (l : Sequential.layer T) (bs : list nat)
    (w w' : nat) (rows : list (list T)) :
  layer_width l w = Some w' →
  length rows = numel bs →
  Forall (λ r, length r = w) rows →
  Sequential.layer_forward l (mk (bs ++ [w]) (concat rows))
  = Ok (mk (bs ++ [w']) (concat (layer_row l <$> rows)))
  ∧ Forall (λ r, length r = w') (layer_row l <$> rows).
Proof.
  intros Hw Hlen Hrows. destruct l as [l | [l] | f]; simpl in Hw.
  - destruct (Nat.eqb_spec w (Linear.in_features l)) as [-> | ?]; [| done].
    injection Hw as <-. split.
    + by apply linear_forward_rows.
    + apply Forall_fmap, Forall_true. intros r. apply length_linear_row.
  - destruct (Nat.eqb_spec w (Linear.in_features l)) as [-> | ?]; [| done].
    destruct (Nat.eqb_spec (Linear.in_features l) (Linear.out_features l))
      as [Hout | ?]; [| done].
    injection Hw as <-.
    set (w := Linear.in_features l) in *.
    assert (Hy : Forall (λ r, length r = w) (Linear.row l <$> rows)).
    { apply Forall_fmap, Forall_true. intros r. simpl.
      by rewrite length_linear_row. }
    split.
    + cbn [Sequential.layer_forward layer_row ResidLinear.linear].
      unfold ResidLinear.forward. cbn [ResidLinear.linear].
      unfold w at 1. rewrite linear_forward_rows by done.
      rewrite <- Hout. fold w. cbn [mbind result_bind]. unfold add. cbn [shape].
      rewrite broadcast_shapes_refl. cbn [mbind result_bind].
      rewrite (expand_refl (mk (bs ++ [w]) (concat (Linear.row l <$> rows)))); cycle 1.
      { unfold wf. cbn [shape data].
        rewrite (length_concat_uniform w), numel_rows, length_fmap by done. lia. }
      cbn [mbind result_bind].
      pose proof (expand_refl (mk (bs ++ [w]) (concat rows))) as Hx.
      cbn [shape] in Hx. rewrite Hx; cycle 1.
      { unfold wf. cbn [shape data].
        rewrite (length_concat_uniform w), numel_rows by done. lia. }
      cbn [mbind result_bind data]. do 2 f_equal.
      rewrite zip_with_concat.
      * by rewrite zip_with_fmap_same.
      * clear -Hrows Hout. induction Hrows as [|r rows Hr _ IH]; csimpl; constructor.
        -- by rewrite length_linear_row, <- Hout.
        -- exact IH.
    + cbn [layer_row ResidLinear.linear]. apply Forall_fmap.
      eapply list.Forall_impl; [exact Hrows |]. intros r Hr. simpl.
      rewrite length_zip_with, length_linear_row, <- Hout, Hr. lia.
  - injection Hw as <-. split.
    + cbn [Sequential.layer_forward layer_row shape data]. f_equal. f_equal.
      apply fmap_concat.
    + cbn [layer_row]. apply Forall_fmap.
      eapply list.Forall_impl; [exact Hrows |]. intros r Hr. simpl.
      by rewrite length_fmap.
Qed.

(** A network whose layers fit acts on each row on its own. *)
Lemma network_forward_rows (layers : list (Sequential.layer T)) :
  ∀ (bs : list nat) (w w' : nat) (rows : list (list T)),
    network_width layers w = Some w' →
    length rows = numel bs →
    Forall (λ r, length r = w) rows →
    Sequential.forward layers (mk (bs ++ [w]) (concat rows))
    = Ok (mk (bs ++ [w']) (concat (network_row layers <$> rows)))
    ∧ Forall (λ r, length r = w') (network_row layers <$> rows).
Proof.
  induction layers as [|l layers IH]; intros bs w w' rows Hw Hlen Hrows.
  - injection Hw as <-.
    replace (network_row [] <$> rows) with rows by (symmetry; apply list_fmap_id).
    done.
  - cbn in Hw. destruct (layer_width l w) as [w1 |] eqn:Hl; cbn in Hw; [| discriminate].
    destruct (layer_forward_rows l bs w w1 rows Hl Hlen Hrows) as [Hf Hw1].
    cbn [Sequential.forward]. rewrite Hf. cbn [mbind result_bind].
    destruct (IH bs w1 w' (layer_row l <$> rows) Hw) as [Hn Hw'];
      [by rewrite length_fmap | done |].
    assert (Heq : network_row (l :: layers) <$> rows
                  = network_row layers <$> (layer_row l <$> rows))
      by (by rewrite <- list_fmap_compose).
    by rewrite Hn, Heq.
Qed.

Lemma network_width_app (a b : list (Sequential.layer T)) (w : nat) :
  network_width (a ++ b) w = w' ← network_width a w; network_width b w'.
Proof.
  revert w. induction a as [|l a IH]; intros w; [done |]. cbn.
  destruct (layer_width l w); cbn; [apply IH | done].
Qed.

(** The residual blocks between equal widths keep the width. *)
Lemma network_width_resid_blocks (h : nat) (activation : T → T)
    (params : nat → list (list T) * list T) (idx : list nat) :
  network_width
    (n ← idx;
     [Sequential.Resid (ResidLinear.__init__ h h (params (S n)));
      Sequential.Act activation]) h
  = Some h.
Proof.
  induction idx as [|n idx IH]; [done |]. cbn. by rewrite Nat.eqb_refl.
Qed.

Lemma network_width_linear_blocks (h : nat) (activation : T → T)
    (params : nat → list (list T) * list T) (idx : list nat) :
  network_width
    (n ← idx;
     [Sequential.Lin (Linear.__init__ h h (params (S n)));
      Sequential.Act activation]) h
  = Some h.
Proof.
  induction idx as [|n idx IH]; [done |]. cbn. by rewrite Nat.eqb_refl.
Qed.

Lemma decoder_width (in_dim out_dim : nat) (nlayers : Z) (hidden_dim : nat)
    (activation : T → T) (params : nat → list (list T) * list T) :
  network_width
    (ResidLinearDecoder.main
       (ResidLinearDecoder.__init__ in_dim out_dim nlayers hidden_dim
          activation params)) in_dim
  = Some out_dim.
Proof.
  cbn [ResidLinearDecoder.__init__ ResidLinearDecoder.main].
  rewrite !network_width_app. cbn. rewrite Nat.eqb_refl. cbn.
  rewrite network_width_resid_blocks. cbn. by rewrite Nat.eqb_refl.
Qed.

Lemma resid_encoder_width (in_dim : nat) (nlayers : Z) (hidden_dim out_dim : nat)
    (activation : T → T) (params : nat → list (list T) * list T) :
  network_width
    (ResidLinearEncoder.main
       (ResidLinearEncoder.__init__ in_dim nlayers hidden_dim out_dim
          activation params)) in_dim
  = Some out_dim.
Proof.
  cbn [ResidLinearEncoder.__init__ ResidLinearEncoder.main].
  rewrite !network_width_app. cbn. rewrite Nat.eqb_refl. cbn.
  rewrite network_width_resid_blocks. cbn. by rewrite Nat.eqb_refl.
Qed.

Lemma mlp_encoder_width (in_dim : nat) (nlayers : Z) (hidden_dim out_dim : nat)
    (activation : T → T) (params : nat → list (list T) * list T) :
  network_width
    (MLPEncoder.main
       (MLPEncoder.__init__ in_dim nlayers hidden_dim out_dim
          activation params)) in_dim
  = Some out_dim.
Proof.
  cbn [MLPEncoder.__init__ MLPEncoder.main].
  rewrite !network_width_app. cbn. rewrite Nat.eqb_refl. cbn.
  rewrite network_width_linear_blocks. cbn. by rewrite Nat.eqb_refl.
Qed.

(** A well-formed tensor is the tensor of its rows. *)
Lemma tensor_rows (x : Tensor T) (bs : list nat) (w : nat) :
  shape x = bs ++ [w] → wf x →
  x = mk (bs ++ [w]) (concat (chunks w (numel bs) (data x)))
  ∧ length (chunks w (numel bs) (data x)) = numel bs
  ∧ Forall (λ r, length r = w) (chunks w (numel bs) (data x)).
Proof.
  intros Hshape Hwf. unfold wf in Hwf. rewrite Hshape, numel_rows in Hwf.
  split; [| split].
  - rewrite concat_chunks by done. destruct x; simpl in *. by subst.
  - apply length_chunks.
  - by apply Forall_length_chunks.
Qed.

(** [t.view(-1, k)] of a well-formed tensor of n·k elements, k > 0. *)
Lemma view_infer_rows (x : Tensor T) (n k : nat) :
  (0 < k)%nat → numel (shape x) = (n * k)%nat →
  view_infer x k = Ok (mk [n; k] (data x)).
Proof.
  intros Hk Hn. unfold view_infer.
  destruct (Nat.eqb_spec k 0); [lia |]. rewrite Hn.
  rewrite Nat.Div0.mod_mul, Nat.div_mul by lia. done.
Qed.

Lemma view_infer_not_multiple (x : Tensor T) (k : nat) :
  (numel (shape x) `mod` k ≠ 0)%nat ∨ k = 0%nat →
  view_infer x k = Raise RuntimeError.
Proof.
  intros Hk. unfold view_infer.
  destruct (Nat.eqb_spec k 0); [done |].
  destruct (Nat.eqb_spec (numel (shape x) `mod` k) 0); [lia | done].
Qed.

(** An encoder made of layers that fit, on an image stack of n·in_dim
    elements. *)
Lemma encoder_forward_rows (layers : list (Sequential.layer T))
    (in_dim out_dim n : nat) (img : Tensor T) :
  network_width layers in_dim = Some out_dim →
  (0 < in_dim)%nat → numel (shape img) = (n * in_dim)%nat → wf img →
  (x ← view_infer img in_dim; Sequential.forward layers x)
  = Ok (mk [n; out_dim]
          (concat (network_row layers <$> chunks in_dim n (data img)))).
Proof.
  intros Hw Hin Hn Hwf. rewrite (view_infer_rows img n in_dim) by done.
  cbn [mbind result_bind].
  assert (Hlen : length (data img) = (n * in_dim)%nat) by (by rewrite <- Hn).
  destruct (network_forward_rows layers [n] in_dim out_dim
              (chunks in_dim n (data img)) Hw) as [Hf _].
  { rewrite length_chunks. simpl. lia. }
  { by apply Forall_length_chunks. }
  rewrite concat_chunks in Hf by done. exact Hf.
Qed.
End Networks.

Section Encoders.
Context {T : Type} `{!Scalar T}.

(** The encoding of a stack, with the size of its rows. *)
Lemma encoder_forward_wf (layers : list (Sequential.layer T))
    (in_dim out_dim n : nat) (img : Tensor T) :
  network_width layers in_dim = Some out_dim →
  (0 < in_dim)%nat → numel (shape img) = (n * in_dim)%nat → wf img →
  ∃ rows,
    (x ← view_infer img in_dim; Sequential.forward layers x)
    = Ok (mk [n; out_dim] (concat rows))
    ∧ length rows = n ∧ Forall (λ r, length r = out_dim) rows.
Proof.
  intros Hw Hin Hn Hwf.
  exists (network_row layers <$> chunks in_dim n (data img)).
  split; [by apply encoder_forward_rows |].
  split; [by rewrite length_fmap, length_chunks |].
  assert (Hlen : length (data img) = (n * in_dim)%nat) by (by rewrite <- Hn).
  destruct (network_forward_rows layers [n] in_dim out_dim
              (chunks in_dim n (data img)) Hw) as [_ Hrows]; [| | done].
  - rewrite length_chunks. simpl. lia.
  - by apply Forall_length_chunks.
Qed.

Lemma cat_last_rows (a b : list (list T)) (n h h' : nat) :
  length a = n → length b = n →
  Forall (λ r, length r = h) a → Forall (λ r, length r = h') b →
  cat_last (mk [n; h] (concat a)) (mk [n; h'] (concat b))
  = Ok (mk [n; (h + h')%nat] (concat (zip_with app a b))).
Proof.
  intros Ha Hb Hra Hrb. unfold cat_last. cbn [shape data].
  change (reverse [n; h]) with [h; n]. change (reverse [n; h']) with [h'; n].
  cbv beta iota. rewrite bool_decide_eq_true_2 by done.
  cbn [numel foldr]. rewrite Nat.mul_1_r.
  rewrite <- Ha at 2. rewrite chunks_concat by done.
  rewrite <- Hb. rewrite chunks_concat by done. by rewrite Hb.
Qed.

Lemma cat_last_rows_mismatch (da db : list T) (n n' h h' : nat) :
  n ≠ n' →
  cat_last (mk [n; h] da) (mk [n'; h'] db) = Raise RuntimeError.
Proof.
  intros Hn. unfold cat_last. cbn [shape].
  change (reverse [n; h]) with [h; n]. change (reverse [n'; h']) with [h'; n'].
  cbv beta iota. rewrite bool_decide_eq_false_2; [done |]. intros [=]. done.
Qed.

Lemma Forall_length_zip_app (a b : list (list T)) (h h' : nat) :
  Forall (λ r, length r = h) a → Forall (λ r, length r = h') b →
  Forall (λ r, length r = (h + h')%nat) (zip_with app a b).
Proof.
  intros Ha. revert b. induction Ha as [|x a Hx _ IH]; intros b Hb; [constructor |].
  destruct Hb as [|y b Hy Hb]; simpl; constructor.
  - rewrite length_app. lia.
  - by apply IH.
Qed.
End Encoders.

Lemma broadcast_shapes_rows (bs : list nat) (a b : nat) :
  broadcast_shapes (bs ++ [a]) (bs ++ [b])
  = if (a =? b)%nat then Ok (bs ++ [a])
    else if (a =? 1)%nat then Ok (bs ++ [b])
    else if (b =? 1)%nat then Ok (bs ++ [a])
    else Raise RuntimeError.
Proof.
  unfold broadcast_shapes. rewrite !shape_rows_reverse. cbn [broadcast_rev].
  rewrite broadcast_rev_refl. cbn [mbind result_bind].
  destruct (a =? b)%nat; [cbn [fmap result_fmap]; by rewrite shape_rows_back |].
  destruct (a =? 1)%nat; [cbn [fmap result_fmap]; by rewrite shape_rows_back |].
  destruct (b =? 1)%nat; [cbn [fmap result_fmap]; by rewrite shape_rows_back | done].
Qed.

Lemma expandable_rows (bs : list nat) (a m : nat) :
  a = m ∨ a = 1%nat → expandable (bs ++ [a]) (bs ++ [m]).
Proof.
  intros Ha. apply Forall2_app; [apply expandable_refl |].
  constructor; [done | constructor].
Qed.

Lemma expand_rows_is_Ok {A} (t : Tensor A) (bs : list nat) (a m : nat) :
  shape t = bs ++ [a] → a = m ∨ a = 1%nat →
  ∃ t', expand t (bs ++ [m]) = Ok t'.
Proof.
  intros Hshape Ha.
  destruct (expand_is_Ok t (bs ++ [m])) as (t' & Ht & _).
  - rewrite Hshape, !length_app. simpl. lia.
  - rewrite Hshape, !length_app. simpl.
    replace (length bs + 1 - (length bs + 1))%nat with 0%nat by lia.
    by apply expandable_rows.
  - by exists t'.
Qed.

(** * The networks of the model *)

(** X14.  The network of the decoder acts on the last dimension, row by
    row: on a well-formed tensor of shape (..., in_dim) it returns the
    tensor of shape (..., out_dim) whose rows are the images of the rows
    of the input under one function of the row, for any number of layers,
    hidden width, activation and parameters; a last dimension of any
    other size is rejected by the first linear layer. *)
Theorem decoder_network_rows (T : Type) (S : Scalar T)
    (in_dim out_dim : nat) (nlayers : Z) (hidden_dim : nat)
    (activation : T → T) (params : nat → list (list T) * list T)
    (x : Tensor T) (bs : list nat) (w : nat) :
  let self :=
    ResidLinearDecoder.__init__ in_dim out_dim nlayers hidden_dim activation params in
  shape x = bs ++ [w] → wf x →
  (w = in_dim →
   ResidLinearDecoder.forward self x
   = Ok (mk (bs ++ [out_dim])
           (concat (network_row (ResidLinearDecoder.main self)
                      <$> chunks in_dim (numel bs) (data x))))
   ∧ Forall (λ r, length r = out_dim)
       (network_row (ResidLinearDecoder.main self)
          <$> chunks in_dim (numel bs) (data x)))
  ∧ (w ≠ in_dim → ResidLinearDecoder.forward self x = Raise RuntimeError).
Proof.
  intros self Hshape Hwf. split.
  - intros ->. destruct (tensor_rows x bs in_dim Hshape Hwf) as (Hx & Hlen & Hrows).
    unfold ResidLinearDecoder.forward. rewrite Hx at 1.
    apply network_forward_rows; [apply decoder_width | done | done].
  - intros Hw. unfold ResidLinearDecoder.forward. cbn.
    by rewrite (linear_forward_wrong_width _ x bs w).
Qed.

Lemma decoder_network_rows_witness :
  ResidLinearDecoder.forward (ResidLinearDecoder.__init__ 3 2 1 2 relu params_ones)
    (mk [2%nat; 3%nat] [1; 2; 3; 4; 5; -6])
  = Ok (mk [2%nat; 2%nat] [36; 36; 18; 18])
  ∧ ResidLinearDecoder.forward (ResidLinearDecoder.__init__ 4 2 1 2 relu params_ones)
      (mk [2%nat; 3%nat] [1; 2; 3; 4; 5; -6])
    = Raise RuntimeError.
Proof.
  split.
  - destruct (decoder_network_rows Z Z_scalar 3%nat 2%nat 1 2%nat relu params_ones
                (mk [2%nat; 3%nat] [1; 2; 3; 4; 5; -6]) [2%nat] 3%nat
                eq_refl eq_refl) as [H _].
    destruct (H eq_refl) as [-> _]. vm_compute. reflexivity.
  - destruct (decoder_network_rows Z Z_scalar 4%nat 2%nat 1 2%nat relu params_ones
                (mk [2%nat; 3%nat] [1; 2; 3; 4; 5; -6]) [2%nat] 3%nat
                eq_refl eq_refl) as [_ H].
    apply H. lia.
Defined.

(** X15.  The two dense encoders flatten whatever they are given into
    rows of in_dim elements: a well-formed image stack of n·in_dim
    elements, of any shape, is encoded as n rows of out_dim values, each
    a function of one block of in_dim consecutive elements; a stack whose
    number of elements is not a multiple of in_dim is rejected. *)
Theorem encoders_flatten_images (T : Type) (S : Scalar T)
    (in_dim : nat) (nlayers : Z) (hidden_dim out_dim : nat)
    (activation : T → T) (params : nat → list (list T) * list T)
    (img : Tensor T) (n : nat) :
  let resid :=
    ResidLinearEncoder.__init__ in_dim nlayers hidden_dim out_dim activation params in
  let mlp :=
    MLPEncoder.__init__ in_dim nlayers hidden_dim out_dim activation params in
  (0 < in_dim)%nat →
  (wf img → numel (shape img) = (n * in_dim)%nat →
   ResidLinearEncoder.forward resid img
   = Ok (mk [n; out_dim]
           (concat (network_row (ResidLinearEncoder.main resid)
                      <$> chunks in_dim n (data img))))
   ∧ MLPEncoder.forward mlp img
     = Ok (mk [n; out_dim]
             (concat (network_row (MLPEncoder.main mlp)
                        <$> chunks in_dim n (data img)))))
  ∧ ((numel (shape img) `mod` in_dim ≠ 0)%nat →
     ResidLinearEncoder.forward resid img = Raise RuntimeError
     ∧ MLPEncoder.forward mlp img = Raise RuntimeError).
Proof.
  intros resid mlp Hin. split.
  - intros Hwf Hn. split.
    + apply encoder_forward_rows; [apply resid_encoder_width | done ..].
    + apply encoder_forward_rows; [apply mlp_encoder_width | done ..].
  - intros Hmod. unfold ResidLinearEncoder.forward, MLPEncoder.forward.
    cbn [ResidLinearEncoder.in_dim MLPEncoder.in_dim resid mlp
         ResidLinearEncoder.__init__ MLPEncoder.__init__].
    rewrite view_infer_not_multiple by (by left). done.
Qed.

Lemma encoders_flatten_images_witness :
  ResidLinearEncoder.forward (ResidLinearEncoder.__init__ 4 2 2 1 relu params_ones)
    (mk [3%nat; 2%nat; 2%nat] (seqZ 1 12))
  = Ok (mk [3%nat; 1%nat] [60; 156; 252]).
Proof.
  destruct (encoders_flatten_images Z Z_scalar 4%nat 2 2%nat 1%nat relu params_ones
              (mk [3%nat; 2%nat; 2%nat] (seqZ 1 12)) 3%nat ltac:(lia)) as [H _].
  destruct (H eq_refl eq_refl) as [-> _]. vm_compute. reflexivity.
Defined.

(** X16.  The encoder of a tilt pair needs more than two layers: the
    constructor raises [AssertionError] for nlayers ≤ 2.  Built with more,
    it encodes two well-formed stacks of n·in_dim elements each into one
    tensor of shape (n, out_dim), and rejects two stacks that do not hold
    the same number of images. *)
Theorem tilt_encoder_pairs (T : Type) (Sc : Scalar T)
    (in_dim : nat) (nlayers : Z) (hidden_dim out_dim : nat)
    (activation : T → T) (params1 params2 : nat → list (list T) * list T) :
  (nlayers ≤ 2 →
   TiltEncoder.__init__ in_dim nlayers hidden_dim out_dim activation params1 params2
   = Raise AssertionError)
  ∧ (2 < nlayers → (0 < in_dim)%nat → (0 < hidden_dim)%nat →
     ∃ self,
       TiltEncoder.__init__ in_dim nlayers hidden_dim out_dim activation
         params1 params2 = Ok self
       ∧ ∀ (x x_tilt : Tensor T) (n n' : nat),
           wf x → wf x_tilt →
           numel (shape x) = (n * in_dim)%nat →
           numel (shape x_tilt) = (n' * in_dim)%nat →
           (n = n' →
            ∃ z, TiltEncoder.forward self (x, x_tilt) = Ok z
                 ∧ shape z = [n; out_dim] ∧ wf z)
           ∧ (n ≠ n' → TiltEncoder.forward self (x, x_tilt) = Raise RuntimeError)).
Proof.
  split.
  - intros Hn. unfold TiltEncoder.__init__.
    by destruct (Z.ltb_spec 2 nlayers); [lia |].
  - intros Hn Hin Hh. unfold TiltEncoder.__init__.
    destruct (Z.ltb_spec 2 nlayers); [| lia]. cbn [negb].
    eexists. split; [reflexivity |].
    intros x x_tilt n n' Hwx Hwt Hnx Hnt.
    unfold TiltEncoder.forward. cbn [TiltEncoder.encoder1 TiltEncoder.encoder2].
    set (enc1 := ResidLinearEncoder.__init__ in_dim (nlayers - 2) hidden_dim
                   hidden_dim activation params1).
    set (enc2 := ResidLinearEncoder.__init__ (hidden_dim * 2) 2 hidden_dim
                   out_dim activation params2).
    destruct (encoder_forward_wf (ResidLinearEncoder.main enc1) in_dim hidden_dim
                n x (resid_encoder_width _ _ _ _ _ _) Hin Hnx Hwx)
      as (a & Hxa & Ha & Hra).
    change (ResidLinearEncoder.forward enc1 x
            = Ok (mk [n; hidden_dim] (concat a))) in Hxa.
    destruct (encoder_forward_wf (ResidLinearEncoder.main enc1) in_dim hidden_dim
                n' x_tilt (resid_encoder_width _ _ _ _ _ _) Hin Hnt Hwt)
      as (b & Hxb & Hb & Hrb).
    change (ResidLinearEncoder.forward enc1 x_tilt
            = Ok (mk [n'; hidden_dim] (concat b))) in Hxb.
    rewrite Hxa, Hxb. cbn [mbind result_bind]. split.
    + intros <-. rewrite (cat_last_rows a b n hidden_dim hidden_dim) by done.
      cbn [mbind result_bind].
      destruct (encoder_forward_wf (ResidLinearEncoder.main enc2) (hidden_dim * 2)
                  out_dim n
                  (mk [n; (hidden_dim + hidden_dim)%nat] (concat (zip_with app a b)))
                  (resid_encoder_width _ _ _ _ _ _))
        as (rows & Hz & Hlen & Hrows).
      * lia.
      * cbn. lia.
      * unfold wf. cbn [shape data numel foldr].
        rewrite (length_concat_uniform (hidden_dim + hidden_dim))
          by (by apply Forall_length_zip_app).
        rewrite length_zip_with. lia.
      * eexists. split; [exact Hz |]. split; [done |].
        unfold wf. cbn [shape data numel foldr].
        rewrite (length_concat_uniform out_dim) by done. lia.
    + intros Hne. by rewrite cat_last_rows_mismatch.
Qed.

Lemma tilt_encoder_pairs_witness :
  TiltEncoder.__init__ 4 2 2 1 relu params_ones params_ones = Raise AssertionError
  ∧ ∃ self z,
      TiltEncoder.__init__ 4 3 2 1 relu params_ones params_ones = Ok self
      ∧ TiltEncoder.forward self
          (mk [2%nat; 2%nat; 2%nat] (seqZ 1 8), mk [2%nat; 4%nat] (seqZ 1 8)) = Ok z
      ∧ shape z = [2%nat; 1%nat].
Proof.
  destruct (tilt_encoder_pairs Z Z_scalar 4%nat 2 2%nat 1%nat relu
              params_ones params_ones) as [Hlow _].
  destruct (tilt_encoder_pairs Z Z_scalar 4%nat 3 2%nat 1%nat relu
              params_ones params_ones) as [_ Hhigh].
  split; [apply Hlow; lia |].
  destruct (Hhigh ltac:(lia) ltac:(lia) ltac:(lia)) as (self & Hself & Hfwd).
  destruct (Hfwd (mk [2%nat; 2%nat; 2%nat] (seqZ 1 8)) (mk [2%nat; 4%nat] (seqZ 1 8))
              2%nat 2%nat eq_refl eq_refl eq_refl eq_refl) as [Hsame _].
  destruct (Hsame eq_refl) as (z & Hz & Hshape & _).
  exists self, z. split; [exact Hself |]. split; [exact Hz | exact Hshape].
Defined.

(** X17.  [ResidLinear] adds its input to the output of its linear
    layer, so the two widths have to broadcast.  Between equal widths
    each row r gives linear(r) + r.  Between different widths the call
    raises [RuntimeError], unless one of them is 1: then the sum is
    broadcast and the rows returned have the other width, so that
    [ResidLinear(nin, 1)] returns rows of width nin, not 1. *)
Theorem resid_linear_widths (T : Type) (Sc : Scalar T) (nin nout : nat)
    (p : list (list T) * list T) (x : Tensor T) (bs : list nat) :
  let self := ResidLinear.__init__ nin nout p in
  shape x = bs ++ [nin] → wf x →
  (nin = nout →
   ResidLinear.forward self x
   = Ok (mk (bs ++ [nout])
           (concat ((λ r, zip_with sadd (Linear.row (ResidLinear.linear self) r) r)
                      <$> chunks nin (numel bs) (data x)))))
  ∧ (nin ≠ nout → nin ≠ 1%nat → nout ≠ 1%nat →
     ResidLinear.forward self x = Raise RuntimeError)
  ∧ (nin ≠ nout → nin = 1%nat ∨ nout = 1%nat →
     ∃ y, ResidLinear.forward self x = Ok y
          ∧ shape y = bs ++ [if (nout =? 1)%nat then nin else nout]).
Proof.
  intros self Hshape Hwf.
  destruct (tensor_rows x bs nin Hshape Hwf) as (Hx & Hlen & Hrows).
  set (rows := chunks nin (numel bs) (data x)) in *.
  assert (Hlin : Linear.forward (ResidLinear.linear self) x
                 = Ok (mk (bs ++ [nout])
                         (concat (Linear.row (ResidLinear.linear self) <$> rows)))).
  { rewrite Hx at 1.
    exact (linear_forward_rows (ResidLinear.linear self) bs rows Hlen Hrows). }
  split; [| split].
  - intros <-.
    destruct (layer_forward_rows (Sequential.Resid self) bs nin nin rows) as [Hf _];
      [| done | done |].
    { cbn. by rewrite Nat.eqb_refl. }
    cbn [Sequential.layer_forward layer_row] in Hf. by rewrite Hx at 1.
  - intros Hne Hin1 Hout1. unfold ResidLinear.forward. rewrite Hlin.
    cbn [mbind result_bind]. unfold add. cbn [shape].
    rewrite Hshape, broadcast_shapes_rows.
    destruct (Nat.eqb_spec nout nin); [lia |].
    destruct (Nat.eqb_spec nout 1); [lia |].
    by destruct (Nat.eqb_spec nin 1); [lia |].
  - intros Hne Hone. unfold ResidLinear.forward. rewrite Hlin.
    cbn [mbind result_bind]. unfold add. cbn [shape].
    rewrite Hshape, broadcast_shapes_rows.
    destruct (Nat.eqb_spec nout nin); [lia |].
    set (m := if (nout =? 1)%nat then nin else nout).
    assert (Hs : (if (nout =? 1)%nat then Ok (bs ++ [nin])
                  else if (nin =? 1)%nat then Ok (bs ++ [nout])
                  else Raise RuntimeError)
                 = Ok (bs ++ [m])).
    { unfold m. destruct (Nat.eqb_spec nout 1); [done |].
      destruct (Nat.eqb_spec nin 1); [done | lia]. }
    assert (Hm : (nout = m ∨ nout = 1%nat) ∧ (nin = m ∨ nin = 1%nat)).
    { unfold m. destruct (Nat.eqb_spec nout 1); lia. }
    rewrite Hs. cbn [mbind result_bind].
    destruct (expand_rows_is_Ok
                (mk (bs ++ [nout]) (concat (Linear.row (ResidLinear.linear self) <$> rows)))
                bs nout m eq_refl (proj1 Hm)) as [y' ->].
    destruct (expand_rows_is_Ok x bs nin m Hshape (proj2 Hm)) as [x' ->].
    cbn [mbind result_bind]. by eexists.
Qed.

Lemma resid_linear_widths_witness :
  ResidLinear.forward (ResidLinear.__init__ 2 2 (params_ones 0))
    (mk [2%nat; 2%nat] [1; 2; 3; 4])
  = Ok (mk [2%nat; 2%nat] [4; 5; 10; 11])
  ∧ ResidLinear.forward (ResidLinear.__init__ 2 3 (params_ones 0))
      (mk [2%nat; 2%nat] [1; 2; 3; 4])
    = Raise RuntimeError.
Proof.
  split.
  - destruct (resid_linear_widths Z Z_scalar 2%nat 2%nat (params_ones 0)
                (mk [2%nat; 2%nat] [1; 2; 3; 4]) [2%nat] eq_refl eq_refl) as [H _].
    rewrite (H eq_refl). vm_compute. reflexivity.
  - destruct (resid_linear_widths Z Z_scalar 2%nat 3%nat (params_ones 0)
                (mk [2%nat; 2%nat] [1; 2; 3; 4]) [2%nat] eq_refl eq_refl)
      as (_ & H & _).
    apply H; lia.
Defined.

(** * HetVAE.encode *)

Section Encode.
Context {T : Type} `{!Scalar T}.

(** On an encoding of B rows of W values, [encode] returns the first
    z_dim values of every row and the values after them. *)
Lemma encode_rows (self : HetVAE.t T)
    (encoder : Tensor T → result (Tensor T)) (img : Tensor T)
    (rows : list (list T)) (B W : nat) :
  encoder img = Ok (mk [B; W] (concat rows)) →
  length rows = B → Forall (λ r, length r = W) rows →
  (HetVAE.z_dim self ≤ W)%nat →
  HetVAE.encode self encoder img
  = Ok (mk [B; HetVAE.z_dim self] (concat (take (HetVAE.z_dim self) <$> rows)),
        mk [B; (W - HetVAE.z_dim self)%nat]
           (concat (drop (HetVAE.z_dim self) <$> rows))).
Proof.
  intros Henc Hlen Hrows Hzd. unfold HetVAE.encode. rewrite Henc.
  cbn [mbind result_bind shape data numel foldr].
  rewrite slice_index_nonneg by lia. rewrite Nat2Z.id.
  rewrite Nat.min_r by lia. rewrite !Nat.mul_1_r.
  replace (chunks W B (concat rows)) with rows; [done |].
  symmetry. rewrite <- Hlen. by apply chunks_concat.
Qed.

Lemma Forall_length_take (rows : list (list T)) (W k : nat) :
  Forall (λ r, length r = W) rows → (k ≤ W)%nat →
  Forall (λ r, length r = k) (take k <$> rows).
Proof.
  intros Hrows Hk. apply Forall_fmap. eapply list.Forall_impl; [exact Hrows |].
  intros r Hr. simpl in *. rewrite length_take. lia.
Qed.

Lemma Forall_length_drop (rows : list (list T)) (W k : nat) :
  Forall (λ r, length r = W) rows →
  Forall (λ r, length r = (W - k)%nat) (drop k <$> rows).
Proof.
  intros Hrows. apply Forall_fmap. eapply list.Forall_impl; [exact Hrows |].
  intros r Hr. simpl in *. rewrite length_drop. lia.
Qed.

Lemma zip_take_drop (rows : list (list T)) (k : nat) :
  zip_with app (take k <$> rows) (drop k <$> rows) = rows.
Proof.
  induction rows as [|r rows IH]; csimpl; [done |]. by rewrite take_drop, IH.
Qed.
End Encode.

(** X18.  [encode] cuts the encoding in two without losing anything: on an
    encoding of shape (B, W) with z_dim ≤ W, the mean has shape (B, z_dim)
    and holds the first z_dim values of every row, the log-variance has
    shape (B, W - z_dim) and holds the rest of the row, and concatenating
    the two along the last dimension gives the encoding back. *)
Theorem encode_splits (T : Type) (S : Scalar T) (self : HetVAE.t T)
    (encoder : Tensor T → result (Tensor T)) (img z : Tensor T) (B W : nat) :
  encoder img = Ok z → shape z = [B; W] → wf z →
  (HetVAE.z_dim self ≤ W)%nat →
  ∃ mu logvar,
    HetVAE.encode self encoder img = Ok (mu, logvar)
    ∧ shape mu = [B; HetVAE.z_dim self]
    ∧ shape logvar = [B; (W - HetVAE.z_dim self)%nat]
    ∧ (∀ i row, chunks W B (data z) !! i = Some row →
         chunks (HetVAE.z_dim self) B (data mu) !! i
         = Some (take (HetVAE.z_dim self) row)
         ∧ chunks (W - HetVAE.z_dim self) B (data logvar) !! i
           = Some (drop (HetVAE.z_dim self) row))
    ∧ cat_last mu logvar = Ok z.
Proof.
  intros Henc Hshape Hwf Hzd.
  destruct (tensor_rows z [B] W Hshape Hwf) as (Hz & Hlen & Hrows).
  cbn [numel foldr] in Hz, Hlen, Hrows. rewrite Nat.mul_1_r in Hz, Hlen, Hrows.
  set (rows := chunks W B (data z)) in *. change ([B] ++ [W]) with [B; W] in Hz.
  rewrite Hz in Henc.
  eexists _, _. split; [by apply (encode_rows self encoder img rows B W) |].
  cbn [shape data]. split; [done |]. split; [done |].
  assert (Htake := Forall_length_take rows W (HetVAE.z_dim self) Hrows Hzd).
  assert (Hdrop := Forall_length_drop rows W (HetVAE.z_dim self) Hrows).
  split.
  - intros i row Hi.
    assert (H1 : chunks (HetVAE.z_dim self) B
                   (concat (take (HetVAE.z_dim self) <$> rows))
                 = take (HetVAE.z_dim self) <$> rows).
    { rewrite <- Hlen, <- (length_fmap (take (HetVAE.z_dim self)) rows).
      by apply chunks_concat. }
    assert (H2 : chunks (W - HetVAE.z_dim self) B
                   (concat (drop (HetVAE.z_dim self) <$> rows))
                 = drop (HetVAE.z_dim self) <$> rows).
    { rewrite <- Hlen, <- (length_fmap (drop (HetVAE.z_dim self)) rows).
      by apply chunks_concat. }
    by rewrite H1, H2, !list_lookup_fmap, Hi.
  - rewrite (cat_last_rows _ _ B (HetVAE.z_dim self) (W - HetVAE.z_dim self))
      by (done || by rewrite length_fmap).
    rewrite zip_take_drop.
    replace (HetVAE.z_dim self + (W - HetVAE.z_dim self))%nat with W by lia.
    by rewrite <- Hz.
Qed.

Lemma encode_splits_witness :
  ∃ mu logvar,
    HetVAE.encode (hetvae2 sum_decoder) Ok (mk [2%nat; 2%nat] [1; 2; 3; 4])
    = Ok (mu, logvar)
    ∧ data mu = [1; 3] ∧ data logvar = [2; 4]
    ∧ cat_last mu logvar = Ok (mk [2%nat; 2%nat] [1; 2; 3; 4]).
Proof.
  destruct (encode_splits Z Z_scalar (hetvae2 sum_decoder) Ok
              (mk [2%nat; 2%nat] [1; 2; 3; 4]) (mk [2%nat; 2%nat] [1; 2; 3; 4])
              2%nat 2%nat eq_refl eq_refl eq_refl ltac:(simpl; lia))
    as (mu & logvar & Henc & _ & _ & _ & Hcat).
  exists mu, logvar. split; [exact Henc |].
  vm_compute in Henc. injection Henc as <- <-. split; [reflexivity |].
  split; [reflexivity | exact Hcat].
Defined.

(** X19.  With a dense encoder built for 2·z_dim outputs, which is how
    the model builds its encoder, [encode] turns a well-formed stack of
    n·in_dim elements into a mean and a log-variance of shape (n, z_dim)
    each. *)
Theorem encode_dense_shapes (T : Type) (S : Scalar T) (self : HetVAE.t T)
    (in_dim : nat) (nlayers : Z) (hidden_dim : nat)
    (activation : T → T) (params : nat → list (list T) * list T)
    (img : Tensor T) (n : nat) :
  let resid :=
    ResidLinearEncoder.__init__ in_dim nlayers hidden_dim (HetVAE.z_dim self * 2)
      activation params in
  let mlp :=
    MLPEncoder.__init__ in_dim nlayers hidden_dim (HetVAE.z_dim self * 2)
      activation params in
  (0 < in_dim)%nat → wf img → numel (shape img) = (n * in_dim)%nat →
  ∀ encoder,
    encoder = ResidLinearEncoder.forward resid ∨ encoder = MLPEncoder.forward mlp →
    ∃ mu logvar,
      HetVAE.encode self encoder img = Ok (mu, logvar)
      ∧ shape mu = [n; HetVAE.z_dim self] ∧ wf mu
      ∧ shape logvar = [n; HetVAE.z_dim self] ∧ wf logvar.
Proof.
  intros resid mlp Hin Hwf Hn encoder Henc.
  assert (Hrows : ∃ rows,
            encoder img = Ok (mk [n; (HetVAE.z_dim self * 2)%nat] (concat rows))
            ∧ length rows = n
            ∧ Forall (λ r, length r = (HetVAE.z_dim self * 2)%nat) rows).
  { destruct Henc as [-> | ->].
    - apply (encoder_forward_wf (ResidLinearEncoder.main resid) in_dim);
        [apply resid_encoder_width | done ..].
    - apply (encoder_forward_wf (MLPEncoder.main mlp) in_dim);
        [apply mlp_encoder_width | done ..]. }
  destruct Hrows as (rows & Hz & Hlen & Hrows).
  rewrite (encode_rows self encoder img rows n (HetVAE.z_dim self * 2))
    by (done || lia).
  eexists _, _. split; [reflexivity |]. cbn [shape data].
  split; [done |]. split; [| split; [f_equal; f_equal; lia |]].
  - unfold wf. cbn [shape data numel foldr].
    rewrite (length_concat_uniform (HetVAE.z_dim self)), length_fmap
      by (apply (Forall_length_take rows (HetVAE.z_dim self * 2)); [done | lia]).
    lia.
  - unfold wf. cbn [shape data numel foldr].
    rewrite (length_concat_uniform (HetVAE.z_dim self * 2 - HetVAE.z_dim self)), length_fmap
      by (by apply Forall_length_drop).
    lia.
Qed.

Lemma encode_dense_shapes_witness :
  ∃ mu logvar,
    HetVAE.encode (hetvae2 sum_decoder)
      (MLPEncoder.forward (MLPEncoder.__init__ 4 2 2 2 relu params_ones))
      (mk [3%nat; 2%nat; 2%nat] (seqZ 1 12)) = Ok (mu, logvar)
    ∧ shape mu = [3%nat; 1%nat] ∧ shape logvar = [3%nat; 1%nat].
Proof.
  destruct (encode_dense_shapes Z Z_scalar (hetvae2 sum_decoder) 4%nat 2 2%nat
              relu params_ones (mk [3%nat; 2%nat; 2%nat] (seqZ 1 12)) 3%nat
              ltac:(lia) eq_refl eq_refl
              (MLPEncoder.forward (MLPEncoder.__init__ 4 2 2 2 relu params_ones))
              (or_intror eq_refl))
    as (mu & logvar & Henc & Hmu & _ & Hlv & _).
  exists mu, logvar. split; [exact Henc |]. split; [exact Hmu | exact Hlv].
Defined.
